(** * quantum-rl: the routing state and the simulated-annealing search

    A shallow embedding of [qroute/environment/state.py] (class
    [CircuitStateDQN]), of [qroute/algorithms/simanneal.py] (class
    [AnnealerDQN]) and of the action guard of [qroute/engine.py], together
    with the properties of the routing core.

    Python objects that are mutated in place (the four numpy arrays of a
    routing state) live in a store of arrays and are named by locations, so
    that a copy and its original can be told apart.  Python exceptions are
    values of a result type; randomness is a tape that is consumed draw by
    draw; temperatures are IEEE binary64 numbers. *)

From Stdlib Require Import ZArith List Lia Reals Lra.
From Stdlib Require Import Floats.PrimFloat.
From stdpp Require Import gmap list strings.

Local Open Scope Z_scope.

(** ** Exceptions and the state-and-exception monad *)

(** The three messages of [RuntimeError] raised by the annealer. *)
Inductive runtime_error : Type :=
  | RanOutOfEdges                       (* "Ran out of edges to swap" *)
  | ProtectedEdgeSwapped                (* "... Protected edge is being swapped" *)
  | NodeUsedTwice (swap_edges : list (Z * Z)). (* "... Same node is being used twice in ..." *)

(** The assertions of the code under study. *)
Inductive assertion : Type :=
  | QubitCountMismatch                  (* "All qubits on target device or not used, ..." *)
  | StateNotPreserved                   (* "State not preserved when selecting action" *)
  | BadAction.                          (* "Bad Action" *)

(** Python exceptions.  [Dangling] is not one of them: it is a read
    through a location that names no array, which no Python reference ever
    is. *)
Inductive exn : Type :=
  | IndexError
  | ValueError
  | TypeError
  | RuntimeError (e : runtime_error)
  | AssertionError (a : assertion)
  | Dangling.

Inductive result (A : Type) : Type :=
  | Ok (a : A)
  | Raise (e : exn).
Arguments Ok {A} a.
Arguments Raise {A} e.

(** A computation over a store [S]: it returns or raises, and in both cases
    leaves a store behind (what was written before an exception stays
    written). *)
Definition M (S A : Type) : Type := S -> result A * S.

Definition ret {S A} (a : A) : M S A := fun s => (Ok a, s).
Definition raise {S A} (e : exn) : M S A := fun s => (Raise e, s).
Definition bind {S A B} (m : M S A) (k : A -> M S B) : M S B :=
  fun s => match m s with
           | (Ok a, s') => k a s'
           | (Raise e, s') => (Raise e, s')
           end.
Definition modify {S} (f : S -> S) : M S unit := fun s => (Ok tt, f s).
Definition lift_result {S A} (r : result A) : M S A := fun s => (r, s).

Declare Scope monad_scope.
Delimit Scope monad_scope with monad.
Notation "x <- c1 ;; c2" := (bind c1 (fun x => c2))
  (at level 100, c1 at next level, right associativity) : monad_scope.
Notation "c1 ;; c2" := (bind c1 (fun _ => c2))
  (at level 100, right associativity) : monad_scope.
Local Open Scope monad_scope.

(** [for x in l: body x] *)
Fixpoint for_each {S A} (l : list A) (body : A -> M S unit) : M S unit :=
  match l with
  | [] => ret tt
  | x :: l' => body x ;; for_each l' body
  end.

(** ** numpy arrays of machine integers *)

(** [np.int] is the C long of the platform: 64 bits, two's complement. *)
Definition wrap64 (z : Z) : Z := (z + 2 ^ 63) mod 2 ^ 64 - 2 ^ 63.

Definition int64 (z : Z) : Prop := - 2 ^ 63 <= z < 2 ^ 63.

(** Indexing a sequence of length [n] by the integer [i], as numpy arrays and
    Python lists do: a negative index counts from the end, anything else out
    of range is an [IndexError]. *)
Definition np_index (n : nat) (i : Z) : option nat :=
  if (0 <=? i) && (i <? Z.of_nat n) then Some (Z.to_nat i)
  else if (- Z.of_nat n <=? i) && (i <? 0) then Some (Z.to_nat (Z.of_nat n + i))
  else None.

(** [a[i]] for a sequence held as a value. *)
Definition getitem {A} (a : list A) (i : Z) : result A :=
  match np_index (length a) i with
  | Some k => match a !! k with Some v => Ok v | None => Raise IndexError end
  | None => Raise IndexError
  end.

(** [a[i] = v] on a local array. *)
Definition setitem {A} (a : list A) (i : Z) (v : A) : result (list A) :=
  match np_index (length a) i with
  | Some k => Ok (<[k := v]> a)
  | None => Raise IndexError
  end.

(** ** The store of arrays *)

Definition loc := positive.
Abbreviation heap := (gmap loc (list Z)).

(** The array a reference points to. *)
Definition deref (l : loc) : M heap (list Z) :=
  fun h => match h !! l with
           | Some a => (Ok a, h)
           | None => (Raise Dangling, h)
           end.

(** Overwrite the contents of the array at [l], in place. *)
Definition assign (l : loc) (a : list Z) : M heap unit :=
  fun h => (Ok tt, <[l := a]> h).

(** [np.copy(a)] and the array constructors: a new array, at a location
    that names nothing yet. *)
Definition alloc (a : list Z) : M heap loc :=
  fun h => let l := fresh (dom h) in (Ok l, <[l := a]> h).

(** [self._x[i]] *)
Definition array_get (l : loc) (i : Z) : M heap Z :=
  a <- deref l ;; lift_result (getitem a i).

(** [self._x[i] = v] *)
Definition array_set (l : loc) (i : Z) (v : Z) : M heap unit :=
  a <- deref l ;;
  a' <- lift_result (setitem a i v) ;;
  assign l a'.

(** [self._x[i] += d], in 64-bit arithmetic *)
Definition array_iadd (l : loc) (i : Z) (d : Z) : M heap unit :=
  v <- array_get l i ;;
  array_set l i (wrap64 (v + d)).

(** [for x in l: acc = body acc x], a loop that threads local variables. *)
Fixpoint foldM {S A B} (body : B -> A -> M S B) (l : list A) (acc : B) : M S B :=
  match l with
  | [] => ret acc
  | x :: l' => acc' <- body acc x ;; foldM body l' acc'
  end.

(** [enumerate(a)] *)
Definition enumerate {A} (a : list A) : list (Z * A) :=
  imap (fun i v => (Z.of_nat i, v)) a.

(** [range(n)] *)
Definition range (n : nat) : list Z := seqZ 0 (Z.of_nat n).

(** ** Device and circuit *)

(** Modelled from the spec: [environment/device.py] is not among the
    sources.  The spec gives a device a node count ([len(device)]), an
    ordered list of edges (pairs of node indices), the matrix of
    shortest-path distances and an allocation function that produces the
    initial node-to-qubit array; these are the four attributes
    [CircuitStateDQN] and [AnnealerDQN] use. *)
Record DeviceTopology : Type := {
  edges : list (Z * Z);
  distances : list (list Z);
  n_nodes : nat;
  allocate : list (list Z) -> list Z;
}.

(** Modelled from the spec: [environment/circuits.py] is not among the
    sources.  A circuit is, for each qubit, the ordered sequence of the
    qubits it has to interact with; [len(circuit)] is the number of qubits
    and [circuit[q]] the sequence of qubit [q]. *)
Definition CircuitRepDQN : Type := list (list Z).

(** ** [state.py]: class [CircuitStateDQN] *)

(** The object: two shared references that are never written, and four
    references to numpy arrays that are mutated in place. *)
Record CircuitStateDQN : Type := {
  circuit : CircuitRepDQN;
  device : DeviceTopology;
  _node_to_qubit : loc;
  _qubit_targets : loc;
  _circuit_progress : loc;
  _locked_edges : loc;
}.

(** An argument that defaults to [None]: the array passed in is kept (not
    copied), a missing one is built. *)
Definition or_default (arg : option loc) (default : list Z) : M heap loc :=
  match arg with
  | Some l => ret l
  | None => alloc default
  end.

Definition __init__ (circuit : CircuitRepDQN) (device : DeviceTopology)
    (node_to_qubit qubit_targets circuit_progress locked_edges : option loc)
    : M heap CircuitStateDQN :=
  if decide (length circuit = n_nodes device) then
    ntq <- or_default node_to_qubit (allocate device circuit) ;;
    qt <- or_default qubit_targets
            ((fun targets => match targets with t0 :: _ => t0 | [] => -1 end) <$> circuit) ;;
    cp <- or_default circuit_progress (replicate (length circuit) 0) ;;
    le <- or_default locked_edges (replicate (length (edges device)) 0) ;;
    ret {| circuit := circuit; device := device;
           _node_to_qubit := ntq; _qubit_targets := qt;
           _circuit_progress := cp; _locked_edges := le |}
  else raise (AssertionError QubitCountMismatch).

(** The truth value of an element of a solution: booleans are 0 and 1. *)
Definition truthy (x : Z) : bool := negb (x =? 0).

Definition execute_swap (self : CircuitStateDQN) (solution : list Z)
    : M heap (list (Z * Z)) :=
  foldM (fun gates_being_executed '(edge, sol) =>
           if truthy sol then
             let '(node1, node2) := edge in
             v2 <- array_get (_node_to_qubit self) node2 ;;
             v1 <- array_get (_node_to_qubit self) node1 ;;
             array_set (_node_to_qubit self) node1 v2 ;;
             array_set (_node_to_qubit self) node2 v1 ;;
             ret (gates_being_executed ++ [edge])
           else ret gates_being_executed)
        (zip (edges (device self)) solution) [].

(** The body of the first loop of [execute_cnot], for the edge [(n1, n2)]. *)
Definition cnot_pass (self : CircuitStateDQN) (gates_being_executed : list (Z * Z))
    (edge : Z * Z) : M heap (list (Z * Z)) :=
  let '(n1, n2) := edge in
  q1 <- array_get (_node_to_qubit self) n1 ;;
  q2 <- array_get (_node_to_qubit self) n2 ;;
  t1 <- array_get (_qubit_targets self) q1 ;;
  if negb (t1 =? q2) then ret gates_being_executed
  else
    t2 <- array_get (_qubit_targets self) q2 ;;
    if negb (t2 =? q1) then ret gates_being_executed
    else
      array_iadd (_circuit_progress self) q1 1 ;;
      array_iadd (_circuit_progress self) q2 1 ;;
      ret (gates_being_executed ++ [(n1, n2)]).

(** The first loop of [execute_cnot]: the scan of the device edges. *)
Definition cnot_scan (self : CircuitStateDQN) : M heap (list (Z * Z)) :=
  foldM (cnot_pass self) (edges (device self)) [].

(** The body of the second loop of [execute_cnot], for the qubit [q]. *)
Definition retarget_pass (self : CircuitStateDQN) (q : Z) : M heap unit :=
  p <- array_get (_circuit_progress self) q ;;
  interactions <- lift_result (getitem (circuit self) q) ;;
  if p <? Z.of_nat (length interactions) then
    interactions' <- lift_result (getitem (circuit self) q) ;;
    p' <- array_get (_circuit_progress self) q ;;
    v <- lift_result (getitem interactions' p') ;;
    array_set (_qubit_targets self) q v
  else array_set (_qubit_targets self) q (-1).

(** The second loop of [execute_cnot]: the targets are read off again from
    the progress. *)
Definition update_targets (self : CircuitStateDQN) : M heap unit :=
  for_each (range (n_nodes (device self))) (retarget_pass self).

Definition execute_cnot (self : CircuitStateDQN) : M heap (list (Z * Z)) :=
  gates_being_executed <- cnot_scan self ;;
  update_targets self ;;
  ret gates_being_executed.

Definition is_done (self : CircuitStateDQN) : M heap bool :=
  qt <- deref (_qubit_targets self) ;;
  ret (forallb (fun t => t =? -1) qt).

(** Elementwise in-place [a += b] of numpy, [b] of the same length or of
    length one (broadcast); any other shape is a [ValueError]. *)
Definition iadd_arrays (a b : list Z) : result (list Z) :=
  if decide (length b = length a) then
    Ok (zip_with (fun x y => wrap64 (x + y)) a b)
  else match b with
       | [y] => Ok ((fun x => wrap64 (x + y)) <$> a)
       | _ => Raise ValueError
       end.

(** [update_locks(mask=None, multiplier=None)].  A mask is an array of
    booleans or integers; a mask without a multiplier multiplies an array
    by [None], a [TypeError].  A multiplier that is no 64-bit integer makes
    the product an array of another kind (unsigned, float or object), which
    [+=] refuses to put into the integer counters: numpy's
    [UFuncTypeError], a [TypeError], raised when the types are resolved,
    before the shapes are looked at and before anything is written. *)
Definition update_locks (self : CircuitStateDQN)
    (mask : option (list Z)) (multiplier : option Z) : M heap unit :=
  match mask with
  | None =>
      le <- deref (_locked_edges self) ;;
      assign (_locked_edges self) ((fun e => wrap64 (e - Z.b2z (0 <? e))) <$> le)
  | Some mask =>
      match multiplier with
      | None => raise TypeError
      | Some multiplier =>
          if decide (int64 multiplier) then
            le <- deref (_locked_edges self) ;;
            le' <- lift_result (iadd_arrays le ((fun m => wrap64 (m * multiplier)) <$> mask)) ;;
            assign (_locked_edges self) le'
          else raise TypeError
      end
  end.

(** The property [locked_edges]: a new boolean array. *)
Definition locked_edges (self : CircuitStateDQN) : M heap (list bool) :=
  le <- deref (_locked_edges self) ;;
  ret ((fun e => 0 <? e) <$> le).

Definition np_copy (l : loc) : M heap loc :=
  a <- deref l ;; alloc a.

Definition __copy__ (self : CircuitStateDQN) : M heap CircuitStateDQN :=
  ntq <- np_copy (_node_to_qubit self) ;;
  qt <- np_copy (_qubit_targets self) ;;
  cp <- np_copy (_circuit_progress self) ;;
  le <- np_copy (_locked_edges self) ;;
  __init__ (circuit self) (device self) (Some ntq) (Some qt) (Some cp) (Some le).

(** [np.array_equal]: same shape and same elements. *)
Definition array_equal (l1 l2 : loc) : M heap bool :=
  a1 <- deref l1 ;;
  a2 <- deref l2 ;;
  ret (bool_decide (a1 = a2)).

(** [x and y] on booleans, [y] evaluated only when [x] holds. *)
Definition and_then {S} (x : M S bool) (y : M S bool) : M S bool :=
  b <- x ;; if b then y else ret false.

Definition __eq__ (self other : CircuitStateDQN) : M heap bool :=
  and_then (array_equal (_node_to_qubit self) (_node_to_qubit other))
    (and_then (array_equal (_qubit_targets self) (_qubit_targets other))
      (and_then (array_equal (_circuit_progress self) (_circuit_progress other))
        (array_equal (_locked_edges self) (_locked_edges other)))).

(** The property [qubit_to_node]: the inverse of the node-to-qubit array,
    rebuilt at every call in a new array. *)
Definition qubit_to_node (self : CircuitStateDQN) : M heap (list Z) :=
  ntq <- deref (_node_to_qubit self) ;;
  foldM (fun qubit_to_node '(i, v) => lift_result (setitem qubit_to_node v i))
        (enumerate ntq) (replicate (length ntq) 0).

(** [self.device.distances[a, b]] *)
Definition getitem2 (d : list (list Z)) (a b : Z) : result Z :=
  match getitem d a with
  | Ok row => getitem row b
  | Raise e => Raise e
  end.

Definition target_nodes (self : CircuitStateDQN) : M heap (list Z) :=
  qubit_to_node <- qubit_to_node self ;;
  ntq <- deref (_node_to_qubit self) ;;
  qt <- deref (_qubit_targets self) ;;
  foldM (fun target_nodes '(i, v) =>
           if negb (v =? -1) then
             dst <- lift_result (getitem qubit_to_node v) ;;
             src <- lift_result (getitem qubit_to_node i) ;;
             lift_result (setitem target_nodes src dst)
           else ret target_nodes)
        (enumerate qt) (replicate (length ntq) (-1)).

Definition target_distance (self : CircuitStateDQN) : M heap (list Z) :=
  qubit_to_node <- qubit_to_node self ;;
  ntq <- deref (_node_to_qubit self) ;;
  qt <- deref (_qubit_targets self) ;;
  foldM (fun target_distances '(i, v) =>
           src <- lift_result (getitem qubit_to_node i) ;;
           dst <- lift_result (getitem qubit_to_node v) ;;
           d <- lift_result (getitem2 (distances (device self)) src dst) ;;
           lift_result (setitem target_distances i d))
        (enumerate qt) (replicate (length ntq) 0).

(** The property [remaining_targets].  The inverse of the mapping is built
    first, as in the other views, and not used. *)
Definition remaining_targets (self : CircuitStateDQN) : M heap (list Z) :=
  qubit_to_node <- qubit_to_node self ;;
  ntq <- deref (_node_to_qubit self) ;;
  cp <- deref (_circuit_progress self) ;;
  foldM (fun remaining_targets '(i, v) =>
           interactions <- lift_result (getitem (circuit self) i) ;;
           lift_result (setitem remaining_targets i
                          (wrap64 (Z.of_nat (length interactions) - v))))
        (enumerate cp) (replicate (length ntq) 0).

(** ** [engine.py]: the guard of [train_step] *)



(** ** [simanneal.py]: class [AnnealerDQN] *)

(** What a run of the search leaves behind besides its result: the draws
    taken from the random source and the calls it made. *)
Inductive event : Type :=
  | Iteration (temp : float)      (* the body of the [while] loop is entered *)
  | Neighbour                     (* a call of [get_neighbour_solution] *)
  | Energy (solution : list Z).   (* a call of [get_energy] *)

Record AWorld : Type := {
  store : heap;
  draws : nat;
  trace : list event;
}.

Definition on_store {A} (m : M heap A) : M AWorld A :=
  fun w => let '(r, h) := m (store w) in
           (r, {| store := h; draws := draws w; trace := trace w |}).

Definition log (e : event) : M AWorld unit :=
  modify (fun w => {| store := store w; draws := draws w; trace := trace w ++ [e] |}).

(** The random source of numpy: a tape of draws, read from left to right. *)
Record Tape : Type := {
  choices : nat -> nat;
  uniforms : nat -> float;
}.

Definition next_draw {A} (f : nat -> A) : M AWorld A :=
  fun w => (Ok (f (draws w)),
            {| store := store w; draws := S (draws w); trace := trace w |}).

(** The value returned with a solution: the tensor of the agent, or one of
    the two constants of the short-circuit. *)
Inductive energy (E : Type) : Type :=
  | NegInf
  | Zero
  | Tensor (e : E).
Arguments NegInf {E}.
Arguments Zero {E}.
Arguments Tensor {E} e.

(** What a method of a routing state can see of it: the two shared
    references and the contents of the four arrays. *)
Record StateView : Type := {
  view_circuit : CircuitRepDQN;
  view_device : DeviceTopology;
  view_node_to_qubit : list Z;
  view_qubit_targets : list Z;
  view_circuit_progress : list Z;
  view_locked_edges : list Z;
}.

Definition observe (s : CircuitStateDQN) : M heap StateView :=
  ntq <- deref (_node_to_qubit s) ;;
  qt <- deref (_qubit_targets s) ;;
  cp <- deref (_circuit_progress s) ;;
  le <- deref (_locked_edges s) ;;
  ret {| view_circuit := circuit s; view_device := device s;
         view_node_to_qubit := ntq; view_qubit_targets := qt;
         view_circuit_progress := cp; view_locked_edges := le |}.

Record AnnealerDQN : Type := {
  initial_temperature : float;
  min_temperature : float;
  cooling_multiplier : float;
  annealer_device : DeviceTopology;
}.

Set Warnings "-inexact-float".
Definition AnnealerDQN__init__ (device : DeviceTopology) : AnnealerDQN :=
  {| initial_temperature := 60.0%float;
     min_temperature := 0.1%float;
     cooling_multiplier := 0.95%float;
     annealer_device := device |}.
Set Warnings "+inexact-float".

(** [generate_forced_mask]: the edges with an endpoint among the protected
    nodes. *)
Definition generate_forced_mask (self : AnnealerDQN) (protected_nodes : list Z)
    : list bool :=
  (fun e => if bool_decide (fst e ∈ protected_nodes) || bool_decide (snd e ∈ protected_nodes)
            then true else false) <$> edges (annealer_device self).

Section Annealer.

(** The energies are tensors computed by the agent.  Their order and the
    exponential of [acceptance_probability] are operations of torch and of
    the C library. *)
Variable E : Type.
Variable E_ltb : E -> E -> bool.
(** [math.exp(-(new_energy - current_energy) / temperature)] *)
Variable exp_minus_diff_over : E -> E -> float -> float.

(** The energy oracle: [step(solution, current_state)] followed by the
    agent, on a disposable copy of the state ([environment/env.py] and the
    agent are not among the sources).  It reads the state and may fail. *)
Variable oracle : list Z -> StateView -> string -> result E.

(** The two attributes of the state that [simanneal.py] reads and
    [state.py] does not define: the indices of the edges that may still be
    flipped in a solution ([None] or a list), and the mask of the edges
    that must not be swapped. *)
Variable swappable_edges : StateView -> list Z -> option (list Z).
Variable protected_edges : StateView -> list bool.

Variable tape : Tape.

(** [np.random.choice(a)] *)
Definition random_choice (a : list Z) : M AWorld Z :=
  match a with
  | [] => raise ValueError
  | _ => k <- next_draw (choices tape) ;; ret (nth (k mod length a)%nat a 0)
  end.

(** [np.random.random()] *)
Definition random_random : M AWorld float := next_draw (uniforms tape).

(** [solution[i] = (solution[i] + 1) % 2] *)
Definition flip (solution : list Z) (i : Z) : result (list Z) :=
  match getitem solution i with
  | Ok x => setitem solution i ((x + 1) mod 2)
  | Raise e => Raise e
  end.

Definition no_edges (available_edges : option (list Z)) : bool :=
  match available_edges with
  | None => true
  | Some l => (length l =? 0)%nat
  end.

Definition generate_initial_solution (self : AnnealerDQN)
    (current_state : CircuitStateDQN) : M AWorld (list Z) :=
  let initial_solution := replicate (length (edges (annealer_device self))) 0 in
  view <- on_store (observe current_state) ;;
  let available_edges := swappable_edges view initial_solution in
  if no_edges available_edges then ret initial_solution
  else
    edge_index_to_swap <- random_choice (default [] available_edges) ;;
    lift_result (flip initial_solution edge_index_to_swap).

(** The first loop of [check_valid_solution]. *)
Fixpoint check_protected (solution : list Z) (forced_mask : list bool)
    (i : nat) (n : nat) : result unit :=
  match n with
  | O => Ok tt
  | S n' =>
      match getitem forced_mask (Z.of_nat i) with
      | Raise e => Raise e
      | Ok false => check_protected solution forced_mask (S i) n'
      | Ok true =>
          match getitem solution (Z.of_nat i) with
          | Raise e => Raise e
          | Ok s => if s =? 1 then Raise (RuntimeError ProtectedEdgeSwapped)
                    else check_protected solution forced_mask (S i) n'
          end
      end
  end.

(** [np.where(np.array(solution) == 1)[0]] *)
Definition where_one (solution : list Z) : list Z :=
  fst <$> filter (fun p => snd p = 1) (enumerate solution).

(** [[self.device.edges[index] for index in swap_edge_indices]] *)
Fixpoint edges_at (es : list (Z * Z)) (indices : list Z) : result (list (Z * Z)) :=
  match indices with
  | [] => Ok []
  | index :: rest =>
      match getitem es index with
      | Raise e => Raise e
      | Ok edge => match edges_at es rest with
                   | Raise e => Raise e
                   | Ok l => Ok (edge :: l)
                   end
      end
  end.

(** The loop over [swap_nodes] with the set [seen]. *)
Fixpoint check_seen (swap_edges : list (Z * Z)) (swap_nodes : list Z)
    (seen : gset Z) : result unit :=
  match swap_nodes with
  | [] => Ok tt
  | node :: rest =>
      if decide (node ∈ seen) then Raise (RuntimeError (NodeUsedTwice swap_edges))
      else check_seen swap_edges rest ({[node]} ∪ seen)
  end.

Definition check_valid_solution (self : AnnealerDQN)
    (solution : list Z) (forced_mask : list bool) : result unit :=
  match check_protected solution forced_mask 0 (length solution) with
  | Raise e => Raise e
  | Ok _ =>
      if existsb (fun s => s =? 1) solution then
        let swap_edge_indices := where_one solution in
        match edges_at (edges (annealer_device self)) swap_edge_indices with
        | Raise e => Raise e
        | Ok swap_edges =>
            let swap_nodes := flat_map (fun edge => [fst edge; snd edge]) swap_edges in
            check_seen swap_edges swap_nodes ∅
        end
      else Ok tt
  end.

Definition get_neighbour_solution (self : AnnealerDQN)
    (current_solution : list Z) (current_state : CircuitStateDQN)
    : M AWorld (list Z) :=
  log Neighbour ;;
  let neighbour_solution := current_solution in
  view <- on_store (observe current_state) ;;
  let available_edges := swappable_edges view neighbour_solution in
  if no_edges available_edges then raise (RuntimeError RanOutOfEdges)
  else
    edge_index_to_swap <- random_choice (default [] available_edges) ;;
    neighbour_solution <- lift_result (flip neighbour_solution edge_index_to_swap) ;;
    view' <- on_store (observe current_state) ;;
    lift_result (check_valid_solution self neighbour_solution (protected_edges view')) ;;
    ret neighbour_solution.

Definition get_energy (solution : list Z) (current_state : CircuitStateDQN)
    (action_chooser : string) : M AWorld E :=
  log (Energy solution) ;;
  view <- on_store (observe current_state) ;;
  lift_result (oracle solution view action_chooser).

Definition acceptance_probability (current_energy new_energy : E)
    (temperature : float) : float :=
  if E_ltb new_energy current_energy then 1%float
  else exp_minus_diff_over current_energy new_energy temperature.

(** The local variables of the [while] loop. *)
Record locals : Type := {
  temp : float;
  current_solution : list Z;
  current_energy : E;
  best_solution : list Z;
  best_energy : E;
  iterations_since_best : Z;
  iterations : Z;
}.

(** One pass through the body of the [while] loop. *)
Definition anneal_body (self : AnnealerDQN) (current_state : CircuitStateDQN)
    (action_chooser : string) (v : locals) : M AWorld locals :=
  log (Iteration (temp v)) ;;
  new_solution <- get_neighbour_solution self (current_solution v) current_state ;;
  new_energy <- get_energy new_solution current_state action_chooser ;;
  let accept_prob := acceptance_probability (current_energy v) new_energy (temp v) in
  u <- random_random ;;
  let v1 :=
    if ltb u accept_prob then
      if E_ltb new_energy (best_energy v) then
        {| temp := temp v; current_solution := new_solution; current_energy := new_energy;
           best_solution := new_solution; best_energy := new_energy;
           iterations_since_best := 0; iterations := iterations v |}
      else
        {| temp := temp v; current_solution := new_solution; current_energy := new_energy;
           best_solution := best_solution v; best_energy := best_energy v;
           iterations_since_best := iterations_since_best v; iterations := iterations v |}
    else v in
  ret {| temp := (temp v1 * cooling_multiplier self)%float;
         current_solution := current_solution v1; current_energy := current_energy v1;
         best_solution := best_solution v1; best_energy := best_energy v1;
         iterations_since_best := iterations_since_best v1 + 1;
         iterations := iterations v1 + 1 |}.

(** The [while] loop, its body run at most [fuel] times: [None] when the
    loop would go on after that. *)
Fixpoint anneal_loop (fuel : nat) (self : AnnealerDQN) (current_state : CircuitStateDQN)
    (action_chooser : string) (search_limit : option Z) (v : locals)
    : M AWorld (option locals) :=
  if ltb (min_temperature self) (temp v) then
    if match search_limit with
       | Some limit => limit <? iterations v
       | None => false
       end
    then ret (Some v)
    else match fuel with
         | O => ret None
         | S fuel' =>
             v' <- anneal_body self current_state action_chooser v ;;
             anneal_loop fuel' self current_state action_chooser search_limit v'
         end
  else ret (Some v).

(** [simulated_annealing] from the test of the initial solution on. *)
Definition search_from (fuel : nat) (self : AnnealerDQN)
    (current_state : CircuitStateDQN) (action_chooser : string)
    (search_limit : option Z) (current_solution : list Z)
    : M AWorld (option (list Z * energy E)) :=
  if forallb (fun s => s =? 0) current_solution then
    if String.eqb action_chooser "model" then ret (Some (current_solution, NegInf))
    else ret (Some (current_solution, Zero))
  else
    let temp := initial_temperature self in
    current_energy <- get_energy current_solution current_state action_chooser ;;
    v <- anneal_loop fuel self current_state action_chooser search_limit
           {| temp := temp; current_solution := current_solution;
              current_energy := current_energy;
              best_solution := current_solution; best_energy := current_energy;
              iterations_since_best := 0; iterations := 0 |} ;;
    ret ((fun v => (best_solution v, Tensor (best_energy v))) <$> v).

(** [simulated_annealing]; the result is [None] when [fuel] passes through
    the body of the loop are not enough to leave it. *)
Definition simulated_annealing (fuel : nat) (self : AnnealerDQN)
    (current_state : CircuitStateDQN) (action_chooser : string)
    (search_limit : option Z) : M AWorld (option (list Z * energy E)) :=
  temp_state <- on_store (__copy__ current_state) ;;
  current_solution <- generate_initial_solution self current_state ;;
  new_state <- on_store (__copy__ current_state) ;;
  same <- on_store (__eq__ temp_state new_state) ;;
  if negb same then raise (AssertionError StateNotPreserved)
  else search_from fuel self current_state action_chooser search_limit current_solution.

End Annealer.

(** ** Vocabulary of the properties *)

(** The array [a] holds every qubit [0 .. n-1] exactly once. *)
Definition is_permutation (n : nat) (a : list Z) : Prop := a ≡ₚ range n.

(** The edges a solution selects, in the order of the device. *)
Definition selected_edges (es : list (Z * Z)) (solution : list Z) : list (Z * Z) :=
  fst <$> filter (fun p => truthy (snd p) = true) (zip es solution).

Definition share_node (e1 e2 : Z * Z) : bool :=
  (fst e1 =? fst e2) || (fst e1 =? snd e2) || (snd e1 =? fst e2) || (snd e1 =? snd e2).

(** No node is an endpoint of two edges of the list. *)
Fixpoint vertex_disjoint (es : list (Z * Z)) : bool :=
  match es with
  | [] => true
  | e :: rest => forallb (fun e' => negb (share_node e e')) rest && vertex_disjoint rest
  end.

(** Both endpoints of every edge are nodes of a device with [n] nodes. *)
Definition edges_in_range (n : nat) (es : list (Z * Z)) : Prop :=
  Forall (fun e => (0 <= fst e < Z.of_nat n) /\ (0 <= snd e < Z.of_nat n)) es.


(** An array of booleans. *)
Definition boolean_array (a : list Z) : Prop := Forall (fun x => x = 0 \/ x = 1) a.


(** [a[i]] for an index known to be in range. *)
Definition item (a : list Z) (i : Z) : Z := a !!! Z.to_nat i.

(** [d[i, j]] for indices known to be in range. *)
Definition item2 (d : list (list Z)) (i j : Z) : Z := item (d !!! Z.to_nat i) j.

(** The two edges join the same pair of nodes. *)
Definition same_edge (e1 e2 : Z * Z) : bool :=
  ((fst e1 =? fst e2) && (snd e1 =? snd e2)) || ((fst e1 =? snd e2) && (snd e1 =? fst e2)).

(** The edge list of a simple graph: no loop, and no pair of nodes listed
    twice, in either direction. *)
Fixpoint simple_edges (es : list (Z * Z)) : bool :=
  match es with
  | [] => true
  | e :: rest =>
      negb (fst e =? snd e) && forallb (fun e' => negb (same_edge e e')) rest
      && simple_edges rest
  end.

(** The qubits at the two ends of the edge name each other as their next
    targets. *)
Definition mutual (a t : list Z) (e : Z * Z) : bool :=
  (item t (item a (fst e)) =? item a (snd e)) && (item t (item a (snd e)) =? item a (fst e)).

(** The qubits at the two ends of an edge. *)
Definition ends (a : list Z) (e : Z * Z) : list Z := [item a (fst e); item a (snd e)].

(** [p[q] += 1] as a function on arrays. *)
Definition bump (p : list Z) (q : Z) : list Z :=
  <[Z.to_nat q := wrap64 (item p q + 1)]> p.

(** The target that goes with progress [v] in a sequence of interactions. *)
Definition next_target (interactions : list Z) (v : Z) : Z :=
  if v <? Z.of_nat (length interactions) then item interactions v else -1.

(** What holds of the arrays [a] (node to qubit), [t] (targets) and [p]
    (progress) of a routing state between two steps, on a device that is a
    simple graph on the nodes [0 .. N-1]. *)
Record routing_invariant (self : CircuitStateDQN) (a t p : list Z) : Prop := {
  ri_permutation : is_permutation (n_nodes (device self)) a;
  ri_qubits : length (circuit self) = n_nodes (device self);
  ri_edges : edges_in_range (n_nodes (device self)) (edges (device self));
  ri_simple : simple_edges (edges (device self)) = true;
  ri_interactions :
    Forall (Forall (fun x => 0 <= x < Z.of_nat (n_nodes (device self)))) (circuit self);
  ri_progress :
    Forall2 (fun (interactions : list Z) v =>
               0 <= v <= Z.of_nat (length interactions) /\
               Z.of_nat (length interactions) < 2 ^ 63)
            (circuit self) p;
  ri_targets : t = zip_with next_target (circuit self) p;
}.

(** The four arrays a routing state owns. *)
Definition arrays_of (s : CircuitStateDQN) : list loc :=
  [_node_to_qubit s; _qubit_targets s; _circuit_progress s; _locked_edges s].

(** The operations that mutate a routing state. *)
Inductive state_op : Type :=
  | Swap (solution : list Z)
  | Cnot
  | UpdateLocks (mask : option (list Z)) (multiplier : option Z).

Definition run_op (s : CircuitStateDQN) (op : state_op) : M heap unit :=
  match op with
  | Swap solution => execute_swap s solution ;; ret tt
  | Cnot => execute_cnot s ;; ret tt
  | UpdateLocks mask multiplier => update_locks s mask multiplier
  end.

(** The store after a sequence of operations on [s], each of them run to
    its end or to its exception. *)
Definition run_ops (s : CircuitStateDQN) (ops : list state_op) (h : heap) : heap :=
  foldl (fun h op => snd (run_op s op h)) h ops.

(** A computation leaves every array outside [L] as it is. *)
Definition frames (L : list loc) {A} (m : M heap A) : Prop :=
  forall (h : heap) (l : loc), l ∉ L -> snd (m h) !! l = h !! l.

(** ** Examples: the devices of the scenarios *)

(** Three nodes on a path; qubit 0 has to meet qubit 2, qubit 1 has
    nothing to do. *)
Definition path_device : DeviceTopology :=
  {| edges := [(0, 1); (1, 2)];
     distances := [[0; 1; 2]; [1; 0; 1]; [2; 1; 0]];
     n_nodes := 3;
     allocate := fun _ => [0; 1; 2] |}.

Definition path_circuit : CircuitRepDQN := [[2]; []; [0]].

Definition path_state : CircuitStateDQN :=
  {| circuit := path_circuit; device := path_device;
     _node_to_qubit := 1%positive; _qubit_targets := 2%positive;
     _circuit_progress := 3%positive; _locked_edges := 4%positive |}.

Definition path_heap : heap :=
  <[1%positive := [0; 1; 2]]> (<[2%positive := [2; -1; 0]]>
  (<[3%positive := [0; 0; 0]]> (<[4%positive := [0; 0]]> ∅))).

(** The same state with the first edge locked for two more steps. *)
Definition locked_heap : heap := <[4%positive := [2; 0]]> path_heap.

(** Two nodes joined by one edge; the two qubits have to meet once. *)
Definition pair_device : DeviceTopology :=
  {| edges := [(0, 1)];
     distances := [[0; 1]; [1; 0]];
     n_nodes := 2;
     allocate := fun _ => [0; 1] |}.

Definition pair_circuit : CircuitRepDQN := [[1]; [0]].

Definition pair_state : CircuitStateDQN :=
  {| circuit := pair_circuit; device := pair_device;
     _node_to_qubit := 1%positive; _qubit_targets := 2%positive;
     _circuit_progress := 3%positive; _locked_edges := 4%positive |}.

Definition pair_heap : heap :=
  <[1%positive := [0; 1]]> (<[2%positive := [1; 0]]>
  (<[3%positive := [0; 0]]> (<[4%positive := [0]]> ∅))).

(** The pair after its one interaction: both qubits are done. *)
Definition pair_done_heap : heap :=
  <[1%positive := [0; 1]]> (<[2%positive := [-1; -1]]>
  (<[3%positive := [1; 1]]> (<[4%positive := [0]]> ∅))).

(** ** Vocabulary of the search *)

(** A solution is valid for a device and a mask of protected edges: it is
    an array of zeros and ones, no protected edge is selected, and no node
    is an endpoint of two selected edges. *)
Definition valid_solution (es : list (Z * Z)) (forced_mask : list bool)
    (solution : list Z) : Prop :=
  boolean_array solution /\
  (forall k, solution !! k = Some 1 -> forced_mask !! k = Some false) /\
  vertex_disjoint (selected_edges es solution) = true.

(** What the loop of the search keeps true of its variables: the current
    and the best solution are arrays of booleans and the best one is
    valid. *)
Definition candidates_valid {E} (es : list (Z * Z)) (forced_mask : list bool)
    (v : locals E) : Prop :=
  boolean_array (current_solution E v) /\
  boolean_array (best_solution E v) /\
  valid_solution es forced_mask (best_solution E v).

(** The energies the loop holds are the ones the oracle gave for the
    solutions it holds. *)
Definition energies_agree {E} (oracle : list Z -> StateView -> string -> result E)
    (view : StateView) (action_chooser : string) (v : locals E) : Prop :=
  oracle (current_solution E v) view action_chooser = Ok (current_energy E v) /\
  oracle (best_solution E v) view action_chooser = Ok (best_energy E v).

(** The temperatures at which the body of the loop was entered, in order. *)
Fixpoint iteration_temps (tr : list event) : list float :=
  match tr with
  | [] => []
  | Iteration temp :: tr' => temp :: iteration_temps tr'
  | _ :: tr' => iteration_temps tr'
  end.

(** The number of neighbours proposed. *)
Fixpoint neighbour_count (tr : list event) : nat :=
  match tr with
  | [] => 0
  | Neighbour :: tr' => S (neighbour_count tr')
  | _ :: tr' => neighbour_count tr'
  end.

(** The temperature after [k] coolings, in binary64 arithmetic. *)
Definition temperature_after (self : AnnealerDQN) (k : nat) : float :=
  Nat.iter k (fun temp => (temp * cooling_multiplier self)%float) (initial_temperature self).

(** The number of coolings after which the schedule of [AnnealerDQN] is
    cold. *)
Definition iteration_bound : nat := 125.

(** Every temperature of the list is below the one before it. *)
Definition strictly_decreasing (temps : list float) : Prop :=
  forall i x y, temps !! i = Some x -> temps !! S i = Some y -> ltb y x = true.

(** ** The search on the examples *)

(** Modelled from the spec: the method [swappable_edges] of a routing state
    is called by [simanneal.py] and defined nowhere in the sources.  The
    spec (4.3) makes an edge eligible to flip when the edge itself is not
    locked and neither of its nodes is committed to a different selected
    edge. *)
Definition swappable_edges_of (view : StateView) (solution : list Z) : option (list Z) :=
  let es := edges (view_device view) in
  let committed (i : Z) (e : Z * Z) : bool :=
    existsb (fun p => negb (fst p =? i) && truthy (snd (snd p)) && share_node e (fst (snd p)))
            (enumerate (zip es solution)) in
  let locked (i : Z) : bool :=
    match getitem (view_locked_edges view) i with
    | Ok counter => 0 <? counter
    | Raise _ => true
    end in
  Some (fst <$> filter (fun p => negb (locked (fst p)) && negb (committed (fst p) (snd p)) = true)
                       (enumerate es)).

(** Modelled from the spec: the attribute [protected_edges] of a routing
    state is read by [simanneal.py] and absent from [state.py].  The spec
    checks a solution against the locked set, the edges with a positive
    lock counter, which [state.py] has as the property [locked_edges]. *)
Definition protected_edges_of (view : StateView) : list bool :=
  (fun e => 0 <? e) <$> view_locked_edges view.

(** A random source that always draws the first choice and one half. *)
Definition constant_tape : Tape :=
  {| choices := fun _ => 0%nat; uniforms := fun _ => 0.5%float |}.

(** An energy oracle on integers: the number of swaps of the solution. *)
Definition swap_count_oracle (solution : list Z) (view : StateView) (chooser : string)
    : result Z :=
  Ok (foldr Z.add 0 solution).

Definition path_annealer : AnnealerDQN := AnnealerDQN__init__ path_device.

Definition path_world : AWorld := {| store := path_heap; draws := 0; trace := [] |}.

(** What the search sees of the state on the path. *)
Definition path_view : StateView :=
  {| view_circuit := path_circuit; view_device := path_device;
     view_node_to_qubit := [0; 1; 2]; view_qubit_targets := [2; -1; 0];
     view_circuit_progress := [0; 0; 0]; view_locked_edges := [0; 0] |}.

(** The path with both edges locked: no edge is eligible. *)
Definition all_locked_heap : heap := <[4%positive := [1; 3]]> path_heap.

Definition all_locked_world : AWorld :=
  {| store := all_locked_heap; draws := 0; trace := [] |}.









(** The search on the examples, with the unknowns filled in. *)
Definition example_search (fuel : nat) (search_limit : option Z) (w : AWorld)
    : result (option (list Z * energy Z)) * AWorld :=
  simulated_annealing Z Z.ltb (fun _ _ _ => 0%float) swap_count_oracle
    swappable_edges_of protected_edges_of constant_tape
    fuel path_annealer path_state "model" search_limit w.

(** * Properties *)

(** ** Running the primitives *)

Lemma np_index_Some (n : nat) (i : Z) (k : nat) :
  np_index n i = Some k ->
  (k < n)%nat /\ (Z.of_nat k = i \/ Z.of_nat k = Z.of_nat n + i).
Proof.
  unfold np_index. intros H.
  destruct ((0 <=? i) && (i <? Z.of_nat n)) eqn:E1.
  - apply andb_prop in E1 as [? ?]. inversion H; subst. lia.
  - destruct ((- Z.of_nat n <=? i) && (i <? 0)) eqn:E2; [|discriminate].
    apply andb_prop in E2 as [? ?]. inversion H; subst. lia.
Qed.

Lemma np_index_nonneg (n : nat) (i : Z) :
  0 <= i < Z.of_nat n -> np_index n i = Some (Z.to_nat i).
Proof.
  intros H. unfold np_index.
  replace (0 <=? i) with true by (symmetry; apply Z.leb_le; lia).
  replace (i <? Z.of_nat n) with true by (symmetry; apply Z.ltb_lt; lia).
  reflexivity.
Qed.

Lemma np_index_minus_one (n : nat) :
  (0 < n)%nat -> np_index n (-1) = Some (n - 1)%nat.
Proof.
  intros H. unfold np_index. simpl.
  replace (- Z.of_nat n <=? -1) with true by (symmetry; apply Z.leb_le; lia).
  simpl. f_equal. lia.
Qed.

Lemma getitem_Ok {A} (a : list A) (i : Z) (v : A) :
  getitem a i = Ok v <-> exists k, np_index (length a) i = Some k /\ a !! k = Some v.
Proof.
  unfold getitem. split.
  - destruct (np_index (length a) i) as [k|]; [|discriminate].
    destruct (a !! k) eqn:E; [|discriminate]. intros [= ->]. eauto.
  - intros (k & -> & ->). reflexivity.
Qed.

Lemma getitem_nonneg {A} (a : list A) (i : Z) :
  0 <= i < Z.of_nat (length a) ->
  exists v, getitem a i = Ok v /\ a !! Z.to_nat i = Some v.
Proof.
  intros H. unfold getitem. rewrite np_index_nonneg by done.
  destruct (lookup_lt_is_Some_2 a (Z.to_nat i)) as [v Hv]; [lia|].
  rewrite Hv. eauto.
Qed.

Lemma array_get_run (l : loc) (i : Z) (h : heap) (a : list Z) :
  h !! l = Some a -> array_get l i h = (getitem a i, h).
Proof. intros H. unfold array_get, bind, deref, lift_result. by rewrite H. Qed.

Lemma array_set_run (l : loc) (i v : Z) (h : heap) (a : list Z) :
  h !! l = Some a ->
  array_set l i v h =
    match np_index (length a) i with
    | Some k => (Ok tt, <[l := <[k := v]> a]> h)
    | None => (Raise IndexError, h)
    end.
Proof.
  intros H. unfold array_set, bind, deref, lift_result, setitem, assign.
  rewrite H. by destruct (np_index (length a) i).
Qed.

Lemma foldM_cons {S A B} (body : B -> A -> M S B) (x : A) (l : list A) (acc : B) (s : S) :
  foldM body (x :: l) acc s =
    match body acc x s with
    | (Ok acc', s') => foldM body l acc' s'
    | (Raise e, s') => (Raise e, s')
    end.
Proof. reflexivity. Qed.

(** A loop keeps what each pass through its body keeps. *)
Lemma foldM_invariant {S A B} (I : S -> Prop) (body : B -> A -> M S B)
    (l : list A) (acc : B) (s : S) :
  (forall acc x s, I s -> I (snd (body acc x s))) ->
  I s -> I (snd (foldM body l acc s)).
Proof.
  intros Hbody. revert acc s. induction l as [|x l IH]; intros acc s Hs; simpl; [done|].
  unfold bind. specialize (Hbody acc x s Hs).
  destruct (body acc x s) as [[acc'|e] s']; simpl in *; auto.
Qed.

(** ** C1: swaps keep the mapping a permutation *)

(** What one pass of the loop of [execute_swap] does to the array: the
    two entries are exchanged, whatever the outcome the array is a
    rearrangement of what it was, and the pass succeeds on nodes of the
    device. *)
Lemma swap_pass_run {B} (l : loc) (node1 node2 : Z) (x : B) (h : heap) (a : list Z) :
  h !! l = Some a ->
  let pass := (v2 <- array_get l node2 ;;
               v1 <- array_get l node1 ;;
               array_set l node1 v2 ;;
               array_set l node2 v1 ;;
               ret x) in
  (exists a', snd (pass h) !! l = Some a' /\ a' ≡ₚ a) /\
  (0 <= node1 < Z.of_nat (length a) -> 0 <= node2 < Z.of_nat (length a) ->
   fst (pass h) = Ok x).
Proof.
  intros Hl pass. unfold pass, bind.
  rewrite (array_get_run _ _ _ _ Hl).
  destruct (getitem a node2) as [v2|e] eqn:E2; simpl.
  2:{ split; [eauto|]. intros _ H2.
      destruct (getitem_nonneg a node2 H2) as (? & ? & _). congruence. }
  rewrite (array_get_run _ _ _ _ Hl).
  destruct (getitem a node1) as [v1|e] eqn:E1; simpl.
  2:{ split; [eauto|]. intros H1 _.
      destruct (getitem_nonneg a node1 H1) as (? & ? & _). congruence. }
  apply getitem_Ok in E1 as (k1 & Hk1 & Hv1).
  apply getitem_Ok in E2 as (k2 & Hk2 & Hv2).
  rewrite (array_set_run _ _ _ _ _ Hl), Hk1.
  rewrite (array_set_run _ _ _ _ (<[k1:=v2]> a)) by apply lookup_insert_eq.
  rewrite length_insert, Hk2. simpl. split; [|done].
  eexists. split; [apply lookup_insert_eq|].
  by apply Permutation_insert_swap.
Qed.

Lemma selected_edges_cons (e : Z * Z) (es : list (Z * Z)) (sol : Z) (solution : list Z) :
  selected_edges (e :: es) (sol :: solution) =
  if truthy sol then e :: selected_edges es solution else selected_edges es solution.
Proof.
  unfold selected_edges. simpl. rewrite filter_cons. simpl.
  destruct (truthy sol); by case_decide.
Qed.

Lemma is_permutation_length (n : nat) (a : list Z) :
  is_permutation n a -> length a = n.
Proof.
  intros H. rewrite H. unfold range. rewrite length_seqZ. lia.
Qed.

(** The loop of [execute_swap], from any point of its run. *)
Lemma execute_swap_loop (self : CircuitStateDQN) (n : nat) :
  forall (es : list (Z * Z)) (solution : list Z) (gates : list (Z * Z))
         (h : heap) (a : list Z),
  h !! _node_to_qubit self = Some a ->
  is_permutation n a ->
  let run := foldM (fun gates_being_executed '(edge, sol) =>
           if truthy sol then
             let '(node1, node2) := edge in
             v2 <- array_get (_node_to_qubit self) node2 ;;
             v1 <- array_get (_node_to_qubit self) node1 ;;
             array_set (_node_to_qubit self) node1 v2 ;;
             array_set (_node_to_qubit self) node2 v1 ;;
             ret (gates_being_executed ++ [edge])
           else ret gates_being_executed) (zip es solution) gates h in
  (exists a', snd run !! _node_to_qubit self = Some a' /\ is_permutation n a') /\
  (edges_in_range n es -> fst run = Ok (gates ++ selected_edges es solution)).
Proof.
  induction es as [|[node1 node2] es IH]; intros solution gates h a Hl Hp; cbn zeta.
  { split; [eauto|]. intros _. unfold selected_edges. simpl. by rewrite app_nil_r. }
  destruct solution as [|sol solution].
  { split; [eauto|]. intros _. unfold selected_edges. simpl. by rewrite app_nil_r. }
  change (zip ((node1, node2) :: es) (sol :: solution))
    with (((node1, node2), sol) :: zip es solution).
  rewrite foldM_cons, selected_edges_cons. cbn beta iota.
  destruct (truthy sol) eqn:Et.
  - destruct (swap_pass_run (_node_to_qubit self) node1 node2
                (gates ++ [(node1, node2)]) h a Hl) as [(a' & Ha' & Hperm) Hok].
    revert Ha' Hok.
    match goal with
    | |- context [match ?p with (r, s') => _ end] => destruct p as [[gates'|e] h']
    end; simpl; intros Ha' Hok.
    + assert (Hp' : is_permutation n a') by (unfold is_permutation in *; by rewrite Hperm).
      destruct (IH solution gates' h' a' Ha' Hp') as [IH1 IH2].
      split; [exact IH1|]. intros Hr. inversion Hr as [|? ? [H1 H2] Hr']; subst.
      rewrite (is_permutation_length _ _ Hp) in Hok.
      specialize (Hok H1 H2). inversion Hok; subst.
      rewrite IH2 by done. by rewrite <- app_assoc.
    + split.
      * exists a'. split; [done|]. unfold is_permutation in *. by rewrite Hperm.
      * intros Hr. inversion Hr as [|? ? [H1 H2] Hr']; subst.
        rewrite (is_permutation_length _ _ Hp) in Hok.
        specialize (Hok H1 H2). discriminate.
  - simpl. destruct (IH solution gates h a Hl Hp) as [IH1 IH2].
    split; [exact IH1|]. intros Hr. inversion Hr; subst. by apply IH2.
Qed.

(** C1.  In a routing state whose node-to-qubit array is a permutation of
    the qubits [0 .. N-1], for a solution whose selected edges are
    vertex-disjoint, the array is a permutation of [0 .. N-1] after
    [execute_swap] again (whatever the outcome of the call); and on a
    device whose edges join nodes [0 .. N-1] the call returns, with the
    selected edges as its trace. *)
Theorem execute_swap_keeps_permutation
    (self : CircuitStateDQN) (solution : list Z) (h : heap) (a : list Z) :
  h !! _node_to_qubit self = Some a ->
  is_permutation (n_nodes (device self)) a ->
  vertex_disjoint (selected_edges (edges (device self)) solution) = true ->
  (exists a', snd (execute_swap self solution h) !! _node_to_qubit self = Some a' /\
              is_permutation (n_nodes (device self)) a') /\
  (edges_in_range (n_nodes (device self)) (edges (device self)) ->
   fst (execute_swap self solution h) = Ok (selected_edges (edges (device self)) solution)).
Proof.
  intros Hl Hp _.
  exact (execute_swap_loop self _ (edges (device self)) solution [] h a Hl Hp).
Qed.

Lemma execute_swap_keeps_permutation_witness :
  (exists a', snd (execute_swap path_state [1; 0] path_heap) !! 1%positive = Some a' /\
              is_permutation 3 a') /\
  (edges_in_range 3 [(0, 1); (1, 2)] ->
   fst (execute_swap path_state [1; 0] path_heap) = Ok [(0, 1)]).
Proof.
  apply (execute_swap_keeps_permutation path_state [1; 0] path_heap [0; 1; 2]).
  - reflexivity.
  - vm_compute. reflexivity.
  - reflexivity.
Defined.

(** ** C9: the decay of the locks *)

Lemma wrap64_id (z : Z) : int64 z -> wrap64 z = z.
Proof. unfold int64, wrap64. intros H. rewrite Z.mod_small; lia. Qed.

Lemma deref_run (l : loc) (h : heap) (a : list Z) :
  h !! l = Some a -> deref l h = (Ok a, h).
Proof. intros H. unfold deref. by rewrite H. Qed.

(** C9.  [update_locks] without a mask takes one off every positive lock
    counter and leaves the others: a lock counter [e] (counters are never
    negative) becomes [max (e - 1) 0], a positive counter goes down by
    exactly one, no counter becomes negative, and a vector of zeros is left
    as it is. *)
Theorem update_locks_decay
    (self : CircuitStateDQN) (multiplier : option Z) (h : heap) (le : list Z) :
  h !! _locked_edges self = Some le ->
  Forall int64 le ->
  let le' := (fun e => if 0 <? e then e - 1 else e) <$> le in
  update_locks self None multiplier h = (Ok tt, <[_locked_edges self := le']> h) /\
  (forall i e, le !! i = Some e -> 0 <= e -> le' !! i = Some (Z.max (e - 1) 0)) /\
  (forall i e, le !! i = Some e -> 0 < e -> le' !! i = Some (e - 1)) /\
  (Forall (fun e => 0 <= e) le -> Forall (fun e => 0 <= e) le') /\
  (Forall (fun e => e = 0) le ->
   le' = le /\ update_locks self None multiplier h = (Ok tt, h)).
Proof.
  intros Hl Hle le'.
  assert (Hmap : (fun e => wrap64 (e - Z.b2z (0 <? e))) <$> le = le').
  { unfold le'. apply Forall_fmap_ext_1. eapply Forall_impl; [exact Hle|].
    intros e He. unfold int64 in He. simpl. destruct (Z.ltb_spec 0 e); simpl.
    - apply wrap64_id. unfold int64. lia.
    - rewrite Z.sub_0_r. by apply wrap64_id. }
  assert (Hrun : update_locks self None multiplier h
                 = (Ok tt, <[_locked_edges self := le']> h)).
  { unfold update_locks, bind. rewrite (deref_run _ _ _ Hl).
    unfold assign. by rewrite Hmap. }
  split; [exact Hrun|]. split; [|split; [|split]].
  - intros i e Hi He. unfold le'. rewrite list_lookup_fmap, Hi. simpl. f_equal.
    destruct (Z.ltb_spec 0 e); lia.
  - intros i e Hi He. unfold le'. rewrite list_lookup_fmap, Hi. simpl. f_equal.
    destruct (Z.ltb_spec 0 e); lia.
  - intros Hpos. unfold le'. apply Forall_fmap. eapply Forall_impl; [exact Hpos|].
    intros e He. cbv beta in He. simpl. destruct (Z.ltb_spec 0 e); lia.
  - intros Hz.
    assert (Hle' : le' = le).
    { unfold le'. rewrite <- (list_fmap_id le) at 2. apply Forall_fmap_ext_1.
      eapply Forall_impl; [exact Hz|]. intros e ->. reflexivity. }
    split; [exact Hle'|]. rewrite Hrun, Hle'. f_equal. by apply insert_id.
Qed.

Lemma update_locks_decay_witness :
  let le' := (fun e => if 0 <? e then e - 1 else e) <$> [2; 0] in
  update_locks path_state None None locked_heap = (Ok tt, <[4%positive := le']> locked_heap) /\
  (forall i e, [2; 0] !! i = Some e -> 0 <= e -> le' !! i = Some (Z.max (e - 1) 0)) /\
  (forall i e, [2; 0] !! i = Some e -> 0 < e -> le' !! i = Some (e - 1)) /\
  (Forall (fun e => 0 <= e) [2; 0] -> Forall (fun e => 0 <= e) le') /\
  (Forall (fun e => e = 0) [2; 0] ->
   le' = [2; 0] /\ update_locks path_state None None locked_heap = (Ok tt, locked_heap)).
Proof.
  apply (update_locks_decay path_state None locked_heap [2; 0]).
  - reflexivity.
  - repeat (apply Forall_cons_2; [by vm_compute|]). apply Forall_nil_2.
Defined.

(** ** C8: a copy is equal to its original and independent of it *)

Lemma frames_ret {A} (L : list loc) (a : A) : frames L (ret a).
Proof. by intros h l _. Qed.

Lemma frames_raise {A} (L : list loc) (e : exn) : frames L (raise e : M heap A).
Proof. by intros h l _. Qed.

Lemma frames_lift_result {A} (L : list loc) (r : result A) : frames L (lift_result r).
Proof. by intros h l _. Qed.

Lemma frames_deref (L : list loc) (l : loc) : frames L (deref l).
Proof. intros h l' _. unfold deref. by destruct (h !! l). Qed.

Lemma frames_assign (L : list loc) (l : loc) (a : list Z) :
  l ∈ L -> frames L (assign l a).
Proof.
  intros Hl h l' Hl'. unfold assign. simpl.
  apply lookup_insert_ne. intros ->. contradiction.
Qed.

Lemma frames_bind {A B} (L : list loc) (m : M heap A) (k : A -> M heap B) :
  frames L m -> (forall a, frames L (k a)) -> frames L (bind m k).
Proof.
  intros Hm Hk h l Hl. unfold bind. specialize (Hm h l Hl).
  destruct (m h) as [[a|e] h']; simpl in *; [|done].
  by rewrite (Hk a h' l Hl).
Qed.

Lemma frames_array_get (L : list loc) (l : loc) (i : Z) : frames L (array_get l i).
Proof.
  apply frames_bind; [apply frames_deref|]. intros a. apply frames_lift_result.
Qed.

Lemma frames_array_set (L : list loc) (l : loc) (i v : Z) :
  l ∈ L -> frames L (array_set l i v).
Proof.
  intros Hl. apply frames_bind; [apply frames_deref|]. intros a.
  apply frames_bind; [apply frames_lift_result|]. intros a'. by apply frames_assign.
Qed.

Lemma frames_array_iadd (L : list loc) (l : loc) (i d : Z) :
  l ∈ L -> frames L (array_iadd l i d).
Proof.
  intros Hl. apply frames_bind; [apply frames_array_get|]. intros v.
  by apply frames_array_set.
Qed.

Lemma frames_foldM {A B} (L : list loc) (body : B -> A -> M heap B)
    (xs : list A) (acc : B) :
  (forall acc x, frames L (body acc x)) -> frames L (foldM body xs acc).
Proof.
  intros Hbody. revert acc. induction xs as [|x xs IH]; intros acc; simpl.
  - apply frames_ret.
  - apply frames_bind; [apply Hbody|]. intros acc'. apply IH.
Qed.

Lemma frames_for_each {A} (L : list loc) (xs : list A) (body : A -> M heap unit) :
  (forall x, frames L (body x)) -> frames L (for_each xs body).
Proof.
  intros Hbody. induction xs as [|x xs IH]; simpl.
  - apply frames_ret.
  - apply frames_bind; [apply Hbody|]. intros _. apply IH.
Qed.

Create HintDb frames.
#[local] Hint Resolve frames_ret frames_raise frames_lift_result frames_deref
  frames_array_get : frames.

Ltac frames_solve :=
  lazymatch goal with
  | |- frames _ (bind _ _) => apply frames_bind; [frames_solve | intros ?; frames_solve]
  | |- frames _ (if ?b then _ else _) => destruct b; frames_solve
  | |- frames _ (array_set _ _ _) => apply frames_array_set; assumption
  | |- frames _ (array_iadd _ _ _) => apply frames_array_iadd; assumption
  | |- frames _ (assign _ _) => apply frames_assign; assumption
  | |- _ => auto with frames
  end.

Lemma arrays_of_elem (s : CircuitStateDQN) :
  _node_to_qubit s ∈ arrays_of s /\ _qubit_targets s ∈ arrays_of s /\
  _circuit_progress s ∈ arrays_of s /\ _locked_edges s ∈ arrays_of s.
Proof. unfold arrays_of. repeat split; set_solver. Qed.

Lemma frames_execute_swap (s : CircuitStateDQN) (solution : list Z) :
  frames (arrays_of s) (execute_swap s solution).
Proof.
  destruct (arrays_of_elem s) as (H1 & _).
  unfold execute_swap. apply frames_foldM. intros acc [[node1 node2] sol].
  frames_solve.
Qed.

Lemma frames_execute_cnot (s : CircuitStateDQN) :
  frames (arrays_of s) (execute_cnot s).
Proof.
  destruct (arrays_of_elem s) as (H1 & H2 & H3 & _).
  unfold execute_cnot. apply frames_bind; [|intros gates; apply frames_bind].
  - unfold cnot_scan. apply frames_foldM. intros acc [n1 n2].
    unfold cnot_pass. frames_solve.
  - unfold update_targets. apply frames_for_each. intros q.
    unfold retarget_pass. frames_solve.
  - intros _. apply frames_ret.
Qed.

Lemma frames_update_locks (s : CircuitStateDQN)
    (mask : option (list Z)) (multiplier : option Z) :
  frames (arrays_of s) (update_locks s mask multiplier).
Proof.
  destruct (arrays_of_elem s) as (_ & _ & _ & H4).
  unfold update_locks. destruct mask as [mask|]; [destruct multiplier as [k|]|];
    frames_solve.
Qed.

Lemma frames_run_op (s : CircuitStateDQN) (op : state_op) :
  frames (arrays_of s) (run_op s op).
Proof.
  destruct op as [solution| |mask multiplier]; simpl.
  - apply frames_bind; [apply frames_execute_swap|]. intros _. apply frames_ret.
  - apply frames_bind; [apply frames_execute_cnot|]. intros _. apply frames_ret.
  - apply frames_update_locks.
Qed.

Lemma run_ops_frame (s : CircuitStateDQN) (ops : list state_op) (h : heap) (l : loc) :
  l ∉ arrays_of s -> run_ops s ops h !! l = h !! l.
Proof.
  intros Hl. unfold run_ops. revert h. induction ops as [|op ops IH]; intros h; simpl; [done|].
  rewrite IH. by apply frames_run_op.
Qed.

Lemma np_copy_run (l : loc) (h : heap) (a : list Z) :
  h !! l = Some a ->
  exists l', np_copy l h = (Ok l', <[l' := a]> h) /\ h !! l' = None.
Proof.
  intros Hl. exists (fresh (dom h)). split.
  - unfold np_copy, bind. by rewrite (deref_run _ _ _ Hl).
  - apply not_elem_of_dom. apply is_fresh.
Qed.

(** [__eq__] looks at the four arrays and at nothing else. *)
Lemma eq_compares_arrays (s1 s2 : CircuitStateDQN) (h : heap) :
  Forall (fun l => is_Some (h !! l)) (arrays_of s1 ++ arrays_of s2) ->
  exists b, __eq__ s1 s2 h = (Ok b, h) /\
    (b = true <->
     h !! _node_to_qubit s1 = h !! _node_to_qubit s2 /\
     h !! _qubit_targets s1 = h !! _qubit_targets s2 /\
     h !! _circuit_progress s1 = h !! _circuit_progress s2 /\
     h !! _locked_edges s1 = h !! _locked_edges s2).
Proof.
  intros Hall. unfold arrays_of in Hall. simpl in Hall.
  rewrite !Forall_cons in Hall.
  destruct Hall as ([a1 Ha1] & [a2 Ha2] & [a3 Ha3] & [a4 Ha4] &
                    [b1 Hb1] & [b2 Hb2] & [b3 Hb3] & [b4 Hb4] & _).
  unfold __eq__, and_then, array_equal, bind, ret.
  rewrite !(deref_run _ _ _ Ha1), !(deref_run _ _ _ Hb1).
  rewrite Ha1, Ha2, Ha3, Ha4, Hb1, Hb2, Hb3, Hb4.
  destruct (bool_decide_reflect (a1 = b1)) as [->|N1].
  2:{ exists false. split; [done|]. split; [done|]. intros ([= ?] & _). done. }
  rewrite !(deref_run _ _ _ Ha2), !(deref_run _ _ _ Hb2).
  destruct (bool_decide_reflect (a2 = b2)) as [->|N2].
  2:{ exists false. split; [done|]. split; [done|]. intros (_ & [= ?] & _). done. }
  rewrite !(deref_run _ _ _ Ha3), !(deref_run _ _ _ Hb3).
  destruct (bool_decide_reflect (a3 = b3)) as [->|N3].
  2:{ exists false. split; [done|]. split; [done|]. intros (_ & _ & [= ?] & _). done. }
  rewrite !(deref_run _ _ _ Ha4), !(deref_run _ _ _ Hb4).
  destruct (bool_decide_reflect (a4 = b4)) as [->|N4].
  2:{ exists false. split; [done|]. split; [done|]. intros (_ & _ & _ & [= ?]). done. }
  exists true. done.
Qed.

(** [__copy__] builds four new arrays with the contents of the old ones and
    leaves every array of the store as it is. *)
Lemma copy_run (self : CircuitStateDQN) (h : heap) :
  length (circuit self) = n_nodes (device self) ->
  Forall (fun l => is_Some (h !! l)) (arrays_of self) ->
  exists copy h', __copy__ self h = (Ok copy, h') /\
    circuit copy = circuit self /\ device copy = device self /\
    h ⊆ h' /\
    Forall (fun l => h !! l = None) (arrays_of copy) /\
    h' !! _node_to_qubit copy = h !! _node_to_qubit self /\
    h' !! _qubit_targets copy = h !! _qubit_targets self /\
    h' !! _circuit_progress copy = h !! _circuit_progress self /\
    h' !! _locked_edges copy = h !! _locked_edges self.
Proof.
  intros Hlen Hall. unfold arrays_of in Hall. rewrite !Forall_cons in Hall.
  destruct Hall as ([a1 Ha1] & [a2 Ha2] & [a3 Ha3] & [a4 Ha4] & _).
  destruct (np_copy_run _ h a1 Ha1) as (l1 & E1 & F1).
  set (h1 := <[l1 := a1]> h) in *.
  assert (S1 : h ⊆ h1) by (by apply insert_subseteq).
  destruct (np_copy_run (_qubit_targets self) h1 a2) as (l2 & E2 & F2);
    [by eapply lookup_weaken|].
  set (h2 := <[l2 := a2]> h1) in *.
  assert (S2 : h1 ⊆ h2) by (by apply insert_subseteq).
  destruct (np_copy_run (_circuit_progress self) h2 a3) as (l3 & E3 & F3);
    [eapply lookup_weaken; [|exact S2]; by eapply lookup_weaken|].
  set (h3 := <[l3 := a3]> h2) in *.
  assert (S3 : h2 ⊆ h3) by (by apply insert_subseteq).
  destruct (np_copy_run (_locked_edges self) h3 a4) as (l4 & E4 & F4).
  { eapply lookup_weaken; [|exact S3]. eapply lookup_weaken; [|exact S2].
    by eapply lookup_weaken. }
  set (h4 := <[l4 := a4]> h3) in *.
  assert (S4 : h3 ⊆ h4) by (by apply insert_subseteq).
  assert (G1 : h1 !! l1 = Some a1) by apply lookup_insert_eq.
  assert (G2 : h2 !! l2 = Some a2) by apply lookup_insert_eq.
  assert (G3 : h3 !! l3 = Some a3) by apply lookup_insert_eq.
  assert (G4 : h4 !! l4 = Some a4) by apply lookup_insert_eq.
  assert (None_sub : forall (g g' : heap) l, g ⊆ g' -> g' !! l = None -> g !! l = None).
  { intros g g' l Hg Hn. destruct (g !! l) eqn:E; [|done].
    rewrite (lookup_weaken _ _ _ _ E Hg) in Hn. done. }
  exists {| circuit := circuit self; device := device self;
            _node_to_qubit := l1; _qubit_targets := l2;
            _circuit_progress := l3; _locked_edges := l4 |}, h4.
  split.
  { unfold __copy__, bind. rewrite E1, E2, E3, E4.
    unfold __init__. rewrite decide_True by done. reflexivity. }
  split; [done|]. split; [done|].
  assert (S24 : h2 ⊆ h4) by (by transitivity h3).
  assert (S14 : h1 ⊆ h4) by (by transitivity h2).
  assert (S : h ⊆ h4) by (by transitivity h1).
  split; [exact S|]. simpl. split.
  { unfold arrays_of. simpl. repeat apply Forall_cons_2; [| | | |apply Forall_nil_2].
    - done.
    - by apply (None_sub h h1).
    - apply (None_sub h h1); [done|]. by apply (None_sub h1 h2).
    - apply (None_sub h h1); [done|]. apply (None_sub h1 h2); [done|].
      by apply (None_sub h2 h3). }
  rewrite Ha1, Ha2, Ha3, Ha4.
  split; [|split; [|split]].
  - by eapply lookup_weaken.
  - by eapply lookup_weaken.
  - by eapply lookup_weaken.
  - done.
Qed.

(** C8.  [__copy__] returns a state that [__eq__] finds equal to the
    original, [__eq__] being decided by the contents of the four arrays
    [node_to_qubit], [qubit_targets], [circuit_progress], [locked_edges]
    alone (circuit and device are shared by the copy and never compared);
    and whatever sequence of [execute_swap], [execute_cnot] and
    [update_locks] is then run on the copy, the four arrays of the original
    stay as they were. *)
Theorem copy_equal_and_independent (self : CircuitStateDQN) (h : heap) :
  length (circuit self) = n_nodes (device self) ->
  Forall (fun l => is_Some (h !! l)) (arrays_of self) ->
  (exists copy h', __copy__ self h = (Ok copy, h') /\
     circuit copy = circuit self /\ device copy = device self /\
     __eq__ self copy h' = (Ok true, h') /\
     (forall ops l, l ∈ arrays_of self -> run_ops copy ops h' !! l = h !! l)) /\
  (forall (s1 s2 : CircuitStateDQN) (g : heap),
     Forall (fun l => is_Some (g !! l)) (arrays_of s1 ++ arrays_of s2) ->
     exists b, __eq__ s1 s2 g = (Ok b, g) /\
       (b = true <->
        g !! _node_to_qubit s1 = g !! _node_to_qubit s2 /\
        g !! _qubit_targets s1 = g !! _qubit_targets s2 /\
        g !! _circuit_progress s1 = g !! _circuit_progress s2 /\
        g !! _locked_edges s1 = g !! _locked_edges s2)).
Proof.
  intros Hlen Hall. split; [|intros s1 s2 g; apply eq_compares_arrays].
  destruct (copy_run self h Hlen Hall)
    as (copy & h' & Hrun & Hc & Hd & Hsub & Hfresh & C1 & C2 & C3 & C4).
  exists copy, h'. split; [exact Hrun|]. split; [exact Hc|]. split; [exact Hd|].
  assert (Hkeep : forall l, l ∈ arrays_of self -> h' !! l = h !! l).
  { intros l Hl. rewrite Forall_forall in Hall. destruct (Hall l Hl) as [a Ha].
    rewrite Ha. by eapply lookup_weaken. }
  assert (Hself : forall l, l ∈ arrays_of self -> l ∉ arrays_of copy).
  { intros l Hl Hl'. rewrite Forall_forall in Hall, Hfresh.
    destruct (Hall l Hl) as [a Ha]. rewrite (Hfresh l Hl') in Ha. done. }
  split.
  - destruct (eq_compares_arrays self copy h') as (b & Hb & Hiff).
    { apply Forall_app. split; apply Forall_forall; intros l Hl.
      - rewrite (Hkeep l Hl). rewrite Forall_forall in Hall. by apply Hall.
      - unfold arrays_of in Hl. rewrite Forall_forall in Hall.
        destruct (arrays_of_elem self) as (I1 & I2 & I3 & I4).
        rewrite !elem_of_cons in Hl.
        destruct Hl as [->|[->|[->|[->|Hl]]]];
          [rewrite C1|rewrite C2|rewrite C3|rewrite C4|by apply elem_of_nil in Hl];
          by apply Hall. }
    rewrite Hb. f_equal. f_equal. apply Hiff.
    destruct (arrays_of_elem self) as (I1 & I2 & I3 & I4).
    rewrite C1, C2, C3, C4. rewrite !Hkeep by done. done.
  - intros ops l Hl. rewrite run_ops_frame by by apply Hself. by apply Hkeep.
Qed.

Lemma copy_equal_and_independent_witness :
  (exists copy h', __copy__ path_state path_heap = (Ok copy, h') /\
     circuit copy = path_circuit /\ device copy = path_device /\
     __eq__ path_state copy h' = (Ok true, h') /\
     (forall ops l, l ∈ arrays_of path_state ->
        run_ops copy ops h' !! l = path_heap !! l)) /\
  (forall (s1 s2 : CircuitStateDQN) (g : heap),
     Forall (fun l => is_Some (g !! l)) (arrays_of s1 ++ arrays_of s2) ->
     exists b, __eq__ s1 s2 g = (Ok b, g) /\
       (b = true <->
        g !! _node_to_qubit s1 = g !! _node_to_qubit s2 /\
        g !! _qubit_targets s1 = g !! _qubit_targets s2 /\
        g !! _circuit_progress s1 = g !! _circuit_progress s2 /\
        g !! _locked_edges s1 = g !! _locked_edges s2)).
Proof.
  apply (copy_equal_and_independent path_state path_heap).
  - reflexivity.
  - repeat (apply Forall_cons_2; [eexists; reflexivity|]). apply Forall_nil_2.
Defined.

(** ** C2: the interactions that fire *)

Lemma item_lookup (a : list Z) (i : Z) :
  0 <= i < Z.of_nat (length a) -> a !! Z.to_nat i = Some (item a i).
Proof. intros H. unfold item. apply list_lookup_lookup_total_lt. lia. Qed.

Lemma getitem_item (a : list Z) (i : Z) :
  0 <= i < Z.of_nat (length a) -> getitem a i = Ok (item a i).
Proof.
  intros H. unfold getitem. rewrite np_index_nonneg by done.
  by rewrite item_lookup.
Qed.

Lemma array_iadd_run (l : loc) (q d : Z) (h : heap) (p : list Z) :
  h !! l = Some p -> 0 <= q < Z.of_nat (length p) ->
  array_iadd l q d h = (Ok tt, <[l := <[Z.to_nat q := wrap64 (item p q + d)]> p]> h).
Proof.
  intros Hl Hq. unfold array_iadd, bind.
  rewrite (array_get_run _ _ _ _ Hl), getitem_item by done.
  by rewrite (array_set_run _ _ _ _ _ Hl), np_index_nonneg by done.
Qed.

Lemma bump_length (p : list Z) (q : Z) : length (bump p q) = length p.
Proof. unfold bump. apply length_insert. Qed.

Lemma foldl_bump_length (qs : list Z) (p : list Z) :
  length (foldl bump p qs) = length p.
Proof.
  revert p. induction qs as [|q qs IH]; intros p; simpl; [done|].
  by rewrite IH, bump_length.
Qed.

(** Qubits that are bumped once each move up by one, the others stay. *)
Lemma foldl_bump_item (qs : list Z) (p : list Z) (q : Z) :
  NoDup qs ->
  Forall (fun q' => 0 <= q' < Z.of_nat (length p) /\ int64 (item p q' + 1)) qs ->
  0 <= q ->
  item (foldl bump p qs) q = if decide (q ∈ qs) then item p q + 1 else item p q.
Proof.
  revert p. induction qs as [|q' qs IH]; intros p Hnd Hqs Hq; simpl.
  { done. }
  apply NoDup_cons in Hnd as [Hnotin Hnd].
  apply Forall_cons in Hqs as [[Hq' Hint] Hqs].
  assert (Hother : forall x, 0 <= x -> x <> q' -> item (bump p q') x = item p x).
  { intros x Hx Hne. unfold item, bump.
    rewrite list_lookup_total_insert_ne; [done|]. lia. }
  assert (Hsame : item (bump p q') q' = item p q' + 1).
  { unfold item at 1. unfold bump.
    rewrite list_lookup_total_insert_eq by lia. by apply wrap64_id. }
  rewrite IH; [|done| |done].
  2:{ rewrite bump_length. apply Forall_forall. intros x Hx.
      rewrite Forall_forall in Hqs. destruct (Hqs x Hx) as [Hr Hi].
      split; [done|]. rewrite Hother; [done|lia|]. intros ->. contradiction. }
  destruct (decide (q = q')) as [->|Hne].
  - rewrite decide_False by done. rewrite decide_True by left. exact Hsame.
  - rewrite Hother by done.
    destruct (decide (q ∈ qs)) as [Hin|Hnin].
    + rewrite decide_True; [done|]. by right.
    + rewrite decide_False; [done|]. rewrite elem_of_cons. tauto.
Qed.

Lemma elem_of_range (n : nat) (x : Z) : x ∈ range n <-> 0 <= x < Z.of_nat n.
Proof. unfold range. rewrite elem_of_seqZ. lia. Qed.

Lemma permutation_item_range (n : nat) (a : list Z) (i : Z) :
  is_permutation n a -> 0 <= i < Z.of_nat n -> 0 <= item a i < Z.of_nat n.
Proof.
  intros Hp Hi. apply elem_of_range. rewrite <- Hp.
  apply list_elem_of_lookup. exists (Z.to_nat i). apply item_lookup.
  by rewrite (is_permutation_length _ _ Hp).
Qed.

Lemma permutation_item_inj (n : nat) (a : list Z) (i j : Z) :
  is_permutation n a -> 0 <= i < Z.of_nat n -> 0 <= j < Z.of_nat n ->
  item a i = item a j -> i = j.
Proof.
  intros Hp Hi Hj Heq.
  assert (Hnd : NoDup a) by (rewrite Hp; apply NoDup_seqZ).
  assert (Hlen := is_permutation_length _ _ Hp).
  assert (Z.to_nat i = Z.to_nat j); [|lia].
  eapply NoDup_lookup; [exact Hnd| |].
  - apply item_lookup. lia.
  - rewrite Heq. apply item_lookup. lia.
Qed.

Section ExecuteCnot.

Variable self : CircuitStateDQN.
Variables a t : list Z.

Local Abbreviation N := (n_nodes (device self)).
Local Abbreviation ntq := (_node_to_qubit self).
Local Abbreviation qt := (_qubit_targets self).
Local Abbreviation cp := (_circuit_progress self).

Hypothesis Hdistinct : NoDup [ntq; qt; cp].
Hypothesis Hperm : is_permutation N a.
Hypothesis Htlen : length t = N.

Lemma cnot_distinct : ntq <> cp /\ qt <> cp /\ ntq <> qt.
Proof.
  apply NoDup_cons in Hdistinct as [H1 H2]. apply NoDup_cons in H2 as [H2 _].
  apply not_elem_of_cons in H1 as [H1a H1b].
  apply not_elem_of_cons in H1b as [H1b _].
  apply not_elem_of_cons in H2 as [H2 _]. done.
Qed.

(** One pass of the scan: the edge fires when its two qubits name each
    other, and then the progress of both is bumped. *)
Lemma cnot_pass_run (gates : list (Z * Z)) (n1 n2 : Z) (h : heap) (p : list Z) :
  h !! ntq = Some a -> h !! qt = Some t -> h !! cp = Some p ->
  length p = N ->
  0 <= n1 < Z.of_nat N -> 0 <= n2 < Z.of_nat N ->
  cnot_pass self gates (n1, n2) h =
    if mutual a t (n1, n2)
    then (Ok (gates ++ [(n1, n2)]), <[cp := bump (bump p (item a n1)) (item a n2)]> h)
    else (Ok gates, h).
Proof.
  intros Ha Ht Hp Hplen H1 H2.
  assert (Halen := is_permutation_length _ _ Hperm).
  pose proof (permutation_item_range _ _ _ Hperm H1) as Hq1.
  pose proof (permutation_item_range _ _ _ Hperm H2) as Hq2.
  unfold cnot_pass, mutual, bind. simpl fst. simpl snd.
  rewrite !(array_get_run _ _ _ _ Ha).
  rewrite !getitem_item by lia.
  rewrite !(array_get_run _ _ _ _ Ht).
  rewrite (getitem_item t (item a n1)) by lia.
  destruct (item t (item a n1) =? item a n2); simpl; [|done].
  rewrite !(array_get_run _ _ _ _ Ht).
  rewrite (getitem_item t (item a n2)) by lia.
  destruct (item t (item a n2) =? item a n1); simpl; [|done].
  rewrite (array_iadd_run _ _ _ _ _ Hp) by lia.
  erewrite array_iadd_run; [|apply lookup_insert_eq|rewrite length_insert; lia].
  by rewrite insert_insert_eq.
Qed.

(** The scan of the edges [es], from any point of its run. *)
Lemma cnot_scan_run (es : list (Z * Z)) :
  forall (gates : list (Z * Z)) (h : heap) (p : list Z),
  h !! ntq = Some a -> h !! qt = Some t -> h !! cp = Some p ->
  length p = N ->
  edges_in_range N es ->
  foldM (cnot_pass self) es gates h =
    (Ok (gates ++ filter (fun e => mutual a t e = true) es),
     <[cp := foldl bump p (flat_map (ends a) (filter (fun e => mutual a t e = true) es))]> h).
Proof.
  destruct cnot_distinct as (D1 & D2 & D3).
  induction es as [|[n1 n2] es IH]; intros gates h p Ha Ht Hp Hplen Hes.
  { simpl. rewrite app_nil_r. unfold ret. f_equal. by rewrite insert_id. }
  apply Forall_cons in Hes as [[H1 H2] Hes]. simpl in H1, H2.
  rewrite foldM_cons, (cnot_pass_run gates n1 n2 h p) by done.
  rewrite filter_cons.
  destruct (mutual a t (n1, n2)) eqn:Em.
  - rewrite decide_True by done.
    rewrite (IH _ _ (bump (bump p (item a n1)) (item a n2))).
    + rewrite insert_insert_eq. simpl. by rewrite <- app_assoc.
    + by rewrite lookup_insert_ne.
    + by rewrite lookup_insert_ne.
    + apply lookup_insert_eq.
    + by rewrite !bump_length.
    + done.
  - rewrite decide_False by done. by apply IH.
Qed.

End ExecuteCnot.

Lemma getitem_total {A} `{!Inhabited A} (a : list A) (i : Z) :
  0 <= i < Z.of_nat (length a) -> getitem a i = Ok (a !!! Z.to_nat i).
Proof.
  intros H. unfold getitem. rewrite np_index_nonneg by done.
  rewrite (list_lookup_lookup_total_lt a (Z.to_nat i)); [done|lia].
Qed.

Lemma for_each_cons {S A} (x : A) (xs : list A) (body : A -> M S unit) (s : S) :
  for_each (x :: xs) body s =
    match body x s with
    | (Ok _, s') => for_each xs body s'
    | (Raise e, s') => (Raise e, s')
    end.
Proof. reflexivity. Qed.

Section UpdateTargets.

Variable self : CircuitStateDQN.
Variable p : list Z.

Local Abbreviation N := (n_nodes (device self)).
Local Abbreviation qt := (_qubit_targets self).
Local Abbreviation cp := (_circuit_progress self).

Hypothesis Hdistinct : qt <> cp.
Hypothesis Hqubits : length (circuit self) = N.
Hypothesis Hprogress :
  Forall2 (fun (interactions : list Z) v => 0 <= v <= Z.of_nat (length interactions))
          (circuit self) p.

Lemma progress_length : length p = N.
Proof. rewrite <- Hqubits. symmetry. by eapply Forall2_length. Qed.

Lemma progress_item (q : nat) :
  (q < N)%nat ->
  0 <= item p (Z.of_nat q) <= Z.of_nat (length (circuit self !!! q)).
Proof.
  intros Hq. rewrite Forall2_lookup in Hprogress. specialize (Hprogress q).
  unfold item. rewrite Nat2Z.id.
  rewrite (list_lookup_total_alt (circuit self)), (list_lookup_total_alt p).
  inversion Hprogress as [x y Hxy Hx Hy|Hx Hy]; simpl; [done|].
  symmetry in Hx. apply lookup_ge_None in Hx. lia.
Qed.

(** One pass of the second loop writes the target that goes with the
    progress of the qubit. *)
Lemma retarget_pass_run (q : nat) (h : heap) (tcur : list Z) :
  h !! cp = Some p -> h !! qt = Some tcur -> length tcur = N ->
  (q < N)%nat ->
  retarget_pass self (Z.of_nat q) h =
    (Ok tt, <[qt := <[q := next_target (circuit self !!! q) (item p (Z.of_nat q))]> tcur]> h).
Proof.
  intros Hp Ht Htlen Hq.
  pose proof progress_length as Hplen. pose proof (progress_item q Hq) as Hpq.
  unfold retarget_pass, bind, lift_result.
  rewrite !(array_get_run _ _ _ _ Hp), !getitem_item by lia.
  rewrite !getitem_total by lia. rewrite Nat2Z.id.
  unfold next_target.
  destruct (_ <? _) eqn:E.
  - apply Z.ltb_lt in E.
    rewrite !(array_get_run _ _ _ _ Hp), !getitem_item by lia.
    rewrite (array_set_run _ _ _ _ _ Ht), np_index_nonneg by lia.
    by rewrite Nat2Z.id.
  - rewrite (array_set_run _ _ _ _ _ Ht), np_index_nonneg by lia.
    by rewrite Nat2Z.id.
Qed.

Lemma retarget_lookup (q : nat) :
  (q < N)%nat ->
  zip_with next_target (circuit self) p !! q =
    Some (next_target (circuit self !!! q) (item p (Z.of_nat q))).
Proof using Hqubits Hprogress.
  clear Hdistinct. intros Hq. pose proof progress_length as Hplen.
  rewrite lookup_zip_with.
  rewrite (list_lookup_lookup_total_lt (circuit self) q) by lia.
  rewrite (list_lookup_lookup_total_lt p q) by lia. simpl.
  unfold item. by rewrite Nat2Z.id.
Qed.

(** The second loop, from the qubit [k] on. *)
Lemma update_targets_from (m : nat) :
  forall (k : nat) (h : heap) (tcur : list Z),
  (k + m = N)%nat ->
  h !! cp = Some p -> h !! qt = Some tcur -> length tcur = N ->
  for_each ((fun i => Z.of_nat i + 0) <$> seq k m) (retarget_pass self) h =
    (Ok tt, <[qt := take k tcur ++ drop k (zip_with next_target (circuit self) p)]> h).
Proof.
  pose proof progress_length as Hplen.
  assert (Hrlen : length (zip_with next_target (circuit self) p) = N).
  { rewrite length_zip_with. lia. }
  induction m as [|m IH]; intros k h tcur Hk Hp Ht Htlen.
  { simpl. unfold ret. f_equal.
    rewrite take_ge, drop_ge by lia. rewrite app_nil_r. by rewrite insert_id. }
  simpl seq. rewrite fmap_cons, for_each_cons. rewrite Z.add_0_r.
  rewrite (retarget_pass_run k h tcur) by (done || lia).
  rewrite (IH (S k) _ (<[k := next_target (circuit self !!! k) (item p (Z.of_nat k))]> tcur)).
  - rewrite insert_insert_eq. f_equal. f_equal.
    rewrite (take_S_r _ _ (next_target (circuit self !!! k) (item p (Z.of_nat k)))).
    + rewrite take_insert_ge by lia.
      rewrite (drop_S (zip_with next_target (circuit self) p)
                 (next_target (circuit self !!! k) (item p (Z.of_nat k))) k).
      * by rewrite <- app_assoc.
      * apply retarget_lookup. lia.
    + apply list_lookup_insert_eq. lia.
  - lia.
  - by rewrite lookup_insert_ne.
  - apply lookup_insert_eq.
  - by rewrite length_insert.
Qed.

Lemma update_targets_run (h : heap) (tcur : list Z) :
  h !! cp = Some p -> h !! qt = Some tcur -> length tcur = N ->
  update_targets self h =
    (Ok tt, <[qt := zip_with next_target (circuit self) p]> h).
Proof.
  intros Hp Ht Htlen. unfold update_targets, range, seqZ.
  rewrite Nat2Z.id. by rewrite (update_targets_from N 0 h tcur).
Qed.

End UpdateTargets.

Lemma mutual_true (a t : list Z) (n1 n2 : Z) :
  mutual a t (n1, n2) = true <->
  item t (item a n1) = item a n2 /\ item t (item a n2) = item a n1.
Proof. unfold mutual. simpl. rewrite andb_true_iff, !Z.eqb_eq. done. Qed.

Lemma same_edge_true (e1 e2 : Z * Z) :
  (fst e1 = fst e2 /\ snd e1 = snd e2) \/ (fst e1 = snd e2 /\ snd e1 = fst e2) ->
  same_edge e1 e2 = true.
Proof.
  unfold same_edge. rewrite orb_true_iff, !andb_true_iff, !Z.eqb_eq. done.
Qed.

(** Two firing edges that have a qubit in common join the same two nodes. *)
Lemma mutual_share (n : nat) (a t : list Z) (e1 e2 : Z * Z) (x : Z) :
  is_permutation n a ->
  edges_in_range n [e1; e2] ->
  mutual a t e1 = true -> mutual a t e2 = true ->
  x ∈ ends a e1 -> x ∈ ends a e2 ->
  same_edge e1 e2 = true.
Proof.
  intros Hp Hr M1 M2 X1 X2. destruct e1 as [n1 n2], e2 as [m1 m2].
  apply Forall_cons in Hr as [[R1 R2] Hr]. apply Forall_cons in Hr as [[R3 R4] _].
  simpl in R1, R2, R3, R4.
  apply mutual_true in M1 as [A1 A2]. apply mutual_true in M2 as [B1 B2].
  unfold ends in X1, X2. simpl in X1, X2.
  rewrite !elem_of_cons in X1, X2.
  apply same_edge_true. simpl.
  destruct X1 as [X1|[X1|X1]]; [| |by apply elem_of_nil in X1];
    (destruct X2 as [X2|[X2|X2]]; [| |by apply elem_of_nil in X2]); subst x.
  - left. assert (n1 = m1) by (by eapply permutation_item_inj). subst m1.
    split; [done|]. eapply permutation_item_inj; eauto. congruence.
  - right. assert (n1 = m2) by (by eapply permutation_item_inj). subst m2.
    split; [done|]. eapply permutation_item_inj; eauto. congruence.
  - right. assert (n2 = m1) by (by eapply permutation_item_inj). subst m1.
    split; [|done]. eapply permutation_item_inj; eauto. congruence.
  - left. assert (n2 = m2) by (by eapply permutation_item_inj). subst m2.
    split; [|done]. eapply permutation_item_inj; eauto. congruence.
Qed.

(** On a simple graph no qubit is at the end of two firing edges. *)
Lemma fired_ends_NoDup (n : nat) (a t : list Z) (es : list (Z * Z)) :
  is_permutation n a ->
  edges_in_range n es ->
  simple_edges es = true ->
  NoDup (flat_map (ends a) (filter (fun e => mutual a t e = true) es)).
Proof.
  intros Hp. induction es as [|e es IH]; intros Hr Hs; simpl; [apply NoDup_nil_2|].
  apply Forall_cons in Hr as [Re Hr].
  apply andb_prop in Hs as [Hs Hs3]. apply andb_prop in Hs as [Hs1 Hs2].
  rewrite filter_cons. destruct (decide (mutual a t e = true)) as [Me|Me]; [|by apply IH].
  assert (Hfresh : forall x, x ∈ ends a e ->
            x ∉ flat_map (ends a) (filter (fun e => mutual a t e = true) es)).
  { intros x Hx Hin. apply list_elem_of_In, in_flat_map in Hin as (e' & He' & Hx').
    apply list_elem_of_In, list_elem_of_filter in He' as [Me' He'].
    apply list_elem_of_In in Hx'.
    rewrite forallb_forall in Hs2. specialize (Hs2 e').
    rewrite (mutual_share n a t e e' x) in Hs2; try done.
    - simpl in Hs2. apply list_elem_of_In in He'. specialize (Hs2 He'). done.
    - apply Forall_cons_2; [done|]. apply Forall_cons_2; [|apply Forall_nil_2].
      rewrite Forall_forall in Hr. by apply Hr. }
  simpl. destruct e as [n1 n2]. simpl in *.
  apply NoDup_cons_2.
  { intros Hin. apply elem_of_cons in Hin as [Heq|Hin].
    - destruct Re as [R1 R2].
      assert (n1 = n2) by (by eapply permutation_item_inj).
      subst n2. rewrite Z.eqb_refl in Hs1. done.
    - eapply (Hfresh (item a n1)); [|exact Hin]. unfold ends. simpl. left. }
  apply NoDup_cons_2.
  { eapply (Hfresh (item a n2)). unfold ends. simpl. right. left. }
  by apply IH.
Qed.

(** A qubit whose target is another qubit has interactions left. *)
Lemma target_pending (self : CircuitStateDQN) (a t p : list Z) (q : Z) :
  routing_invariant self a t p ->
  0 <= q < Z.of_nat (n_nodes (device self)) ->
  0 <= item t q ->
  item p q < Z.of_nat (length (circuit self !!! Z.to_nat q)).
Proof.
  intros [_ Hq _ _ _ Hprog Ht] Hr Hpos.
  assert (Hprog' : Forall2 (fun (interactions : list Z) v =>
                              0 <= v <= Z.of_nat (length interactions)) (circuit self) p).
  { eapply Forall2_impl; [exact Hprog|]. simpl. tauto. }
  pose proof (retarget_lookup self p Hq Hprog' (Z.to_nat q)) as Hl.
  rewrite <- Ht in Hl. rewrite Z2Nat.id in Hl by lia.
  assert (Hitem : item t q = next_target (circuit self !!! Z.to_nat q) (item p q)).
  { unfold item at 1. rewrite list_lookup_total_alt, Hl; [done|lia]. }
  unfold next_target in Hitem.
  destruct (Z.ltb_spec (item p q) (Z.of_nat (length (circuit self !!! Z.to_nat q)))); lia.
Qed.

(** C2.  In a routing state that satisfies the invariant of the data model,
    [execute_cnot] fires an interaction on the device edge [(n1, n2)] if and
    only if the qubits at [n1] and [n2] name each other as next targets;
    the progress of both qubits of every fired interaction goes up by
    exactly one and the progress of every other qubit stays; and after the
    scan the target of every qubit is read off from its progress, being the
    sentinel [-1] exactly when the progress has reached the number of
    interactions of the qubit. *)
Theorem execute_cnot_fires_mutual_targets
    (self : CircuitStateDQN) (h : heap) (a t p : list Z) :
  NoDup [_node_to_qubit self; _qubit_targets self; _circuit_progress self] ->
  h !! _node_to_qubit self = Some a ->
  h !! _qubit_targets self = Some t ->
  h !! _circuit_progress self = Some p ->
  routing_invariant self a t p ->
  let fired := filter (fun e => mutual a t e = true) (edges (device self)) in
  exists p' t',
    execute_cnot self h =
      (Ok fired, <[_qubit_targets self := t']> (<[_circuit_progress self := p']> h)) /\
    (forall n1 n2, (n1, n2) ∈ fired <->
       (n1, n2) ∈ edges (device self) /\
       item t (item a n1) = item a n2 /\ item t (item a n2) = item a n1) /\
    (forall n1 n2, (n1, n2) ∈ fired ->
       item p' (item a n1) = item p (item a n1) + 1 /\
       item p' (item a n2) = item p (item a n2) + 1) /\
    (forall q, 0 <= q < Z.of_nat (n_nodes (device self)) ->
       q ∉ flat_map (ends a) fired -> item p' q = item p q) /\
    (forall q, 0 <= q < Z.of_nat (n_nodes (device self)) ->
       item t' q = next_target (circuit self !!! Z.to_nat q) (item p' q) /\
       (item t' q = -1 <->
        item p' q = Z.of_nat (length (circuit self !!! Z.to_nat q)))).
Proof.
  intros Hdistinct Ha Ht Hp Hinv fired.
  pose proof Hinv as [Hperm Hqubits Hedges Hsimple Hinter Hprog Htargets].
  set (N := n_nodes (device self)) in *.
  set (qs := flat_map (ends a) fired).
  set (p' := foldl bump p qs).
  set (t' := zip_with next_target (circuit self) p').
  destruct (cnot_distinct self Hdistinct) as (D1 & D2 & D3).
  assert (Hplen : length p = N).
  { rewrite <- Hqubits. symmetry. by eapply Forall2_length. }
  assert (Htlen : length t = N).
  { rewrite Htargets, length_zip_with. lia. }
  assert (Hfired_range : forall n1 n2, (n1, n2) ∈ fired -> 0 <= n1 < Z.of_nat N /\ 0 <= n2 < Z.of_nat N).
  { intros n1 n2 Hin. apply list_elem_of_filter in Hin as [_ Hin].
    unfold edges_in_range in Hedges. rewrite Forall_forall in Hedges.
    apply (Hedges _ Hin). }
  assert (Hqs_in : forall q, q ∈ qs ->
            exists n1 n2, (n1, n2) ∈ fired /\ (q = item a n1 \/ q = item a n2)).
  { intros q Hq. apply list_elem_of_In, in_flat_map in Hq as ([n1 n2] & He & Hq).
    apply list_elem_of_In in He, Hq. exists n1, n2. split; [done|].
    unfold ends in Hq. simpl in Hq. rewrite !elem_of_cons in Hq.
    destruct Hq as [?|[?|Hq]]; [by left|by right|by apply elem_of_nil in Hq]. }
  assert (Hqs : forall q, q ∈ qs ->
            0 <= q < Z.of_nat N /\ item p q < Z.of_nat (length (circuit self !!! Z.to_nat q))).
  { intros q Hq. destruct (Hqs_in q Hq) as (n1 & n2 & Hin & Hq').
    destruct (Hfired_range _ _ Hin) as [R1 R2].
    apply list_elem_of_filter in Hin as [Hm _]. apply mutual_true in Hm as [M1 M2].
    pose proof (permutation_item_range _ _ _ Hperm R1) as Q1.
    pose proof (permutation_item_range _ _ _ Hperm R2) as Q2.
    destruct Hq' as [->| ->]; (split; [done|]);
      apply (target_pending self a t p); try done; lia. }
  assert (Hbound : forall q : nat, (q < N)%nat ->
            0 <= item p (Z.of_nat q) <= Z.of_nat (length (circuit self !!! q)) /\
            Z.of_nat (length (circuit self !!! q)) < 2 ^ 63).
  { intros q Hq. rewrite Forall2_lookup in Hprog. specialize (Hprog q).
    unfold item. rewrite Nat2Z.id.
    rewrite (list_lookup_total_alt (circuit self)), (list_lookup_total_alt p).
    inversion Hprog as [x y Hxy Hx Hy|Hx Hy]; simpl; [done|].
    symmetry in Hx. apply lookup_ge_None in Hx. lia. }
  assert (Hnd : NoDup qs) by (by eapply fired_ends_NoDup).
  assert (Hp'item : forall q, 0 <= q ->
            item p' q = if decide (q ∈ qs) then item p q + 1 else item p q).
  { intros q Hq. apply foldl_bump_item; [done| |done].
    apply Forall_forall. intros x Hx. destruct (Hqs x Hx) as [Hr Hlt].
    split; [lia|]. destruct (Hbound (Z.to_nat x)) as [Hlo Hb]; [lia|].
    rewrite Z2Nat.id in Hlo by lia. unfold int64. lia. }
  assert (Hp'len : length p' = N).
  { unfold p'. by rewrite foldl_bump_length. }
  assert (Hp'bound : forall q, 0 <= q < Z.of_nat N ->
            0 <= item p' q <= Z.of_nat (length (circuit self !!! Z.to_nat q))).
  { intros q Hq. rewrite Hp'item by lia.
    destruct (Hbound (Z.to_nat q)) as [Hb _]; [lia|]. rewrite Z2Nat.id in Hb by lia.
    destruct (decide (q ∈ qs)) as [Hin|_]; [|done].
    destruct (Hqs q Hin). lia. }
  assert (Hprog' : Forall2 (fun (interactions : list Z) v =>
                              0 <= v <= Z.of_nat (length interactions)) (circuit self) p').
  { apply Forall2_same_length_lookup_2; [lia|]. intros i x y Hx Hy.
    assert (Hi : (i < N)%nat) by (rewrite <- Hqubits; by eapply lookup_lt_Some).
    specialize (Hp'bound (Z.of_nat i)). rewrite Nat2Z.id in Hp'bound.
    unfold item in Hp'bound. rewrite Nat2Z.id in Hp'bound.
    rewrite (list_lookup_total_alt (circuit self)), (list_lookup_total_alt p') in Hp'bound.
    rewrite Hx, Hy in Hp'bound. simpl in Hp'bound. apply Hp'bound. lia. }
  exists p', t'. split; [|split; [|split; [|split]]].
  - unfold execute_cnot, bind, cnot_scan.
    rewrite (cnot_scan_run self a t Hdistinct Hperm Htlen (edges (device self)) [] h p)
      by done.
    simpl app. fold fired. fold qs. fold p'.
    rewrite (update_targets_run self p' D2 Hqubits Hprog' _ t).
    + done.
    + apply lookup_insert_eq.
    + by rewrite lookup_insert_ne.
    + done.
  - intros n1 n2. unfold fired. rewrite list_elem_of_filter, mutual_true. tauto.
  - intros n1 n2 Hin. destruct (Hfired_range _ _ Hin) as [R1 R2].
    pose proof (permutation_item_range _ _ _ Hperm R1) as Q1.
    pose proof (permutation_item_range _ _ _ Hperm R2) as Q2.
    assert (I1 : item a n1 ∈ qs).
    { apply list_elem_of_In, in_flat_map. exists (n1, n2).
      split; apply list_elem_of_In; [done|]. unfold ends. simpl. left. }
    assert (I2 : item a n2 ∈ qs).
    { apply list_elem_of_In, in_flat_map. exists (n1, n2).
      split; apply list_elem_of_In; [done|]. unfold ends. simpl. right. left. }
    rewrite !Hp'item by lia. by rewrite !decide_True.
  - intros q Hq Hnotin. rewrite Hp'item by lia. by rewrite decide_False.
  - intros q Hq.
    pose proof (retarget_lookup self p' Hqubits Hprog' (Z.to_nat q)) as Hl.
    rewrite Z2Nat.id in Hl by lia.
    assert (Hitem : item t' q = next_target (circuit self !!! Z.to_nat q) (item p' q)).
    { unfold item at 1. unfold t'. rewrite list_lookup_total_alt, Hl; [done|lia]. }
    split; [exact Hitem|]. rewrite Hitem. unfold next_target.
    specialize (Hp'bound q Hq).
    destruct (Z.ltb_spec (item p' q) (Z.of_nat (length (circuit self !!! Z.to_nat q))))
      as [Hlt|Hge]; [|lia].
    assert (Hin : item (circuit self !!! Z.to_nat q) (item p' q)
                  ∈ circuit self !!! Z.to_nat q).
    { apply list_elem_of_lookup. exists (Z.to_nat (item p' q)). apply item_lookup. lia. }
    assert (Helem : circuit self !!! Z.to_nat q ∈ circuit self).
    { apply list_elem_of_lookup. exists (Z.to_nat q).
      apply list_lookup_lookup_total_lt. lia. }
    rewrite Forall_forall in Hinter. specialize (Hinter _ Helem).
    rewrite Forall_forall in Hinter. specialize (Hinter _ Hin). lia.
Qed.

Lemma pair_state_invariant : routing_invariant pair_state [0; 1] [1; 0] [0; 0].
Proof.
  split.
  - vm_compute. reflexivity.
  - reflexivity.
  - apply Forall_cons_2; [simpl; lia|apply Forall_nil_2].
  - reflexivity.
  - repeat (apply Forall_cons_2; [repeat (apply Forall_cons_2; [simpl; lia|]); apply Forall_nil_2|]).
    apply Forall_nil_2.
  - repeat (apply Forall2_cons_2; [simpl; lia|]). apply Forall2_nil_2.
  - reflexivity.
Qed.

Lemma execute_cnot_fires_mutual_targets_witness :
  let fired := filter (fun e => mutual [0; 1] [1; 0] e = true) (edges (device pair_state)) in
  exists p' t',
    execute_cnot pair_state pair_heap =
      (Ok fired, <[_qubit_targets pair_state := t']>
                   (<[_circuit_progress pair_state := p']> pair_heap)) /\
    (forall n1 n2, (n1, n2) ∈ fired <->
       (n1, n2) ∈ edges (device pair_state) /\
       item [1; 0] (item [0; 1] n1) = item [0; 1] n2 /\
       item [1; 0] (item [0; 1] n2) = item [0; 1] n1) /\
    (forall n1 n2, (n1, n2) ∈ fired ->
       item p' (item [0; 1] n1) = item [0; 0] (item [0; 1] n1) + 1 /\
       item p' (item [0; 1] n2) = item [0; 0] (item [0; 1] n2) + 1) /\
    (forall q, 0 <= q < Z.of_nat (n_nodes (device pair_state)) ->
       q ∉ flat_map (ends [0; 1]) fired -> item p' q = item [0; 0] q) /\
    (forall q, 0 <= q < Z.of_nat (n_nodes (device pair_state)) ->
       item t' q = next_target (circuit pair_state !!! Z.to_nat q) (item p' q) /\
       (item t' q = -1 <->
        item p' q = Z.of_nat (length (circuit pair_state !!! Z.to_nat q)))).
Proof.
  apply (execute_cnot_fires_mutual_targets pair_state pair_heap [0; 1] [1; 0] [0; 0]).
  - apply (bool_decide_unpack _). vm_compute. reflexivity.
  - reflexivity.
  - reflexivity.
  - reflexivity.
  - exact pair_state_invariant.
Defined.

(** ** C10: the distance to the target, and the sentinel as an index *)

Lemma enumerate_cons {A} (x : A) (l : list A) :
  enumerate (x :: l) = (0, x) :: ((fun p => (fst p + 1, snd p)) <$> enumerate l).
Proof.
  unfold enumerate. simpl. f_equal.
  rewrite fmap_imap. apply imap_ext. intros i y _. simpl. f_equal. lia.
Qed.

(** The loop that inverts the node-to-qubit array, started at node [k]. *)
Lemma invert_loop_run (h : heap) (l : list Z) :
  forall (k : Z) (acc : list Z),
  NoDup l ->
  Forall (fun v => 0 <= v < Z.of_nat (length acc)) l ->
  exists r,
    foldM (fun (qubit_to_node : list Z) '(i, v) => lift_result (setitem qubit_to_node v i))
          ((fun p => (fst p + k, snd p)) <$> enumerate l) acc h = (Ok r, h) /\
    length r = length acc /\
    (forall j v, l !! j = Some v -> item r v = Z.of_nat j + k) /\
    (forall x, 0 <= x -> x ∉ l -> item r x = item acc x).
Proof.
  induction l as [|v0 l IH]; intros k acc Hnd Hr.
  { exists acc. simpl. repeat split; try done. }
  apply NoDup_cons in Hnd as [Hnotin Hnd]. apply Forall_cons in Hr as [Hv0 Hr].
  rewrite enumerate_cons, fmap_cons, foldM_cons. simpl fst. simpl snd.
  unfold lift_result at 1, setitem. rewrite np_index_nonneg by done.
  destruct (IH (k + 1) (<[Z.to_nat v0 := 0 + k]> acc) Hnd) as (r & Hrun & Hlen & Hset & Hkeep).
  { by rewrite length_insert. }
  exists r. split.
  { rewrite <- Hrun. f_equal. rewrite <- list_fmap_compose. apply list_fmap_ext.
    intros _ [i v] _. simpl. f_equal. lia. }
  rewrite length_insert in Hlen. split; [done|]. split.
  - intros [|j] v Hj; simpl in Hj.
    + injection Hj as <-. rewrite Hkeep by (done || lia).
      unfold item. rewrite list_lookup_total_insert_eq by lia. lia.
    + rewrite (Hset j v Hj). lia.
  - intros x Hx Hnin. apply not_elem_of_cons in Hnin as [Hne Hnin].
    rewrite Hkeep by done. unfold item.
    rewrite list_lookup_total_insert_ne; [done|lia].
Qed.

(** [qubit_to_node] returns the inverse of a permutation. *)
Lemma qubit_to_node_run (self : CircuitStateDQN) (h : heap) (a : list Z) :
  h !! _node_to_qubit self = Some a ->
  is_permutation (n_nodes (device self)) a ->
  exists q2n,
    qubit_to_node self h = (Ok q2n, h) /\
    length q2n = n_nodes (device self) /\
    (forall n, 0 <= n < Z.of_nat (n_nodes (device self)) -> item q2n (item a n) = n) /\
    (forall q, 0 <= q < Z.of_nat (n_nodes (device self)) ->
       0 <= item q2n q < Z.of_nat (n_nodes (device self)) /\ item a (item q2n q) = q).
Proof.
  intros Ha Hp. set (N := n_nodes (device self)) in *.
  assert (Hlen := is_permutation_length _ _ Hp).
  destruct (invert_loop_run h a 0 (replicate (length a) 0)) as (r & Hrun & Hrlen & Hset & _).
  { rewrite Hp. apply NoDup_seqZ. }
  { rewrite length_replicate, Hlen. apply Forall_forall. intros v Hv.
    apply elem_of_range. by rewrite <- Hp. }
  exists r. rewrite length_replicate in Hrlen.
  assert (Hinv : forall n, 0 <= n < Z.of_nat N -> item r (item a n) = n).
  { intros n Hn. rewrite (Hset (Z.to_nat n) (item a n)); [lia|].
    apply item_lookup. lia. }
  split; [|split; [lia|split; [exact Hinv|]]].
  - unfold qubit_to_node, bind. rewrite (deref_run _ _ _ Ha).
    rewrite <- Hrun. f_equal. rewrite <- (list_fmap_id (enumerate a)) at 1.
    apply list_fmap_ext. intros _ [i v] _. simpl. f_equal. lia.
  - intros q Hq.
    assert (Hin : q ∈ a) by (rewrite Hp; by apply elem_of_range).
    apply list_elem_of_lookup in Hin as [n Hn].
    assert (Hn' : (n < length a)%nat) by (by eapply lookup_lt_Some).
    assert (Hq' : item a (Z.of_nat n) = q).
    { unfold item. rewrite Nat2Z.id. by apply list_lookup_total_correct. }
    rewrite <- Hq'. rewrite Hinv by lia. split; [lia|done].
Qed.

(** Reading with a qubit or the sentinel as the index: the sentinel wraps
    around to the last entry. *)
Lemma getitem_or_sentinel (a : list Z) (v : Z) :
  -1 <= v < Z.of_nat (length a) -> (0 < length a)%nat ->
  getitem a v = Ok (item a (if 0 <=? v then v else Z.of_nat (length a) + v)).
Proof.
  intros Hv Hpos. destruct (Z.leb_spec 0 v).
  - apply getitem_item. lia.
  - assert (v = -1) as -> by lia. unfold getitem.
    rewrite np_index_minus_one by done.
    unfold item. replace (Z.to_nat (Z.of_nat (length a) + -1)) with (length a - 1)%nat by lia.
    rewrite (list_lookup_lookup_total_lt a (length a - 1)); [done|lia].
Qed.

Lemma getitem2_item2 (d : list (list Z)) (n : nat) (i j : Z) :
  length d = n -> Forall (fun row => length row = n) d ->
  0 <= i < Z.of_nat n -> 0 <= j < Z.of_nat n ->
  getitem2 d i j = Ok (item2 d i j).
Proof.
  intros Hd Hrows Hi Hj. unfold getitem2, item2.
  rewrite getitem_total by lia. apply getitem_item.
  rewrite Forall_forall in Hrows. rewrite (Hrows (d !!! Z.to_nat i)); [done|].
  apply list_elem_of_lookup. exists (Z.to_nat i).
  apply list_lookup_lookup_total_lt. lia.
Qed.

Section TargetDistance.

Variable d : list (list Z).
Variable q2n : list Z.
Variable n : nat.

Hypothesis Hpos : (0 < n)%nat.
Hypothesis Hd : length d = n.
Hypothesis Hrows : Forall (fun row => length row = n) d.
Hypothesis Hq2n : length q2n = n.
Hypothesis Hnodes : forall q, 0 <= q < Z.of_nat n -> 0 <= item q2n q < Z.of_nat n.

(** The loop of [target_distance] over the targets [l] of the qubits from
    [k] on. *)
Lemma distance_loop_run (h : heap) (l : list Z) :
  forall (k : Z) (acc : list Z),
  0 <= k -> length acc = n -> k + Z.of_nat (length l) <= Z.of_nat n ->
  Forall (fun v => -1 <= v < Z.of_nat n) l ->
  exists r,
    foldM (fun (target_distances : list Z) '(i, v) =>
             src <- lift_result (getitem q2n i) ;;
             dst <- lift_result (getitem q2n v) ;;
             dist <- lift_result (getitem2 d src dst) ;;
             lift_result (setitem target_distances i dist))
          ((fun p => (fst p + k, snd p)) <$> enumerate l) acc h = (Ok r, h) /\
    length r = n /\
    (forall j v, l !! j = Some v ->
       item r (Z.of_nat j + k) =
       item2 d (item q2n (Z.of_nat j + k))
               (item q2n (if 0 <=? v then v else Z.of_nat n + v))) /\
    (forall x, 0 <= x < k -> item r x = item acc x).
Proof.
  induction l as [|v0 l IH]; intros k acc Hk Hacc Hfit Hl.
  { exists acc. simpl. repeat split; try done. }
  apply Forall_cons in Hl as [Hv0 Hl]. simpl length in Hfit.
  rewrite enumerate_cons, fmap_cons, foldM_cons. simpl fst. simpl snd.
  assert (Hwrap : 0 <= (if 0 <=? v0 then v0 else Z.of_nat n + v0) < Z.of_nat n).
  { destruct (Z.leb_spec 0 v0); lia. }
  unfold bind, lift_result.
  rewrite (getitem_item q2n (0 + k)) by lia.
  rewrite (getitem_or_sentinel q2n v0) by (rewrite ?Hq2n; done).
  rewrite Hq2n.
  rewrite (getitem2_item2 d n) by (done || apply Hnodes; lia).
  unfold setitem. rewrite np_index_nonneg by lia.
  set (dist := item2 d (item q2n (0 + k))
                 (item q2n (if 0 <=? v0 then v0 else Z.of_nat n + v0))).
  destruct (IH (k + 1) (<[Z.to_nat (0 + k) := dist]> acc)) as (r & Hrun & Hlen & Hset & Hkeep).
  { lia. } { by rewrite length_insert. } { lia. } { done. }
  exists r. split.
  { rewrite <- Hrun. f_equal. rewrite <- list_fmap_compose. apply list_fmap_ext.
    intros _ [i v] _. simpl. f_equal. lia. }
  split; [done|]. split.
  - intros [|j] v Hj; simpl in Hj.
    + injection Hj as <-. rewrite Hkeep by lia. unfold item at 1.
      rewrite list_lookup_total_insert_eq by lia. done.
    + specialize (Hset j v Hj).
      replace (Z.of_nat (S j) + k) with (Z.of_nat j + (k + 1)) by lia. exact Hset.
  - intros x Hx. rewrite Hkeep by lia. unfold item.
    rewrite list_lookup_total_insert_ne; [done|lia].
Qed.

End TargetDistance.

(** C10.  For every qubit [q] the view [target_distance] returns the
    device distance from the node of [q] to the node of [qubit_targets[q]],
    with no case for the sentinel: when [qubit_targets[q]] is [-1] the
    sentinel itself indexes [qubit_to_node] and selects its last entry, so
    the distance reported for a finished qubit is the distance to the node
    that holds the qubit of highest number; it need not be 0 (on the path of
    three nodes the finished qubit 1 is reported at distance 1). *)
Theorem target_distance_uses_sentinel_as_index :
  (forall (self : CircuitStateDQN) (h : heap) (a t : list Z),
     h !! _node_to_qubit self = Some a ->
     h !! _qubit_targets self = Some t ->
     (0 < n_nodes (device self))%nat ->
     is_permutation (n_nodes (device self)) a ->
     length t = n_nodes (device self) ->
     Forall (fun v => -1 <= v < Z.of_nat (n_nodes (device self))) t ->
     length (distances (device self)) = n_nodes (device self) ->
     Forall (fun row => length row = n_nodes (device self)) (distances (device self)) ->
     exists q2n td,
       qubit_to_node self h = (Ok q2n, h) /\
       target_distance self h = (Ok td, h) /\
       (forall n, 0 <= n < Z.of_nat (n_nodes (device self)) -> item q2n (item a n) = n) /\
       (forall q, 0 <= q < Z.of_nat (n_nodes (device self)) -> 0 <= item t q ->
          item td q = item2 (distances (device self)) (item q2n q) (item q2n (item t q))) /\
       (forall q, 0 <= q < Z.of_nat (n_nodes (device self)) -> item t q = -1 ->
          item td q = item2 (distances (device self)) (item q2n q)
                        (item q2n (Z.of_nat (n_nodes (device self)) - 1)) /\
          item a (item q2n (Z.of_nat (n_nodes (device self)) - 1))
            = Z.of_nat (n_nodes (device self)) - 1)) /\
  (exists (self : CircuitStateDQN) (h : heap) (t td : list Z) (q : Z),
     h !! _qubit_targets self = Some t /\ item t q = -1 /\
     target_distance self h = (Ok td, h) /\ item td q <> 0).
Proof.
  split.
  - intros self h a t Ha Ht Hpos Hp Htlen Htr Hd Hrows.
    set (N := n_nodes (device self)) in *.
    destruct (qubit_to_node_run self h a Ha Hp) as (q2n & Hrun & Hlen & Hinv & Hnodes).
    destruct (distance_loop_run (distances (device self)) q2n N Hpos Hd Hrows Hlen
                (fun q Hq => proj1 (Hnodes q Hq)) h t 0 (replicate (length a) 0))
      as (td & Htd & Htdlen & Hset & _); try done.
    { rewrite length_replicate. by apply is_permutation_length. }
    { lia. }
    exists q2n, td. split; [exact Hrun|]. split; [|split; [exact Hinv|split]].
    + unfold target_distance, bind. rewrite Hrun.
      rewrite (deref_run _ _ _ Ha), (deref_run _ _ _ Ht).
      rewrite <- Htd. f_equal. rewrite <- (list_fmap_id (enumerate t)) at 1.
      apply list_fmap_ext. intros _ [i v] _. simpl. f_equal. lia.
    + intros q Hq Hnonneg.
      specialize (Hset (Z.to_nat q) (item t q)).
      rewrite Z.add_0_r, Z2Nat.id in Hset by lia.
      rewrite Hset by (apply item_lookup; lia).
      by replace (0 <=? item t q) with true by (symmetry; apply Z.leb_le; lia).
    + intros q Hq Hsentinel. split.
      * specialize (Hset (Z.to_nat q) (item t q)).
        rewrite Z.add_0_r, Z2Nat.id in Hset by lia.
        rewrite Hset by (apply item_lookup; lia).
        rewrite Hsentinel. simpl (0 <=? -1). cbv iota.
        by replace (Z.of_nat N + -1) with (Z.of_nat N - 1) by lia.
      * apply Hnodes. lia.
  - exists path_state, path_heap, [2; -1; 0], [2; 1; 2], 1.
    split; [reflexivity|]. split; [reflexivity|]. split; [|done].
    vm_compute. reflexivity.
Qed.

Lemma target_distance_uses_sentinel_as_index_witness :
  exists q2n td,
    qubit_to_node path_state path_heap = (Ok q2n, path_heap) /\
    target_distance path_state path_heap = (Ok td, path_heap) /\
    (forall n, 0 <= n < 3 -> item q2n (item [0; 1; 2] n) = n) /\
    (forall q, 0 <= q < 3 -> 0 <= item [2; -1; 0] q ->
       item td q = item2 (distances path_device) (item q2n q) (item q2n (item [2; -1; 0] q))) /\
    (forall q, 0 <= q < 3 -> item [2; -1; 0] q = -1 ->
       item td q = item2 (distances path_device) (item q2n q) (item q2n (3 - 1)) /\
       item [0; 1; 2] (item q2n (3 - 1)) = 3 - 1).
Proof.
  apply (proj1 target_distance_uses_sentinel_as_index path_state path_heap
           [0; 1; 2] [2; -1; 0]).
  - reflexivity.
  - reflexivity.
  - simpl. lia.
  - vm_compute. reflexivity.
  - reflexivity.
  - repeat (apply Forall_cons_2; [simpl; lia|]). apply Forall_nil_2.
  - reflexivity.
  - repeat (apply Forall_cons_2; [reflexivity|]). apply Forall_nil_2.
Defined.

(** ** C4: who rejects a locked edge *)






(** ** The search: what its steps leave untouched *)

Lemma observe_heap (s : CircuitStateDQN) (h : heap) : snd (observe s h) = h.
Proof.
  unfold observe, bind, deref, ret.
  repeat (match goal with |- context [h !! ?l] => destruct (h !! l) end; simpl; try done).
Qed.

Lemma iteration_temps_app (tr1 tr2 : list event) :
  iteration_temps (tr1 ++ tr2) = iteration_temps tr1 ++ iteration_temps tr2.
Proof.
  induction tr1 as [|[temp| |sol] tr1 IH]; simpl; [done| |done|done].
  by rewrite IH.
Qed.

Lemma neighbour_count_app (tr1 tr2 : list event) :
  neighbour_count (tr1 ++ tr2) = (neighbour_count tr1 + neighbour_count tr2)%nat.
Proof.
  induction tr1 as [|[temp| |sol] tr1 IH]; simpl; [done|done| |done].
  by rewrite IH.
Qed.

(** A state that can be observed has its four arrays, and stays observed
    the same way when arrays are added to the store. *)
Lemma observe_Ok (s : CircuitStateDQN) (h : heap) (v : StateView) :
  fst (observe s h) = Ok v <->
  exists a1 a2 a3 a4,
    h !! _node_to_qubit s = Some a1 /\ h !! _qubit_targets s = Some a2 /\
    h !! _circuit_progress s = Some a3 /\ h !! _locked_edges s = Some a4 /\
    v = {| view_circuit := circuit s; view_device := device s;
           view_node_to_qubit := a1; view_qubit_targets := a2;
           view_circuit_progress := a3; view_locked_edges := a4 |}.
Proof.
  unfold observe, bind, deref, ret. split.
  - destruct (h !! _node_to_qubit s) as [a1|]; simpl; [|done].
    destruct (h !! _qubit_targets s) as [a2|]; simpl; [|done].
    destruct (h !! _circuit_progress s) as [a3|]; simpl; [|done].
    destruct (h !! _locked_edges s) as [a4|]; simpl; [|done].
    intros [= <-]. by exists a1, a2, a3, a4.
  - intros (a1 & a2 & a3 & a4 & -> & -> & -> & -> & ->). done.
Qed.

Lemma observe_weaken (s : CircuitStateDQN) (h h' : heap) (v : StateView) :
  fst (observe s h) = Ok v -> h ⊆ h' -> fst (observe s h') = Ok v.
Proof.
  rewrite !observe_Ok. intros (a1 & a2 & a3 & a4 & H1 & H2 & H3 & H4 & ->) Hsub.
  exists a1, a2, a3, a4. repeat split; by eapply lookup_weaken.
Qed.

Lemma observe_allocated (s : CircuitStateDQN) (h : heap) (v : StateView) :
  fst (observe s h) = Ok v -> Forall (fun l => is_Some (h !! l)) (arrays_of s).
Proof.
  rewrite observe_Ok. intros (a1 & a2 & a3 & a4 & H1 & H2 & H3 & H4 & _).
  unfold arrays_of. repeat (apply Forall_cons_2; [eauto|]). apply Forall_nil_2.
Qed.

Lemma on_store_observe (s : CircuitStateDQN) (w : AWorld) (v : StateView) :
  fst (observe s (store w)) = Ok v -> on_store (observe s) w = (Ok v, w).
Proof.
  intros H. unfold on_store. pose proof (observe_heap s (store w)) as Hh.
  destruct (observe s (store w)) as [r h]. simpl in *. subst. by destruct w.
Qed.

(** ** C3: the validity check *)

Lemma getitem_nat {A} (a : list A) (i : nat) :
  getitem a (Z.of_nat i) = match a !! i with Some v => Ok v | None => Raise IndexError end.
Proof.
  unfold getitem, np_index.
  replace (0 <=? Z.of_nat i) with true by (symmetry; apply Z.leb_le; lia).
  destruct (Z.ltb_spec (Z.of_nat i) (Z.of_nat (length a))); simpl.
  - by rewrite Nat2Z.id.
  - replace (Z.of_nat i <? 0) with false by (symmetry; apply Z.ltb_ge; lia).
    rewrite andb_false_r. rewrite lookup_ge_None_2; [done|lia].
Qed.

(** The first loop of the check. *)
Lemma check_protected_sound (solution : list Z) (forced_mask : list bool) (n : nat) :
  forall i, check_protected solution forced_mask i n = Ok tt ->
  forall k, (i <= k < i + n)%nat -> solution !! k = Some 1 -> forced_mask !! k = Some false.
Proof.
  induction n as [|n IH]; intros i Hc k Hk Hs; [lia|].
  simpl in Hc. rewrite !getitem_nat in Hc.
  destruct (forced_mask !! i) as [[|]|] eqn:Em; [| |done].
  - destruct (solution !! i) as [s|] eqn:Es; [|done].
    destruct (Z.eqb_spec s 1) as [->|Hne]; [done|].
    destruct (decide (k = i)) as [->|Hki]; [congruence|].
    apply (IH (S i) Hc); [lia|done].
  - destruct (decide (k = i)) as [->|Hki]; [done|].
    apply (IH (S i) Hc); [lia|done].
Qed.

Lemma filter_fmap {A B} (f : A -> B) (P : B -> Prop) `{!forall x, Decision (P x)}
    (l : list A) :
  filter P (f <$> l) = f <$> filter (fun x => P (f x)) l.
Proof.
  induction l as [|x l IH]; [done|].
  rewrite fmap_cons, !filter_cons, IH. by destruct (decide (P (f x))).
Qed.

Lemma where_one_cons (x : Z) (solution : list Z) :
  where_one (x :: solution) =
  (if decide (x = 1) then [0] else []) ++ ((fun i => i + 1) <$> where_one solution).
Proof.
  unfold where_one. rewrite enumerate_cons, filter_cons. simpl snd.
  rewrite filter_fmap. simpl snd.
  destruct (decide (x = 1)); simpl; f_equal;
    rewrite <- !list_fmap_compose; by apply list_fmap_ext.
Qed.

Lemma where_one_nonneg (solution : list Z) : Forall (fun i => 0 <= i) (where_one solution).
Proof.
  induction solution as [|x solution IH]; [apply Forall_nil_2|].
  rewrite where_one_cons. apply Forall_app. split.
  - destruct (decide (x = 1)); [|apply Forall_nil_2].
    apply Forall_cons_2; [lia|apply Forall_nil_2].
  - apply Forall_fmap. eapply Forall_impl; [exact IH|]. simpl. lia.
Qed.

Lemma getitem_cons_succ {A} (x : A) (a : list A) (i : Z) :
  0 <= i -> getitem (x :: a) (i + 1) = getitem a i.
Proof.
  intros Hi. replace i with (Z.of_nat (Z.to_nat i)) by lia.
  replace (Z.of_nat (Z.to_nat i) + 1) with (Z.of_nat (S (Z.to_nat i))) by lia.
  by rewrite !getitem_nat.
Qed.

Lemma edges_at_shift (e : Z * Z) (es : list (Z * Z)) (indices : list Z) :
  Forall (fun i => 0 <= i) indices ->
  edges_at (e :: es) ((fun i => i + 1) <$> indices) = edges_at es indices.
Proof.
  induction indices as [|i indices IH]; intros Hi; [done|].
  apply Forall_cons in Hi as [Hi Hrest].
  rewrite fmap_cons. simpl. rewrite getitem_cons_succ by done.
  by rewrite IH.
Qed.

Lemma edges_at_nil (indices : list Z) (l : list (Z * Z)) :
  edges_at [] indices = Ok l -> indices = [] /\ l = [].
Proof. destruct indices as [|i indices]; simpl; [by intros [= <-]|by destruct i]. Qed.

(** The edges the check looks at are the edges the solution selects. *)
Lemma edges_at_where_one (solution : list Z) :
  forall (es l : list (Z * Z)),
  boolean_array solution ->
  edges_at es (where_one solution) = Ok l ->
  l = selected_edges es solution.
Proof.
  induction solution as [|x solution IH]; intros es l Hb He.
  { simpl in He. injection He as <-. unfold selected_edges. by rewrite zip_nil_r. }
  apply Forall_cons in Hb as [Hx Hb]. rewrite where_one_cons in He.
  destruct es as [|e es].
  { apply edges_at_nil in He as [_ ->]. unfold selected_edges. by rewrite zip_nil_l. }
  rewrite selected_edges_cons.
  destruct Hx as [-> | ->]; simpl in He.
  - rewrite edges_at_shift in He by apply where_one_nonneg.
    simpl. by apply IH.
  - rewrite edges_at_shift in He by apply where_one_nonneg.
    destruct (edges_at es (where_one solution)) as [l'|] eqn:El; [|done].
    injection He as <-. simpl. f_equal. by apply IH.
Qed.

Lemma check_seen_sound (swap_edges : list (Z * Z)) (swap_nodes : list Z) :
  forall seen : gset Z,
  check_seen swap_edges swap_nodes seen = Ok tt ->
  NoDup swap_nodes /\ forall x, x ∈ swap_nodes -> x ∉ seen.
Proof.
  induction swap_nodes as [|node rest IH]; intros seen Hc; simpl in Hc.
  { split; [apply NoDup_nil_2|]. intros x Hx. by apply elem_of_nil in Hx. }
  destruct (decide (node ∈ seen)) as [|Hnew]; [done|].
  destruct (IH _ Hc) as [Hnd Hfresh]. split.
  - apply NoDup_cons_2; [|done]. intros Hin. apply (Hfresh node Hin).
    apply elem_of_union_l, elem_of_singleton. done.
  - intros x Hx. apply elem_of_cons in Hx as [->|Hx]; [done|].
    intros Hs. apply (Hfresh x Hx). by apply elem_of_union_r.
Qed.

Lemma NoDup_vertex_disjoint (l : list (Z * Z)) :
  NoDup (flat_map (fun edge => [fst edge; snd edge]) l) -> vertex_disjoint l = true.
Proof.
  induction l as [|e l IH]; intros Hnd; [done|]. simpl in Hnd |- *.
  apply NoDup_cons in Hnd as [H1 Hnd]. apply NoDup_cons in Hnd as [H2 Hnd].
  rewrite IH by done. rewrite andb_true_r. apply forallb_forall. intros e' He'.
  assert (I1 : fst e' ∈ flat_map (fun edge => [fst edge; snd edge]) l).
  { apply list_elem_of_In, in_flat_map. exists e'. split; [done|]. simpl. by left. }
  assert (I2 : snd e' ∈ flat_map (fun edge => [fst edge; snd edge]) l).
  { apply list_elem_of_In, in_flat_map. exists e'. split; [done|]. simpl. right. by left. }
  unfold share_node. apply negb_true_iff. rewrite !orb_false_iff, !Z.eqb_neq.
  repeat split; intros Heq.
  - apply H1. right. by rewrite Heq.
  - apply H1. right. by rewrite Heq.
  - apply H2. by rewrite Heq.
  - apply H2. by rewrite Heq.
Qed.

(** A solution that passes [check_valid_solution] is valid. *)
Lemma check_valid_solution_sound (self : AnnealerDQN)
    (solution : list Z) (forced_mask : list bool) :
  boolean_array solution ->
  check_valid_solution self solution forced_mask = Ok tt ->
  valid_solution (edges (annealer_device self)) forced_mask solution.
Proof.
  intros Hb Hc. unfold check_valid_solution in Hc.
  destruct (check_protected solution forced_mask 0 (length solution)) as [[]|] eqn:Ep;
    [|done].
  split; [done|]. split.
  - intros k Hk. apply (check_protected_sound _ _ _ 0 Ep); [|done].
    apply lookup_lt_Some in Hk. lia.
  - destruct (existsb (fun s => s =? 1) solution) eqn:Eo.
    + destruct (edges_at (edges (annealer_device self)) (where_one solution))
        as [swap_edges|] eqn:Ee; [|done].
      apply check_seen_sound in Hc as [Hnd _].
      rewrite <- (edges_at_where_one solution _ _ Hb Ee).
      by apply NoDup_vertex_disjoint.
    + assert (Hnone : selected_edges (edges (annealer_device self)) solution = []).
      { clear Hc Ep. revert Hb Eo. generalize (edges (annealer_device self)).
        induction solution as [|x solution IH]; intros es Hb Eo.
        - unfold selected_edges. by rewrite zip_nil_r.
        - destruct es as [|e es]; [unfold selected_edges; by rewrite zip_nil_l|].
          apply Forall_cons in Hb as [Hx Hb]. simpl in Eo.
          apply orb_false_iff in Eo as [Ex Eo].
          rewrite selected_edges_cons.
          destruct Hx as [-> | ->]; [|done]. simpl. by apply IH. }
      by rewrite Hnone.
Qed.

(** ** The search: its steps *)

Lemma flip_Ok (solution : list Z) (i : Z) (solution' : list Z) :
  flip solution i = Ok solution' ->
  exists k x, np_index (length solution) i = Some k /\ solution !! k = Some x /\
              solution' = <[k := (x + 1) mod 2]> solution.
Proof.
  unfold flip, getitem, setitem.
  destruct (np_index (length solution) i) as [k|]; [|done].
  destruct (solution !! k) as [x|] eqn:Ex; [|done].
  intros [= <-]. eauto.
Qed.

Lemma flip_boolean (solution : list Z) (i : Z) (solution' : list Z) :
  boolean_array solution -> flip solution i = Ok solution' -> boolean_array solution'.
Proof.
  intros Hb Hf. apply flip_Ok in Hf as (k & x & _ & _ & ->).
  apply Forall_insert; [done|].
  pose proof (Z.mod_pos_bound (x + 1) 2). lia.
Qed.

Lemma zeros_boolean (n : nat) : boolean_array (replicate n 0).
Proof. apply Forall_replicate. by left. Qed.

Lemma random_choice_run (tape : Tape) (a : list Z) (w : AWorld) :
  a <> [] ->
  exists x, x ∈ a /\
    random_choice tape a w =
      (Ok x, {| store := store w; draws := S (draws w); trace := trace w |}).
Proof.
  intros Ha. destruct a as [|y a]; [done|].
  exists (nth (choices tape (draws w) mod length (y :: a))%nat (y :: a) 0). split.
  - apply list_elem_of_In, nth_In. apply Nat.mod_upper_bound. done.
  - reflexivity.
Qed.

Lemma no_edges_false (available_edges : option (list Z)) :
  no_edges available_edges = false ->
  exists l, available_edges = Some l /\ l <> [].
Proof.
  destruct available_edges as [[|x l]|]; simpl; try done.
  intros _. by exists (x :: l).
Qed.

Lemma on_store_copy (s : CircuitStateDQN) (w : AWorld) (v : StateView) :
  length (circuit s) = n_nodes (device s) ->
  fst (observe s (store w)) = Ok v ->
  exists c h',
    on_store (__copy__ s) w = (Ok c, {| store := h'; draws := draws w; trace := trace w |}) /\
    store w ⊆ h' /\ fst (observe c h') = Ok v.
Proof.
  intros Hlen Hv.
  destruct (copy_run s (store w) Hlen (observe_allocated _ _ _ Hv))
    as (c & h' & Hrun & Hc & Hd & Hsub & _ & C1 & C2 & C3 & C4).
  exists c, h'. split; [|split; [done|]].
  - unfold on_store. by rewrite Hrun.
  - apply observe_Ok in Hv as (a1 & a2 & a3 & a4 & H1 & H2 & H3 & H4 & ->).
    apply observe_Ok. exists a1, a2, a3, a4.
    rewrite C1, C2, C3, C4, Hc, Hd. done.
Qed.

(** Two states that are observed alike are equal for [__eq__]. *)
Lemma eq_same_view (c1 c2 : CircuitStateDQN) (h : heap) (v : StateView) :
  fst (observe c1 h) = Ok v -> fst (observe c2 h) = Ok v ->
  __eq__ c1 c2 h = (Ok true, h).
Proof.
  intros H1 H2.
  destruct (eq_compares_arrays c1 c2 h) as (b & Hb & Hiff).
  { apply Forall_app. split; by eapply observe_allocated. }
  rewrite Hb. f_equal. f_equal. apply Hiff.
  apply observe_Ok in H1 as (a1 & a2 & a3 & a4 & A1 & A2 & A3 & A4 & ->).
  apply observe_Ok in H2 as (b1 & b2 & b3 & b4 & B1 & B2 & B3 & B4 & Hv).
  injection Hv as _ _ -> -> -> ->.
  by rewrite A1, A2, A3, A4, B1, B2, B3, B4.
Qed.

Lemma selected_edges_zeros (es : list (Z * Z)) (n : nat) :
  selected_edges es (replicate n 0) = [].
Proof.
  revert n. induction es as [|e es IH]; intros n.
  - unfold selected_edges. by rewrite zip_nil_l.
  - destruct n as [|n]; [done|].
    simpl replicate. rewrite selected_edges_cons. simpl. apply IH.
Qed.

Lemma selected_edges_single (es : list (Z * Z)) (n k : nat) :
  (length (selected_edges es (<[k := 1%Z]> (replicate n 0%Z))) <= 1)%nat.
Proof.
  revert n k. induction es as [|e es IH]; intros n k.
  - unfold selected_edges. rewrite zip_nil_l. simpl. lia.
  - destruct n as [|n]; [unfold selected_edges; simpl; lia|].
    destruct k as [|k].
    + change (<[0%nat := 1]> (replicate (S n) 0)) with (1 :: replicate n 0).
      rewrite selected_edges_cons, selected_edges_zeros. simpl. lia.
    + change (<[S k := 1]> (replicate (S n) 0)) with (0 :: <[k := 1]> (replicate n 0)).
      rewrite selected_edges_cons. simpl. apply IH.
Qed.

Lemma vertex_disjoint_short (l : list (Z * Z)) :
  (length l <= 1)%nat -> vertex_disjoint l = true.
Proof. destruct l as [|e [|e' l]]; simpl; [done|done|lia]. Qed.

Lemma zeros_valid (es : list (Z * Z)) (forced_mask : list bool) (n : nat) :
  valid_solution es forced_mask (replicate n 0).
Proof.
  split; [apply zeros_boolean|]. split.
  - intros k Hk. apply lookup_replicate in Hk as [? _]. done.
  - by rewrite selected_edges_zeros.
Qed.

Lemma single_valid (es : list (Z * Z)) (forced_mask : list bool) (n k : nat) :
  forced_mask !! k = Some false ->
  valid_solution es forced_mask (<[k := 1]> (replicate n 0)).
Proof.
  intros Hk. split; [|split].
  - apply Forall_insert; [apply zeros_boolean|by right].
  - intros k' Hk'. destruct (decide (k' = k)) as [->|Hne]; [done|].
    rewrite list_lookup_insert_ne in Hk' by done.
    apply lookup_replicate in Hk' as [? _]. done.
  - apply vertex_disjoint_short, selected_edges_single.
Qed.

Section Search.

Variable E : Type.
Variable E_ltb : E -> E -> bool.
Variable exp_minus_diff_over : E -> E -> float -> float.
Variable oracle : list Z -> StateView -> string -> result E.
Variable swappable_edges : StateView -> list Z -> option (list Z).
Variable protected_edges : StateView -> list bool.
Variable tape : Tape.
Variable self : AnnealerDQN.
Variable s : CircuitStateDQN.
Variable action_chooser : string.

Local Abbreviation zeros := (replicate (length (edges (annealer_device self))) 0).
Local Abbreviation initial := (generate_initial_solution swappable_edges tape self s).
Local Abbreviation neighbour :=
  (fun solution => get_neighbour_solution swappable_edges protected_edges tape self solution s).
Local Abbreviation energy_of := (fun solution => get_energy E oracle solution s action_chooser).
Local Abbreviation body :=
  (anneal_body E E_ltb exp_minus_diff_over oracle swappable_edges protected_edges tape
     self s action_chooser).

(** The initial solution: all zeros when no edge is eligible, and otherwise
    all zeros but for one eligible edge. *)
Lemma initial_run (w : AWorld) (v : StateView) (r : result (list Z)) (w' : AWorld) :
  fst (observe s (store w)) = Ok v ->
  initial w = (r, w') ->
  store w' = store w /\ trace w' = trace w /\
  (no_edges (swappable_edges v zeros) = true -> r = Ok zeros /\ w' = w) /\
  (forall solution, r = Ok solution ->
     boolean_array solution /\
     (solution = zeros \/
      exists available i k,
        swappable_edges v zeros = Some available /\ i ∈ available /\
        np_index (length zeros) i = Some k /\ solution = <[k := 1]> zeros)).
Proof.
  intros Hv Hrun. unfold generate_initial_solution, bind in Hrun.
  rewrite (on_store_observe _ _ _ Hv) in Hrun.
  destruct (no_edges (swappable_edges v zeros)) eqn:En.
  { injection Hrun as <- <-. split_and!; try done.
    intros solution [= <-]. split; [apply zeros_boolean|by left]. }
  apply no_edges_false in En as (l & El & Hl). rewrite El in Hrun. simpl default in Hrun.
  destruct (random_choice_run tape l w Hl) as (x & Hx & Hc). rewrite Hc in Hrun.
  unfold lift_result in Hrun. injection Hrun as <- <-. split_and!; try done.
  intros solution Hf. split.
  - eapply flip_boolean; [apply zeros_boolean|exact Hf].
  - right. apply flip_Ok in Hf as (k & y & Hk & Hy & ->).
    apply lookup_replicate in Hy as [-> _]. exists l, x, k. done.
Qed.

(** A neighbour: one more call in the trace, an error when no edge is
    eligible, and a valid solution when it returns. *)
Lemma neighbour_run (solution : list Z) (w : AWorld) (v : StateView)
    (r : result (list Z)) (w' : AWorld) :
  fst (observe s (store w)) = Ok v ->
  neighbour solution w = (r, w') ->
  store w' = store w /\
  trace w' = trace w ++ [Neighbour] /\
  (no_edges (swappable_edges v solution) = true ->
   r = Raise (RuntimeError RanOutOfEdges)) /\
  (forall solution', r = Ok solution' ->
     boolean_array solution ->
     boolean_array solution' /\
     valid_solution (edges (annealer_device self)) (protected_edges v) solution').
Proof.
  intros Hv Hrun. unfold get_neighbour_solution, bind, log, modify in Hrun.
  cbn [fst snd store draws trace] in Hrun.
  rewrite (on_store_observe s _ v) in Hrun by done.
  destruct (no_edges (swappable_edges v solution)) eqn:En.
  { injection Hrun as <- <-. split_and!; done. }
  apply no_edges_false in En as (l & El & Hl). rewrite El in Hrun.
  simpl default in Hrun.
  match type of Hrun with context [random_choice tape l ?w1] =>
    destruct (random_choice_run tape l w1 Hl) as (x & Hx & Hc) end.
  rewrite Hc in Hrun. unfold lift_result in Hrun.
  destruct (flip solution x) as [solution1|e] eqn:Ef.
  2:{ injection Hrun as <- <-. split_and!; done. }
  cbn [fst snd store draws trace] in Hrun.
  rewrite (on_store_observe s _ v) in Hrun by done.
  destruct (check_valid_solution self solution1 (protected_edges v)) as [[]|e] eqn:Ec.
  2:{ injection Hrun as <- <-. split_and!; done. }
  injection Hrun as <- <-. split_and!; try done.
  intros solution' [= <-] Hb.
  assert (boolean_array solution1) by (by eapply flip_boolean).
  split; [done|]. by apply check_valid_solution_sound.
Qed.

Lemma energy_run (solution : list Z) (w : AWorld) (v : StateView) :
  fst (observe s (store w)) = Ok v ->
  energy_of solution w =
    (oracle solution v action_chooser,
     {| store := store w; draws := draws w; trace := trace w ++ [Energy solution] |}).
Proof.
  intros Hv. unfold get_energy, bind, log, modify.
  rewrite (on_store_observe s _ v) by done.
  unfold lift_result. by destruct (oracle solution v action_chooser).
Qed.

Variable search_limit : option Z.

Local Abbreviation loop :=
  (fun fuel => anneal_loop E E_ltb exp_minus_diff_over oracle swappable_edges protected_edges
     tape fuel self s action_chooser search_limit).
Local Abbreviation search :=
  (fun fuel => search_from E E_ltb exp_minus_diff_over oracle swappable_edges protected_edges
     tape fuel self s action_chooser search_limit).
Local Abbreviation annealing :=
  (fun fuel => simulated_annealing E E_ltb exp_minus_diff_over oracle swappable_edges
     protected_edges tape fuel self s action_chooser search_limit).

(** One pass through the body of the loop. *)
Lemma body_run (v : locals E) (w : AWorld) (view : StateView)
    (r : result (locals E)) (w' : AWorld) :
  fst (observe s (store w)) = Ok view ->
  body v w = (r, w') ->
  store w' = store w /\
  (exists tr, trace w' = trace w ++ Iteration (temp E v) :: Neighbour :: tr /\
              iteration_temps tr = [] /\ neighbour_count tr = 0%nat) /\
  (forall v', r = Ok v' ->
     temp E v' = (temp E v * cooling_multiplier self)%float /\
     iterations E v' = iterations E v + 1 /\
     (candidates_valid (edges (annealer_device self)) (protected_edges view) v ->
      candidates_valid (edges (annealer_device self)) (protected_edges view) v')).
Proof.
  intros Hv Hrun. unfold anneal_body, bind, log, modify in Hrun.
  cbn [fst snd store draws trace] in Hrun.
  match type of Hrun with context [get_neighbour_solution _ _ _ _ ?sol _ ?w1] =>
    destruct (neighbour sol w1) as [rn wn] eqn:Hn;
    destruct (neighbour_run sol w1 view rn wn Hv Hn) as (Hs1 & Ht1 & _ & Hvalid)
  end.
  cbn [store trace] in Hs1, Ht1.
  destruct rn as [new_solution|e].
  2:{ injection Hrun as <- <-. split; [done|]. split; [|done].
      exists []. rewrite Ht1, <- app_assoc. done. }
  rewrite (energy_run new_solution wn view) in Hrun by (by rewrite Hs1).
  destruct (oracle new_solution view action_chooser) as [new_energy|e].
  2:{ injection Hrun as <- <-. cbn [store trace]. split; [done|]. split; [|done].
      exists [Energy new_solution]. rewrite Ht1, <- !app_assoc. done. }
  unfold random_random, next_draw, ret in Hrun. cbn [fst snd store draws trace] in Hrun.
  injection Hrun as <- <-. cbn [store trace]. split; [done|]. split.
  { exists [Energy new_solution]. rewrite Ht1, <- !app_assoc. done. }
  intros v' [= <-]. cbn [temp iterations].
  split; [destruct (ltb _ _); [destruct (E_ltb _ _)|]; done|].
  split; [destruct (ltb _ _); [destruct (E_ltb _ _)|]; done|].
  intros (Hbc & Hbb & Hvb).
  destruct (Hvalid new_solution eq_refl Hbc) as [Hb' Hv'].
  unfold candidates_valid.
  destruct (ltb _ _); [destruct (E_ltb _ _)|]; cbn [current_solution best_solution]; done.
Qed.

Lemma iteration_temps_body (tr0 tr : list event) (t : float) :
  iteration_temps tr = [] ->
  iteration_temps (tr0 ++ Iteration t :: Neighbour :: tr) = iteration_temps tr0 ++ [t].
Proof. intros H. rewrite iteration_temps_app. simpl. by rewrite H. Qed.

Lemma neighbour_count_body (tr0 tr : list event) (t : float) :
  neighbour_count tr = 0%nat ->
  neighbour_count (tr0 ++ Iteration t :: Neighbour :: tr) = S (neighbour_count tr0).
Proof. intros H. rewrite neighbour_count_app. simpl. rewrite H. lia. Qed.

Lemma anneal_loop_eq (fuel : nat) (v : locals E) :
  loop fuel v =
    if ltb (min_temperature self) (temp E v) then
      if match search_limit with
         | Some limit => limit <? iterations E v
         | None => false
         end
      then ret (Some v)
      else match fuel with
           | O => ret None
           | S fuel' => bind (body v) (loop fuel')
           end
    else ret (Some v).
Proof. by destruct fuel. Qed.

(** The loop left at once. *)
Lemma loop_stop (view : StateView) (fuel k : nat) (v : locals E) (w : AWorld)
    (r : result (option (locals E))) (w' : AWorld) :
  (Ok (Some v), w) = (r, w') ->
  store w' = store w /\
  (exists m,
     iteration_temps (trace w') =
       iteration_temps (trace w) ++ (temperature_after self <$> seq k m) /\
     neighbour_count (trace w') = (neighbour_count (trace w) + m)%nat /\
     (forall bound, (k <= bound)%nat ->
        ltb (min_temperature self) (temperature_after self bound) = false ->
        (k + m <= bound)%nat /\ ((bound <= k + fuel)%nat -> r <> Ok None))) /\
  (forall vf, r = Ok (Some vf) ->
     candidates_valid (edges (annealer_device self)) (protected_edges view) v ->
     candidates_valid (edges (annealer_device self)) (protected_edges view) vf).
Proof.
  intros [= <- <-]. split; [done|]. split.
  { exists 0%nat. simpl. rewrite app_nil_r. split_and!; try done.
    intros bound Hk _. split; [lia|done]. }
  by intros vf [= <-].
Qed.

(** The loop, entered after [k] coolings: it runs its body at the
    temperatures of the cooling schedule; when the schedule is cold after
    [bound] coolings the loop is left by then and needs no more fuel than
    that; and it keeps its candidates valid. *)
Lemma loop_run (view : StateView) :
  forall (fuel k : nat) (v : locals E) (w : AWorld)
         (r : result (option (locals E))) (w' : AWorld),
  fst (observe s (store w)) = Ok view ->
  temp E v = temperature_after self k ->
  loop fuel v w = (r, w') ->
  store w' = store w /\
  (exists m,
     iteration_temps (trace w') =
       iteration_temps (trace w) ++ (temperature_after self <$> seq k m) /\
     neighbour_count (trace w') = (neighbour_count (trace w) + m)%nat /\
     (forall bound, (k <= bound)%nat ->
        ltb (min_temperature self) (temperature_after self bound) = false ->
        (k + m <= bound)%nat /\ ((bound <= k + fuel)%nat -> r <> Ok None))) /\
  (forall vf, r = Ok (Some vf) ->
     candidates_valid (edges (annealer_device self)) (protected_edges view) v ->
     candidates_valid (edges (annealer_device self)) (protected_edges view) vf).
Proof.
  induction fuel as [|fuel IH]; intros k v w r w' Hv Htemp Hrun;
    rewrite anneal_loop_eq in Hrun.
  - destruct (ltb (min_temperature self) (temp E v)) eqn:Ehot; [|by eapply loop_stop].
    destruct (match search_limit with Some limit => limit <? iterations E v | None => false end);
      [by eapply loop_stop|].
    injection Hrun as <- <-. split; [done|]. split; [|done].
    exists 0%nat. simpl. rewrite app_nil_r. split_and!; try done.
    intros bound Hk Hcold. assert (k <> bound) by (intros ->; congruence). lia.
  - destruct (ltb (min_temperature self) (temp E v)) eqn:Ehot; [|by eapply loop_stop].
    destruct (match search_limit with Some limit => limit <? iterations E v | None => false end);
      [by eapply loop_stop|].
    unfold bind in Hrun.
    destruct (body v w) as [rb wb] eqn:Hb.
    destruct (body_run v w view rb wb Hv Hb) as (Hs & (tr & Htr & Hit & Hnc) & Hnext).
    destruct rb as [v1|e].
    + destruct (Hnext v1 eq_refl) as (Ht1 & _ & Hinv1).
      destruct (IH (S k) v1 wb r w') as (Hs' & (m & Hits & Hncs & Hbound) & Hinv');
        [by rewrite Hs|by rewrite Ht1, Htemp|done|].
      split; [by rewrite Hs', Hs|]. split.
      * exists (S m). rewrite Hits, Hncs, Htr.
        rewrite iteration_temps_body, neighbour_count_body by done.
        rewrite <- app_assoc. simpl. rewrite Htemp. split; [done|]. split; [lia|].
        intros bound Hk Hcold. assert (k <> bound) by (intros ->; congruence).
        destruct (Hbound bound) as [Hm Hfuel]; [lia|done|].
        split; [lia|]. intros Hb'. apply Hfuel. lia.
      * intros vf Hvf Hinv. apply (Hinv' vf Hvf). by apply Hinv1.
    + injection Hrun as <- <-. split; [done|]. split; [|done].
      exists 1%nat. rewrite Htr.
      rewrite iteration_temps_body, neighbour_count_body by done.
      simpl. rewrite Htemp. split; [done|]. split; [lia|].
      intros bound Hk Hcold. assert (k <> bound) by (intros ->; congruence).
      split; [lia|done].
Qed.

(** The search from the test of the initial solution on. *)
Lemma search_run (view : StateView) (fuel : nat) (solution0 : list Z) (w : AWorld)
    (r : result (option (list Z * energy E))) (w' : AWorld) :
  fst (observe s (store w)) = Ok view ->
  search fuel solution0 w = (r, w') ->
  store w' = store w /\
  (forallb (fun x => x =? 0) solution0 = true ->
   r = Ok (Some (solution0, if String.eqb action_chooser "model" then NegInf else Zero)) /\
   w' = w) /\
  (exists m,
     iteration_temps (trace w') =
       iteration_temps (trace w) ++ (temperature_after self <$> seq 0 m) /\
     neighbour_count (trace w') = (neighbour_count (trace w) + m)%nat /\
     (forall bound,
        ltb (min_temperature self) (temperature_after self bound) = false ->
        (m <= bound)%nat /\ ((bound <= fuel)%nat -> r <> Ok None))) /\
  (forall solution en, r = Ok (Some (solution, en)) ->
     valid_solution (edges (annealer_device self)) (protected_edges view) solution0 ->
     valid_solution (edges (annealer_device self)) (protected_edges view) solution).
Proof.
  intros Hv Hrun. unfold search_from in Hrun.
  destruct (forallb (fun x => x =? 0) solution0) eqn:Ez.
  { assert (Hr : (r, w') = (Ok (Some (solution0,
                    if String.eqb action_chooser "model" then NegInf else Zero)), w)).
    { by destruct (String.eqb action_chooser "model"); injection Hrun as <- <-. }
    injection Hr as -> ->. split; [done|]. split; [done|]. split.
    { exists 0%nat. simpl. rewrite app_nil_r. split_and!; try done.
      intros bound _. split; [lia|done]. }
    by intros solution en [= <- _]. }
  unfold bind in Hrun. rewrite (energy_run solution0 w view Hv) in Hrun.
  destruct (oracle solution0 view action_chooser) as [energy0|e].
  2:{ injection Hrun as <- <-. cbn [store trace]. split; [done|]. split; [done|]. split.
      { exists 0%nat. simpl. rewrite iteration_temps_app, neighbour_count_app. simpl.
        split_and!; try (done || lia). intros bound _. split; [lia|done]. }
      done. }
  match type of Hrun with context [anneal_loop _ _ _ _ _ _ _ _ _ _ _ _ ?v0 ?w0] =>
    destruct (loop fuel v0 w0) as [rl wl] eqn:Hl;
    destruct (loop_run view fuel 0 v0 w0 rl wl)
      as (Hs & (m & Hits & Hnc & Hbound) & Hinv); [done|done|done|]
  end.
  cbn [store trace] in Hs, Hits, Hnc.
  rewrite iteration_temps_app in Hits. rewrite neighbour_count_app in Hnc.
  simpl in Hits, Hnc. rewrite app_nil_r in Hits. rewrite Nat.add_0_r in Hnc.
  assert (Hr : r = match rl with
                   | Ok ov => Ok ((fun v => (best_solution E v, Tensor (best_energy E v))) <$> ov)
                   | Raise e => Raise e
                   end /\ w' = wl).
  { destruct rl; by injection Hrun as <- <-. }
  destruct Hr as [-> ->]. split; [done|]. split; [done|]. split.
  - exists m. split; [done|]. split; [done|]. intros bound Hcold.
    destruct (Hbound bound) as [Hm Hfuel]; [lia|done|]. split; [lia|].
    intros Hb. specialize (Hfuel Hb). destruct rl as [[vf|]|e]; done.
  - intros solution en Hr Hvalid. destruct rl as [[vf|]|e]; try done.
    simpl in Hr. injection Hr as <- _.
    apply (Hinv vf eq_refl). unfold candidates_valid. cbn [current_solution best_solution].
    destruct Hvalid as [Hb ?]. done.
Qed.

(** With a budget of zero and a start above the minimal temperature, a
    search that gets through its loop has passed through the body once. *)
Lemma search_zero_budget (view : StateView) (fuel : nat) (solution0 : list Z) (w : AWorld)
    (solution : list Z) (e : E) (w' : AWorld) :
  search_limit = Some 0 ->
  ltb (min_temperature self) (initial_temperature self) = true ->
  fst (observe s (store w)) = Ok view ->
  search (S fuel) solution0 w = (Ok (Some (solution, Tensor e)), w') ->
  neighbour_count (trace w') = S (neighbour_count (trace w)).
Proof.
  intros Hlimit Hhot Hv Hrun. unfold search_from in Hrun.
  destruct (forallb (fun x => x =? 0) solution0).
  { by destruct (String.eqb action_chooser "model"). }
  unfold bind in Hrun. rewrite (energy_run solution0 w view Hv) in Hrun.
  destruct (oracle solution0 view action_chooser) as [energy0|]; [|done].
  assert (Hl0 : match search_limit with
                | Some limit => limit <? 0
                | None => false
                end = false) by (by rewrite Hlimit).
  assert (Hl1 : match search_limit with
                | Some limit => limit <? 0 + 1
                | None => false
                end = true) by (by rewrite Hlimit).
  rewrite anneal_loop_eq in Hrun. cbn [temp iterations] in Hrun.
  rewrite Hhot, Hl0 in Hrun. unfold bind in Hrun.
  match type of Hrun with context [anneal_body _ _ _ _ _ _ _ _ _ _ ?v0 ?w0] =>
    destruct (body v0 w0) as [rb wb] eqn:Hb;
    destruct (body_run v0 w0 view rb wb Hv Hb) as (Hs & (tr & Htr & _ & Hnc) & Hnext)
  end.
  destruct rb as [v1|]; [|done].
  destruct (Hnext v1 eq_refl) as (_ & Hit & _). cbn [iterations] in Hit.
  rewrite anneal_loop_eq, Hit, Hl1 in Hrun.
  assert (w' = wb) as ->.
  { by destruct (ltb (min_temperature self) (temp E v1)); injection Hrun as _ _ <-. }
  rewrite Htr. cbn [trace]. rewrite neighbour_count_body by done.
  rewrite neighbour_count_app. simpl. lia.
Qed.

(** The whole of [simulated_annealing]. *)
Lemma annealing_run (view : StateView) (fuel : nat) (w : AWorld)
    (r : result (option (list Z * energy E))) (w' : AWorld) :
  length (circuit s) = n_nodes (device s) ->
  fst (observe s (store w)) = Ok view ->
  annealing fuel w = (r, w') ->
  store w ⊆ store w' /\
  (no_edges (swappable_edges view zeros) = true ->
   r = Ok (Some (zeros, if String.eqb action_chooser "model" then NegInf else Zero)) /\
   draws w' = draws w /\ trace w' = trace w) /\
  (exists m,
     iteration_temps (trace w') =
       iteration_temps (trace w) ++ (temperature_after self <$> seq 0 m) /\
     neighbour_count (trace w') = (neighbour_count (trace w) + m)%nat /\
     (forall bound,
        ltb (min_temperature self) (temperature_after self bound) = false ->
        (m <= bound)%nat /\ ((bound <= fuel)%nat -> r <> Ok None))) /\
  ((forall available i k,
      swappable_edges view zeros = Some available -> i ∈ available ->
      np_index (length zeros) i = Some k -> protected_edges view !! k = Some false) ->
   forall solution en, r = Ok (Some (solution, en)) ->
     valid_solution (edges (annealer_device self)) (protected_edges view) solution) /\
  (search_limit = Some 0 ->
   ltb (min_temperature self) (initial_temperature self) = true ->
   (0 < fuel)%nat ->
   forall solution e, r = Ok (Some (solution, Tensor e)) ->
     neighbour_count (trace w') = S (neighbour_count (trace w))).
Proof.
  intros Hlen Hv Hrun. unfold simulated_annealing, bind in Hrun.
  destruct (on_store_copy s w view Hlen Hv) as (c1 & h1 & Hc1 & Hsub1 & Hv1).
  rewrite Hc1 in Hrun.
  set (w1 := {| store := h1; draws := draws w; trace := trace w |}) in *.
  assert (Hview1 : fst (observe s h1) = Ok view) by (by eapply observe_weaken).
  destruct (initial w1) as [r0 w2] eqn:Hi.
  destruct (initial_run w1 view r0 w2 Hview1 Hi) as (Hs2 & Ht2 & Hnone & Hsome).
  unfold w1 in Hs2, Ht2, Hnone. cbn [store trace] in Hs2, Ht2.
  destruct r0 as [solution0|e].
  2:{ injection Hrun as <- <-. rewrite Hs2, Ht2. split; [done|]. split.
      { intros Hn. by destruct (Hnone Hn). }
      split; [|done]. exists 0%nat. simpl. rewrite app_nil_r. split_and!; try done.
      intros bound _. split; [lia|done]. }
  assert (Hzb : search_limit = Some 0 ->
            ltb (min_temperature self) (initial_temperature self) = true ->
            (0 < fuel)%nat ->
            forall solution e, r = Ok (Some (solution, Tensor e)) ->
              neighbour_count (trace w') = S (neighbour_count (trace w))).
  { intros Hlimit Hhot Hfuel solution e ->. destruct fuel as [|fuel']; [lia|].
    assert (Hview2 : fst (observe s (store w2)) = Ok view) by (by rewrite Hs2).
    destruct (on_store_copy s w2 view Hlen Hview2) as (c2 & h3 & Hc2 & Hsub3 & Hv3).
    rewrite Hc2 in Hrun. rewrite Hs2 in Hsub3.
    unfold on_store at 1 in Hrun. cbn [store draws trace] in Hrun.
    rewrite (eq_same_view c1 c2 h3 view) in Hrun; [|by eapply observe_weaken|done].
    cbn [negb] in Hrun. rewrite <- Ht2.
    apply (search_zero_budget view fuel' solution0
             {| store := h3; draws := draws w2; trace := trace w2 |}
             solution e w' Hlimit Hhot); [|exact Hrun].
    exact (observe_weaken s h1 h3 view Hview1 Hsub3). }
  assert (Hview2 : fst (observe s (store w2)) = Ok view) by (by rewrite Hs2).
  destruct (on_store_copy s w2 view Hlen Hview2) as (c2 & h3 & Hc2 & Hsub3 & Hv3).
  rewrite Hc2 in Hrun. rewrite Hs2 in Hsub3.
  unfold on_store at 1 in Hrun. cbn [store draws trace] in Hrun.
  rewrite (eq_same_view c1 c2 h3 view) in Hrun; [|by eapply observe_weaken|done].
  cbn [negb] in Hrun.
  assert (Hview3 : fst (observe s h3) = Ok view)
    by exact (observe_weaken s h1 h3 view Hview1 Hsub3).
  match type of Hrun with context [search_from _ _ _ _ _ _ _ _ _ _ _ _ _ ?w3] =>
    destruct (search_run view fuel solution0 w3 r w' Hview3 Hrun)
      as (Hs & Hzero & Hiter & Hvalid)
  end.
  cbn [store trace] in Hs, Hiter. rewrite Ht2 in Hiter.
  split; [rewrite Hs; by transitivity h1|]. split; [|split; [done|split; [|done]]].
  - intros Hn. destruct (Hnone Hn) as [[= ->] ->].
    destruct Hzero as [-> ->].
    { apply forallb_forall. intros x Hx. apply list_elem_of_In, elem_of_replicate in Hx as [-> _].
      done. }
    done.
  - intros Hinit solution en Hr. apply (Hvalid solution en Hr).
    destruct (Hsome solution0 eq_refl) as [_ [->|(available & i & k & Ha & Hi' & Hk & ->)]].
    + apply zeros_valid.
    + apply single_valid. by eapply Hinit.
Qed.

End Search.

(** ** C3: the solutions of the search are valid *)







(** ** C6: no eligible edge *)

(** C6.  When no edge is eligible for the initial candidate, the candidate
    is the all-zero solution and [simulated_annealing] returns it at once,
    a normal return: no random draw, no pass through the loop, no call of
    the energy oracle (the trace of the search is empty).  Running out of
    eligible edges when a neighbour is proposed is something else, the
    [RuntimeError] "Ran out of edges to swap". *)
Theorem no_eligible_edge_returns_at_once
    (E : Type) (E_ltb : E -> E -> bool) (exp_minus_diff_over : E -> E -> float -> float)
    (oracle : list Z -> StateView -> string -> result E)
    (swappable_edges : StateView -> list Z -> option (list Z))
    (protected_edges : StateView -> list bool) (tape : Tape)
    (fuel : nat) (self : AnnealerDQN) (s : CircuitStateDQN)
    (action_chooser : string) (search_limit : option Z)
    (view : StateView) (w : AWorld) :
  length (circuit s) = n_nodes (device s) ->
  fst (observe s (store w)) = Ok view ->
  no_edges (swappable_edges view (replicate (length (edges (annealer_device self))) 0)) = true ->
  (exists w',
     simulated_annealing E E_ltb exp_minus_diff_over oracle swappable_edges protected_edges
       tape fuel self s action_chooser search_limit w =
       (Ok (Some (replicate (length (edges (annealer_device self))) 0,
                  if String.eqb action_chooser "model" then NegInf else Zero)), w') /\
     draws w' = draws w /\ trace w' = trace w) /\
  (forall (candidate : list Z) (w1 : AWorld) (view1 : StateView),
     fst (observe s (store w1)) = Ok view1 ->
     no_edges (swappable_edges view1 candidate) = true ->
     fst (get_neighbour_solution swappable_edges protected_edges tape self candidate s w1)
       = Raise (RuntimeError RanOutOfEdges)).
Proof.
  intros Hlen Hv Hnone. split.
  - destruct (simulated_annealing E E_ltb exp_minus_diff_over oracle swappable_edges
                protected_edges tape fuel self s action_chooser search_limit w)
      as [r w'] eqn:Hrun.
    destruct (annealing_run E E_ltb exp_minus_diff_over oracle swappable_edges
                protected_edges tape self s action_chooser search_limit view fuel w r w'
                Hlen Hv Hrun) as (_ & Hzero & _).
    destruct (Hzero Hnone) as (-> & Hd & Ht). by exists w'.
  - intros candidate w1 view1 Hv1 Hn.
    destruct (get_neighbour_solution swappable_edges protected_edges tape self candidate s w1)
      as [r w2] eqn:Hrun.
    destruct (neighbour_run swappable_edges protected_edges tape self s candidate w1 view1
                r w2 Hv1 Hrun) as (_ & _ & Hraise & _).
    simpl. by apply Hraise.
Qed.

Lemma no_eligible_edge_returns_at_once_witness :
  (exists w',
     example_search 0 None all_locked_world =
       (Ok (Some (replicate (length (edges (annealer_device path_annealer))) 0,
                  if String.eqb "model" "model" then NegInf else Zero)), w') /\
     draws w' = draws all_locked_world /\ trace w' = trace all_locked_world) /\
  (forall (candidate : list Z) (w1 : AWorld) (view1 : StateView),
     fst (observe path_state (store w1)) = Ok view1 ->
     no_edges (swappable_edges_of view1 candidate) = true ->
     fst (get_neighbour_solution swappable_edges_of protected_edges_of constant_tape
            path_annealer candidate path_state w1)
       = Raise (RuntimeError RanOutOfEdges)).
Proof.
  apply (no_eligible_edge_returns_at_once Z Z.ltb (fun _ _ _ => 0%float) swap_count_oracle
           swappable_edges_of protected_edges_of constant_tape
           0 path_annealer path_state "model" None
           {| view_circuit := path_circuit; view_device := path_device;
              view_node_to_qubit := [0; 1; 2]; view_qubit_targets := [2; -1; 0];
              view_circuit_progress := [0; 0; 0]; view_locked_edges := [1; 3] |}
           all_locked_world).
  - reflexivity.
  - reflexivity.
  - reflexivity.
Defined.

(** ** C5: the cooling schedule *)

Local Open Scope R_scope.

Lemma pow_ratio (a b : Z) (n : nat) :
  (IZR a / IZR b) ^ n = IZR (a ^ Z.of_nat n) / IZR (b ^ Z.of_nat n).
Proof. unfold Rdiv. by rewrite Rpow_mult_distr, pow_inv, !pow_IZR. Qed.

Lemma ratio_le (y x c : R) : 0 < x -> c * y <= x -> 0 < c -> y / x <= 1 / c.
Proof.
  intros Hx H Hc. replace (1 / c) with ((x / c) * / x) by (field; lra).
  unfold Rdiv at 1. apply Rmult_le_compat_r; [left; by apply Rinv_0_lt_compat|].
  apply Rmult_le_reg_l with (r := c); [done|].
  by replace (c * (x / c)) with x by (field; lra).
Qed.

Lemma ratio_lt (y x c : R) : 0 < x -> x < c * y -> 0 < c -> 1 / c < y / x.
Proof.
  intros Hx H Hc. replace (1 / c) with ((x / c) * / x) by (field; lra).
  unfold Rdiv at 2. apply Rmult_lt_compat_r; [by apply Rinv_0_lt_compat|].
  apply Rmult_lt_reg_l with (r := c); [done|].
  by replace (c * (x / c)) with x by (field; lra).
Qed.

(** In real numbers, the least number of coolings by 0.95 that brings 60.0
    down to 0.1. *)
Lemma iteration_bound_is_ceiling :
  INR iteration_bound - 1 < ln (0.1 / 60) / ln 0.95 <= INR iteration_bound.
Proof.
  assert (Hln : ln 0.95 < 0).
  { rewrite <- ln_1. apply ln_increasing; lra. }
  assert (Hpow : forall n : nat, INR n * ln 0.95 = ln (0.95 ^ n)).
  { intros n. symmetry. apply ln_pow. lra. }
  assert (Hbig : forall n : nat, 0 < IZR (100 ^ Z.of_nat n)).
  { intros n. apply IZR_lt. apply Z.pow_pos_nonneg; lia. }
  assert (Hform : forall n : nat,
            0.95 ^ n = IZR (95 ^ Z.of_nat n) / IZR (100 ^ Z.of_nat n)).
  { intros n. by rewrite <- pow_ratio. }
  assert (Hq : 0.1 / 60 = 1 / 600) by lra.
  assert (H125 : 0.95 ^ 125 <= 0.1 / 60).
  { rewrite Hform, Hq. apply ratio_le; [apply Hbig| |lra].
    rewrite <- mult_IZR. apply IZR_le. vm_compute. discriminate. }
  assert (H124 : 0.1 / 60 < 0.95 ^ 124).
  { rewrite Hform, Hq. apply ratio_lt; [apply Hbig| |lra].
    rewrite <- mult_IZR. apply IZR_lt. vm_compute. reflexivity. }
  assert (Hpos : forall n : nat, 0 < 0.95 ^ n) by (intros n; apply pow_lt; lra).
  assert (L125 : INR 125 * ln 0.95 <= ln (0.1 / 60)).
  { rewrite Hpow. destruct H125 as [Hlt|Heq].
    - left. apply ln_increasing; [apply Hpos|done].
    - right. by rewrite Heq. }
  assert (L124 : ln (0.1 / 60) < INR 124 * ln 0.95).
  { rewrite Hpow. apply ln_increasing; [lra|done]. }
  replace (INR 125) with (IZR 125) in L125 by (rewrite INR_IZR_INZ; f_equal).
  replace (INR 124) with (IZR 124) in L124 by (rewrite INR_IZR_INZ; f_equal).
  replace (INR iteration_bound) with (IZR 125) by (rewrite INR_IZR_INZ; f_equal).
  set (x := ln (0.1 / 60)) in *. set (y := ln 0.95) in *.
  split.
  - apply Rmult_lt_reg_r with (r := - y); [lra|].
    replace (x / y * - y) with (- x) by (field; lra). lra.
  - apply Rmult_le_reg_r with (r := - y); [lra|].
    replace (x / y * - y) with (- x) by (field; lra). lra.
Qed.

Local Close Scope R_scope.

(** The schedule in binary64: below the minimum after 125 coolings, and
    going down at every cooling until then. *)
Lemma schedule_cold (dev : DeviceTopology) :
  ltb (min_temperature (AnnealerDQN__init__ dev))
      (temperature_after (AnnealerDQN__init__ dev) iteration_bound) = false.
Proof. vm_compute. reflexivity. Qed.

Lemma schedule_decreasing (dev : DeviceTopology) (k : nat) :
  (k < iteration_bound)%nat ->
  ltb (temperature_after (AnnealerDQN__init__ dev) (S k))
      (temperature_after (AnnealerDQN__init__ dev) k) = true.
Proof.
  intros Hk.
  assert (Hall : forallb (fun k => ltb (temperature_after path_annealer (S k))
                                      (temperature_after path_annealer k))
                   (seq 0 iteration_bound) = true) by (vm_compute; reflexivity).
  rewrite forallb_forall in Hall.
  change (temperature_after (AnnealerDQN__init__ dev)) with (temperature_after path_annealer).
  apply Hall. apply in_seq. lia.
Qed.

(** C5.  The cooling rate of [AnnealerDQN] is strictly between 0 and 1; a
    run of [simulated_annealing] passes through the body of its loop at the
    temperatures 60.0, 60.0 * 0.95, (60.0 * 0.95) * 0.95, ... of the
    schedule, each strictly below the one before; whatever the iteration
    budget it does so at most 125 times, and the loop is left within that
    many passes; and 125 is the ceiling of log(0.1 / 60.0) / log(0.95). *)
Theorem annealing_cools_and_stops
    (E : Type) (E_ltb : E -> E -> bool) (exp_minus_diff_over : E -> E -> float -> float)
    (oracle : list Z -> StateView -> string -> result E)
    (swappable_edges : StateView -> list Z -> option (list Z))
    (protected_edges : StateView -> list bool) (tape : Tape)
    (fuel : nat) (dev : DeviceTopology) (s : CircuitStateDQN)
    (action_chooser : string) (search_limit : option Z)
    (view : StateView) (w w' : AWorld) (r : result (option (list Z * energy E))) :
  length (circuit s) = n_nodes (device s) ->
  fst (observe s (store w)) = Ok view ->
  simulated_annealing E E_ltb exp_minus_diff_over oracle swappable_edges protected_edges
    tape fuel (AnnealerDQN__init__ dev) s action_chooser search_limit w = (r, w') ->
  (ltb 0 (cooling_multiplier (AnnealerDQN__init__ dev)) = true /\
   ltb (cooling_multiplier (AnnealerDQN__init__ dev)) 1 = true) /\
  (exists m, (m <= iteration_bound)%nat /\
     iteration_temps (trace w') =
       iteration_temps (trace w) ++
       (temperature_after (AnnealerDQN__init__ dev) <$> seq 0 m) /\
     strictly_decreasing (temperature_after (AnnealerDQN__init__ dev) <$> seq 0 m)) /\
  ((iteration_bound <= fuel)%nat -> r <> Ok None) /\
  (INR iteration_bound - 1 < ln (0.1 / 60) / ln 0.95 <= INR iteration_bound)%R.
Proof.
  intros Hlen Hv Hrun.
  split; [split; vm_compute; reflexivity|].
  destruct (annealing_run E E_ltb exp_minus_diff_over oracle swappable_edges
              protected_edges tape (AnnealerDQN__init__ dev) s action_chooser search_limit
              view fuel w r w' Hlen Hv Hrun) as (_ & _ & (m & Hits & _ & Hbound) & _).
  destruct (Hbound iteration_bound (schedule_cold dev)) as [Hm Hfuel].
  split; [|split; [exact Hfuel|exact iteration_bound_is_ceiling]].
  exists m. split; [done|]. split; [done|].
  intros i x y Hx Hy. rewrite list_lookup_fmap in Hx, Hy.
  destruct (seq 0 m !! i) as [k|] eqn:Ek; [|done].
  destruct (seq 0 m !! S i) as [k'|] eqn:Ek'; [|done].
  apply lookup_seq in Ek as [-> _]. apply lookup_seq in Ek' as [-> Hlt].
  simpl in Hx, Hy. injection Hx as <-. injection Hy as <-.
  apply schedule_decreasing. lia.
Qed.

Lemma annealing_cools_and_stops_witness :
  (ltb 0 (cooling_multiplier (AnnealerDQN__init__ path_device)) = true /\
   ltb (cooling_multiplier (AnnealerDQN__init__ path_device)) 1 = true) /\
  (exists m, (m <= iteration_bound)%nat /\
     iteration_temps (trace (snd (example_search 125 None path_world))) =
       iteration_temps (trace path_world) ++
       (temperature_after (AnnealerDQN__init__ path_device) <$> seq 0 m) /\
     strictly_decreasing (temperature_after (AnnealerDQN__init__ path_device) <$> seq 0 m)) /\
  ((iteration_bound <= 125)%nat -> fst (example_search 125 None path_world) <> Ok None) /\
  (INR iteration_bound - 1 < ln (0.1 / 60) / ln 0.95 <= INR iteration_bound)%R.
Proof.
  apply (annealing_cools_and_stops Z Z.ltb (fun _ _ _ => 0%float) swap_count_oracle
           swappable_edges_of protected_edges_of constant_tape
           125 path_device path_state "model" None
           {| view_circuit := path_circuit; view_device := path_device;
              view_node_to_qubit := [0; 1; 2]; view_qubit_targets := [2; -1; 0];
              view_circuit_progress := [0; 0; 0]; view_locked_edges := [0; 0] |}
           path_world).
  - reflexivity.
  - reflexivity.
  - vm_compute. reflexivity.
Defined.

(** ** C7: a budget of zero *)

(** On the path, with a budget of zero: both edges are eligible, the
    initial candidate is [[1; 0]], one neighbour is proposed and scored in
    one pass through the loop, it is accepted, and the search returns the
    neighbour [[0; 0]], not the initial candidate. *)
Lemma zero_budget_returns_neighbour :
  (view <- on_store (observe path_state) ;;
   ret (swappable_edges_of view [0; 0])) path_world = (Ok (Some [0; 1]), path_world) /\
  fst (generate_initial_solution swappable_edges_of constant_tape path_annealer path_state
         path_world) = Ok [1; 0] /\
  fst (example_search 200 (Some 0) path_world) = Ok (Some ([0; 0], Tensor 0)) /\
  trace (snd (example_search 200 (Some 0) path_world)) =
    [Energy [1; 0]; Iteration 60%float; Neighbour; Energy [0; 0]].
Proof. split_and!; vm_compute; reflexivity. Qed.

(** C7 (the code departs from it).  A budget of zero does not keep the
    search out of its loop: the test [iterations > search_limit] is false
    at the first pass, so whenever [simulated_annealing] with
    [search_limit = 0] returns a scored solution it has passed through the
    body of the loop once and proposed exactly one neighbour, which it may
    return instead of the initial candidate. *)
Theorem zero_budget_runs_the_loop_once
    (E : Type) (E_ltb : E -> E -> bool) (exp_minus_diff_over : E -> E -> float -> float)
    (oracle : list Z -> StateView -> string -> result E)
    (swappable_edges : StateView -> list Z -> option (list Z))
    (protected_edges : StateView -> list bool) (tape : Tape)
    (fuel : nat) (dev : DeviceTopology) (s : CircuitStateDQN)
    (action_chooser : string)
    (view : StateView) (w w' : AWorld) (solution : list Z) (e : E) :
  length (circuit s) = n_nodes (device s) ->
  fst (observe s (store w)) = Ok view ->
  (0 < fuel)%nat ->
  simulated_annealing E E_ltb exp_minus_diff_over oracle swappable_edges protected_edges
    tape fuel (AnnealerDQN__init__ dev) s action_chooser (Some 0) w
    = (Ok (Some (solution, Tensor e)), w') ->
  neighbour_count (trace w') = S (neighbour_count (trace w)).
Proof.
  intros Hlen Hv Hfuel Hrun.
  destruct (annealing_run E E_ltb exp_minus_diff_over oracle swappable_edges
              protected_edges tape (AnnealerDQN__init__ dev) s action_chooser (Some 0)
              view fuel w _ _ Hlen Hv Hrun) as (_ & _ & _ & _ & Hzero).
  by apply (Hzero eq_refl eq_refl Hfuel solution e).
Qed.

Lemma zero_budget_runs_the_loop_once_witness :
  neighbour_count (trace (snd (example_search 200 (Some 0) path_world)))
    = S (neighbour_count (trace path_world)).
Proof.
  apply (zero_budget_runs_the_loop_once Z Z.ltb (fun _ _ _ => 0%float) swap_count_oracle
           swappable_edges_of protected_edges_of constant_tape
           200 path_device path_state "model"
           {| view_circuit := path_circuit; view_device := path_device;
              view_node_to_qubit := [0; 1; 2]; view_qubit_targets := [2; -1; 0];
              view_circuit_progress := [0; 0; 0]; view_locked_edges := [0; 0] |}
           path_world (snd (example_search 200 (Some 0) path_world)) [0; 0] 0).
  - reflexivity.
  - reflexivity.
  - lia.
  - vm_compute. reflexivity.
Defined.

(** * Further properties of the routing state and of the search *)

(** ** What the operations of a routing state write *)

Lemma frames_empty_snd {A} (m : M heap A) (h : heap) : frames [] m -> snd (m h) = h.
Proof. intros Hm. apply map_eq. intros l. apply Hm. apply not_elem_of_nil. Qed.

Lemma frames_qubit_to_node (L : list loc) (s : CircuitStateDQN) :
  frames L (qubit_to_node s).
Proof.
  unfold qubit_to_node. apply frames_bind; [apply frames_deref|]. intros ntq.
  apply frames_foldM. intros acc [i v]. apply frames_lift_result.
Qed.

Lemma execute_swap_writes (s : CircuitStateDQN) (solution : list Z) :
  frames [_node_to_qubit s] (execute_swap s solution).
Proof.
  assert (H1 : _node_to_qubit s ∈ [_node_to_qubit s]) by apply list_elem_of_here.
  unfold execute_swap. apply frames_foldM. intros acc [[node1 node2] sol].
  frames_solve.
Qed.

Lemma execute_cnot_writes (s : CircuitStateDQN) :
  frames [_qubit_targets s; _circuit_progress s] (execute_cnot s).
Proof.
  assert (H1 : _qubit_targets s ∈ [_qubit_targets s; _circuit_progress s])
    by apply list_elem_of_here.
  assert (H2 : _circuit_progress s ∈ [_qubit_targets s; _circuit_progress s])
    by (apply list_elem_of_further, list_elem_of_here).
  unfold execute_cnot. apply frames_bind; [|intros gates; apply frames_bind].
  - unfold cnot_scan. apply frames_foldM. intros acc [n1 n2].
    unfold cnot_pass. frames_solve.
  - unfold update_targets. apply frames_for_each. intros q.
    unfold retarget_pass. frames_solve.
  - intros _. apply frames_ret.
Qed.

Lemma update_locks_writes (s : CircuitStateDQN)
    (mask : option (list Z)) (multiplier : option Z) :
  frames [_locked_edges s] (update_locks s mask multiplier).
Proof.
  assert (H1 : _locked_edges s ∈ [_locked_edges s]) by apply list_elem_of_here.
  unfold update_locks. destruct mask as [mask|]; [destruct multiplier as [k|]|];
    frames_solve.
Qed.

(** X1.  Whatever their outcome, also when they raise: [execute_swap]
    writes to the node-to-qubit array alone; [execute_cnot] to the targets
    and the progress alone; [update_locks] to the lock counters alone; and
    the views [is_done], [locked_edges], [qubit_to_node], [target_nodes],
    [target_distance], [remaining_targets] and the comparison [__eq__]
    leave the whole store as it is. *)
Theorem operations_write_their_arrays_only (s : CircuitStateDQN) (h : heap) :
  (forall solution l, l <> _node_to_qubit s ->
     snd (execute_swap s solution h) !! l = h !! l) /\
  (forall l, l <> _qubit_targets s -> l <> _circuit_progress s ->
     snd (execute_cnot s h) !! l = h !! l) /\
  (forall mask multiplier l, l <> _locked_edges s ->
     snd (update_locks s mask multiplier h) !! l = h !! l) /\
  snd (is_done s h) = h /\ snd (locked_edges s h) = h /\
  snd (qubit_to_node s h) = h /\ snd (target_nodes s h) = h /\
  snd (target_distance s h) = h /\ snd (remaining_targets s h) = h /\
  (forall other, snd (__eq__ s other h) = h).
Proof.
  split_and!.
  - intros solution l Hl. apply execute_swap_writes. by rewrite list_elem_of_singleton.
  - intros l Hqt Hcp. apply execute_cnot_writes. rewrite !elem_of_cons, elem_of_nil. tauto.
  - intros mask multiplier l Hl. apply update_locks_writes.
    by rewrite list_elem_of_singleton.
  - apply frames_empty_snd. unfold is_done. frames_solve.
  - apply frames_empty_snd. unfold locked_edges. frames_solve.
  - apply frames_empty_snd. apply frames_qubit_to_node.
  - apply frames_empty_snd. unfold target_nodes.
    apply frames_bind; [apply frames_qubit_to_node|]. intros q2n.
    apply frames_bind; [apply frames_deref|]. intros ntq.
    apply frames_bind; [apply frames_deref|]. intros qt.
    apply frames_foldM. intros acc [i v]. frames_solve.
  - apply frames_empty_snd. unfold target_distance.
    apply frames_bind; [apply frames_qubit_to_node|]. intros q2n.
    apply frames_bind; [apply frames_deref|]. intros ntq.
    apply frames_bind; [apply frames_deref|]. intros qt.
    apply frames_foldM. intros acc [i v]. frames_solve.
  - apply frames_empty_snd. unfold remaining_targets.
    apply frames_bind; [apply frames_qubit_to_node|]. intros q2n.
    apply frames_bind; [apply frames_deref|]. intros ntq.
    apply frames_bind; [apply frames_deref|]. intros cp.
    apply frames_foldM. intros acc [i v]. frames_solve.
  - intros other. apply frames_empty_snd. unfold __eq__, and_then, array_equal.
    frames_solve.
Qed.

(** ** The constructor *)

Lemma alloc_run (a : list Z) (h : heap) :
  exists l, alloc a h = (Ok l, <[l := a]> h) /\ h !! l = None.
Proof.
  exists (fresh (dom h)). split; [done|]. apply not_elem_of_dom, is_fresh.
Qed.

Lemma first_target (targets : list Z) :
  match targets with t0 :: _ => t0 | [] => -1 end = next_target targets 0.
Proof. unfold next_target, item. by destruct targets. Qed.

Lemma first_targets (circuit : list (list Z)) :
  (fun targets => match targets with t0 :: _ => t0 | [] => -1 end) <$> circuit
  = zip_with next_target circuit (replicate (length circuit) 0).
Proof.
  induction circuit as [|targets circuit IH]; [done|].
  rewrite fmap_cons. cbn [length replicate zip_with]. by rewrite IH, first_target.
Qed.

(** X2.  [CircuitStateDQN(circuit, device)] on a circuit with as many qubits
    as the device has nodes returns a state with four new arrays, distinct
    from each other and from every array of the store: the allocation of
    the device, the first interaction of every qubit (or [-1]) as targets,
    progress zero and no lock.  When the allocation is a permutation, on a
    device that is a simple graph and for interactions between qubits of the
    device, this state satisfies the invariant of the routing states.  With
    another number of qubits the constructor fails its assertion, whatever
    arrays are passed; arrays that are passed are kept as they are, not
    copied and not looked at. *)
Theorem init_builds_a_routing_state
    (c : CircuitRepDQN) (d : DeviceTopology) (h : heap) :
  length c = n_nodes d ->
  let t0 := zip_with next_target c (replicate (length c) 0) in
  (exists s h',
     __init__ c d None None None None h = (Ok s, h') /\
     circuit s = c /\ device s = d /\
     NoDup (arrays_of s) /\ Forall (fun l => h !! l = None) (arrays_of s) /\
     h ⊆ h' /\
     h' !! _node_to_qubit s = Some (allocate d c) /\
     h' !! _qubit_targets s = Some t0 /\
     h' !! _circuit_progress s = Some (replicate (length c) 0) /\
     h' !! _locked_edges s = Some (replicate (length (edges d)) 0) /\
     (is_permutation (n_nodes d) (allocate d c) ->
      edges_in_range (n_nodes d) (edges d) ->
      simple_edges (edges d) = true ->
      Forall (Forall (fun x => 0 <= x < Z.of_nat (n_nodes d))) c ->
      Forall (fun interactions : list Z => Z.of_nat (length interactions) < 2 ^ 63) c ->
      routing_invariant s (allocate d c) t0 (replicate (length c) 0))) /\
  (forall l1 l2 l3 l4,
     __init__ c d (Some l1) (Some l2) (Some l3) (Some l4) h =
       (Ok {| circuit := c; device := d; _node_to_qubit := l1; _qubit_targets := l2;
              _circuit_progress := l3; _locked_edges := l4 |}, h)) /\
  (forall (c' : CircuitRepDQN) a1 a2 a3 a4,
     length c' <> n_nodes d ->
     __init__ c' d a1 a2 a3 a4 h = (Raise (AssertionError QubitCountMismatch), h)).
Proof.
  intros Hlen t0. split; [|split].
  - destruct (alloc_run (allocate d c) h) as (l1 & E1 & F1).
    set (h1 := <[l1 := allocate d c]> h) in *.
    destruct (alloc_run t0 h1) as (l2 & E2 & F2).
    set (h2 := <[l2 := t0]> h1) in *.
    destruct (alloc_run (replicate (length c) 0) h2) as (l3 & E3 & F3).
    set (h3 := <[l3 := replicate (length c) 0]> h2) in *.
    destruct (alloc_run (replicate (length (edges d)) 0) h3) as (l4 & E4 & F4).
    set (h4 := <[l4 := replicate (length (edges d)) 0]> h3) in *.
    assert (G1 : h1 !! l1 = Some (allocate d c)) by apply lookup_insert_eq.
    assert (G2 : h2 !! l2 = Some t0) by apply lookup_insert_eq.
    assert (G3 : h3 !! l3 = Some (replicate (length c) 0)) by apply lookup_insert_eq.
    assert (S1 : h ⊆ h1) by (by apply insert_subseteq).
    assert (S2 : h1 ⊆ h2) by (by apply insert_subseteq).
    assert (S3 : h2 ⊆ h3) by (by apply insert_subseteq).
    assert (S4 : h3 ⊆ h4) by (by apply insert_subseteq).
    assert (None_sub : forall (g g' : heap) l, g ⊆ g' -> g' !! l = None -> g !! l = None).
    { intros g g' l Hg Hn. destruct (g !! l) eqn:E; [|done].
      rewrite (lookup_weaken _ _ _ _ E Hg) in Hn. done. }
    assert (N12 : l1 <> l2) by (intros ->; congruence).
    assert (N13 : l1 <> l3).
    { intros ->. rewrite (lookup_weaken _ _ _ _ G1 S2) in F3. done. }
    assert (N14 : l1 <> l4).
    { intros ->. rewrite (lookup_weaken _ _ _ _ (lookup_weaken _ _ _ _ G1 S2) S3) in F4. done. }
    assert (N23 : l2 <> l3) by (intros ->; congruence).
    assert (N24 : l2 <> l4).
    { intros ->. rewrite (lookup_weaken _ _ _ _ G2 S3) in F4. done. }
    assert (N34 : l3 <> l4) by (intros ->; congruence).
    exists {| circuit := c; device := d; _node_to_qubit := l1; _qubit_targets := l2;
              _circuit_progress := l3; _locked_edges := l4 |}, h4.
    split.
    { unfold __init__. rewrite decide_True by done. unfold bind, or_default.
      rewrite E1. rewrite first_targets. fold t0. rewrite E2, E3, E4. reflexivity. }
    split; [done|]. split; [done|]. split.
    { unfold arrays_of. cbn. repeat apply NoDup_cons_2; rewrite ?elem_of_cons, ?elem_of_nil;
        try tauto. apply NoDup_nil_2. }
    split.
    { unfold arrays_of. cbn. repeat apply Forall_cons_2; [| | | |apply Forall_nil_2].
      - done.
      - by apply (None_sub h h1).
      - apply (None_sub h h1); [done|]. by apply (None_sub h1 h2).
      - apply (None_sub h h1); [done|]. apply (None_sub h1 h2); [done|].
        by apply (None_sub h2 h3). }
    split; [by transitivity h1; [|transitivity h2; [|transitivity h3]]|].
    cbn. split_and!.
    + apply (lookup_weaken h1); [done|]. by transitivity h2; [|transitivity h3].
    + apply (lookup_weaken h2); [done|]. by transitivity h3.
    + by apply (lookup_weaken h3).
    + apply lookup_insert_eq.
    + intros Hperm Hedges Hsimple Hinter Hshort. split; cbn; try done.
      clear -Hshort. induction c as [|interactions c IH]; cbn; [constructor|].
      apply Forall_cons in Hshort as [H1 H2]. constructor; [lia|by apply IH].
  - intros l1 l2 l3 l4. unfold __init__. by rewrite decide_True by done.
  - intros c' a1 a2 a3 a4 Hne. unfold __init__. by rewrite decide_False by done.
Qed.

Lemma init_builds_a_routing_state_witness :
  let t0 := zip_with next_target path_circuit (replicate (length path_circuit) 0) in
  (exists s h',
     __init__ path_circuit path_device None None None None ∅ = (Ok s, h') /\
     circuit s = path_circuit /\ device s = path_device /\
     NoDup (arrays_of s) /\ Forall (fun l => (∅ : heap) !! l = None) (arrays_of s) /\
     ∅ ⊆ h' /\
     h' !! _node_to_qubit s = Some (allocate path_device path_circuit) /\
     h' !! _qubit_targets s = Some t0 /\
     h' !! _circuit_progress s = Some (replicate (length path_circuit) 0) /\
     h' !! _locked_edges s = Some (replicate (length (edges path_device)) 0) /\
     (is_permutation (n_nodes path_device) (allocate path_device path_circuit) ->
      edges_in_range (n_nodes path_device) (edges path_device) ->
      simple_edges (edges path_device) = true ->
      Forall (Forall (fun x => 0 <= x < Z.of_nat (n_nodes path_device))) path_circuit ->
      Forall (fun interactions : list Z => Z.of_nat (length interactions) < 2 ^ 63)
             path_circuit ->
      routing_invariant s (allocate path_device path_circuit) t0
        (replicate (length path_circuit) 0))) /\
  (forall l1 l2 l3 l4,
     __init__ path_circuit path_device (Some l1) (Some l2) (Some l3) (Some l4) ∅ =
       (Ok {| circuit := path_circuit; device := path_device;
              _node_to_qubit := l1; _qubit_targets := l2;
              _circuit_progress := l3; _locked_edges := l4 |}, ∅)) /\
  (forall (c' : CircuitRepDQN) a1 a2 a3 a4,
     length c' <> n_nodes path_device ->
     __init__ c' path_device a1 a2 a3 a4 ∅ = (Raise (AssertionError QubitCountMismatch), ∅)).
Proof.
  apply (init_builds_a_routing_state path_circuit path_device ∅).
  reflexivity.
Defined.

(** ** The end of the routing *)

Lemma invariant_progress (self : CircuitStateDQN) (a t p : list Z) :
  routing_invariant self a t p ->
  Forall2 (fun (interactions : list Z) v => 0 <= v <= Z.of_nat (length interactions))
          (circuit self) p.
Proof.
  intros [_ _ _ _ _ Hprog _]. eapply Forall2_impl; [exact Hprog|]. by intros ? ? [? _].
Qed.

(** The targets of a routing state, read off its invariant. *)
Lemma invariant_targets (self : CircuitStateDQN) (a t p : list Z) (q : Z) :
  routing_invariant self a t p ->
  0 <= q < Z.of_nat (n_nodes (device self)) ->
  0 <= item p q <= Z.of_nat (length (circuit self !!! Z.to_nat q)) /\
  item t q = next_target (circuit self !!! Z.to_nat q) (item p q) /\
  (item t q = -1 <-> item p q = Z.of_nat (length (circuit self !!! Z.to_nat q))) /\
  -1 <= item t q < Z.of_nat (n_nodes (device self)).
Proof.
  intros Hinv Hq. pose proof (invariant_progress _ _ _ _ Hinv) as Hprog.
  destruct Hinv as [_ Hqubits _ _ Hinter _ Htargets].
  assert (Hb : 0 <= item p q <= Z.of_nat (length (circuit self !!! Z.to_nat q))).
  { pose proof Hprog as Hprog'. rewrite Forall2_lookup in Hprog'.
    specialize (Hprog' (Z.to_nat q)). unfold item.
    rewrite (list_lookup_total_alt (circuit self)), (list_lookup_total_alt p).
    inversion Hprog' as [x y Hxy Hx Hy|Hx Hy]; simpl; [done|].
    symmetry in Hx. apply lookup_ge_None in Hx. lia. }
  pose proof (retarget_lookup self p Hqubits Hprog (Z.to_nat q)) as Hl.
  rewrite Z2Nat.id in Hl by lia.
  assert (Hitem : item t q = next_target (circuit self !!! Z.to_nat q) (item p q)).
  { unfold item at 1. rewrite Htargets, list_lookup_total_alt, Hl; [done|lia]. }
  split; [done|]. split; [done|]. rewrite Hitem. unfold next_target.
  destruct (Z.ltb_spec (item p q) (Z.of_nat (length (circuit self !!! Z.to_nat q))))
    as [Hlt|Hge]; [|lia].
  assert (Hin : item (circuit self !!! Z.to_nat q) (item p q) ∈ circuit self !!! Z.to_nat q).
  { apply list_elem_of_lookup. exists (Z.to_nat (item p q)). apply item_lookup. lia. }
  assert (Helem : circuit self !!! Z.to_nat q ∈ circuit self).
  { apply list_elem_of_lookup. exists (Z.to_nat q).
    apply list_lookup_lookup_total_lt. lia. }
  rewrite Forall_forall in Hinter. specialize (Hinter _ Helem).
  rewrite Forall_forall in Hinter. specialize (Hinter _ Hin). lia.
Qed.

Lemma invariant_lengths (self : CircuitStateDQN) (a t p : list Z) :
  routing_invariant self a t p ->
  length a = n_nodes (device self) /\ length t = n_nodes (device self) /\
  length p = n_nodes (device self).
Proof.
  intros Hinv. pose proof (invariant_progress _ _ _ _ Hinv) as Hprog.
  destruct Hinv as [Hperm Hqubits _ _ _ _ Htargets].
  assert (Hp : length p = n_nodes (device self)).
  { rewrite <- Hqubits. symmetry. by eapply Forall2_length. }
  split; [by apply is_permutation_length|]. split; [|done].
  rewrite Htargets, length_zip_with. lia.
Qed.

Lemma filter_none {A} (P : A -> Prop) `{!forall x, Decision (P x)} (l : list A) :
  (forall x, x ∈ l -> ~ P x) -> filter P l = [].
Proof.
  induction l as [|x l IH]; intros Hl; [done|].
  rewrite filter_cons, decide_False by (apply Hl; left).
  apply IH. intros y Hy. apply Hl. by right.
Qed.

Lemma forallb_items (f : Z -> bool) (t : list Z) :
  forallb f t = true <-> forall q, 0 <= q < Z.of_nat (length t) -> f (item t q) = true.
Proof.
  rewrite forallb_forall. split.
  - intros H q Hq. apply H, list_elem_of_In, list_elem_of_lookup.
    exists (Z.to_nat q). by apply item_lookup.
  - intros H x Hx. apply list_elem_of_In, list_elem_of_lookup in Hx as [i Hi].
    specialize (H (Z.of_nat i)). unfold item in H. rewrite Nat2Z.id in H.
    rewrite (list_lookup_total_correct _ _ _ Hi) in H. apply H.
    apply lookup_lt_Some in Hi. lia.
Qed.

(** X3.  In a routing state that satisfies the invariant, [is_done] returns
    [True] exactly when the progress of every qubit has reached the number
    of its interactions; and a state that is done is a fixed point of
    [execute_cnot]: nothing fires and no array changes. *)
Theorem done_state_is_fixed
    (self : CircuitStateDQN) (h : heap) (a t p : list Z) :
  NoDup [_node_to_qubit self; _qubit_targets self; _circuit_progress self] ->
  h !! _node_to_qubit self = Some a ->
  h !! _qubit_targets self = Some t ->
  h !! _circuit_progress self = Some p ->
  routing_invariant self a t p ->
  exists b,
    is_done self h = (Ok b, h) /\
    (b = true <->
     forall q, 0 <= q < Z.of_nat (n_nodes (device self)) ->
       item p q = Z.of_nat (length (circuit self !!! Z.to_nat q))) /\
    (b = true -> execute_cnot self h = (Ok [], h)).
Proof.
  intros Hdistinct Ha Ht Hp Hinv.
  destruct (invariant_lengths _ _ _ _ Hinv) as (Halen & Htlen & Hplen).
  exists (forallb (fun x => x =? -1) t).
  split; [unfold is_done, bind; by rewrite (deref_run _ _ _ Ht)|].
  assert (Hdone : forallb (fun x => x =? -1) t = true <->
            forall q, 0 <= q < Z.of_nat (n_nodes (device self)) -> item t q = -1).
  { rewrite forallb_items, Htlen. by setoid_rewrite Z.eqb_eq. }
  split.
  - rewrite Hdone. split; intros H q Hq;
      destruct (invariant_targets self a t p q Hinv Hq) as (_ & _ & Hiff & _);
      apply Hiff; by apply H.
  - intros Hb. rewrite Hdone in Hb.
    pose proof (invariant_progress _ _ _ _ Hinv) as Hprog.
    pose proof Hinv as [Hperm Hqubits Hedges _ _ _ Htargets].
    destruct (cnot_distinct self Hdistinct) as (D1 & D2 & D3).
    assert (Hnone : filter (fun e => mutual a t e = true) (edges (device self)) = []).
    { apply filter_none. intros [n1 n2] He Hm.
      unfold edges_in_range in Hedges. rewrite Forall_forall in Hedges.
      destruct (Hedges _ He) as [R1 R2]. simpl in R1, R2.
      apply mutual_true in Hm as [M1 _].
      pose proof (permutation_item_range _ _ _ Hperm R1) as Q1.
      pose proof (permutation_item_range _ _ _ Hperm R2) as Q2.
      rewrite (Hb _ Q1) in M1. lia. }
    unfold execute_cnot, bind, cnot_scan.
    rewrite (cnot_scan_run self a t Hdistinct Hperm Htlen (edges (device self)) [] h p)
      by done.
    rewrite Hnone. simpl. rewrite (insert_id h _ _ Hp).
    rewrite (update_targets_run self p D2 Hqubits Hprog h t) by done.
    rewrite <- Htargets. by rewrite (insert_id h _ _ Ht).
Qed.

Lemma pair_done_invariant : routing_invariant pair_state [0; 1] [-1; -1] [1; 1].
Proof.
  split.
  - vm_compute. reflexivity.
  - reflexivity.
  - apply Forall_cons_2; [simpl; lia|apply Forall_nil_2].
  - reflexivity.
  - repeat (apply Forall_cons_2; [repeat (apply Forall_cons_2; [simpl; lia|]); apply Forall_nil_2|]).
    apply Forall_nil_2.
  - repeat (apply Forall2_cons_2; [simpl; lia|]). apply Forall2_nil_2.
  - reflexivity.
Qed.

Lemma done_state_is_fixed_witness :
  exists b,
    is_done pair_state pair_done_heap = (Ok b, pair_done_heap) /\
    (b = true <->
     forall q, 0 <= q < Z.of_nat (n_nodes (device pair_state)) ->
       item [1; 1] q = Z.of_nat (length (circuit pair_state !!! Z.to_nat q))) /\
    (b = true -> execute_cnot pair_state pair_done_heap = (Ok [], pair_done_heap)).
Proof.
  apply (done_state_is_fixed pair_state pair_done_heap [0; 1] [-1; -1] [1; 1]).
  - apply (bool_decide_unpack _). vm_compute. reflexivity.
  - reflexivity.
  - reflexivity.
  - reflexivity.
  - exact pair_done_invariant.
Defined.

(** ** Locking edges for a number of steps *)

Lemma zip_with_ext_Forall {A B C} (f g : A -> B -> C) (P : A -> Prop) (Q : B -> Prop)
    (l : list A) (k : list B) :
  Forall P l -> Forall Q k ->
  (forall x y, P x -> Q y -> f x y = g x y) ->
  zip_with f l k = zip_with g l k.
Proof.
  intros Hl Hk Hfg. revert k Hk. induction Hl as [|x l Hx Hl IH]; intros k Hk; [done|].
  destruct Hk as [|y k Hy Hk]; [done|]. simpl. rewrite (Hfg x y Hx Hy). f_equal. by apply IH.
Qed.

Lemma fmap_zip_with {A B C D} (u : C -> D) (f : A -> B -> C) (l : list A) (k : list B) :
  u <$> zip_with f l k = zip_with (fun x y => u (f x y)) l k.
Proof.
  revert k. induction l as [|x l IH]; intros [|y k]; try done.
  cbn. f_equal. apply IH.
Qed.

Lemma Forall_zip_with {A B C} (f : A -> B -> C) (P : A -> Prop) (Q : B -> Prop)
    (R : C -> Prop) (l : list A) (k : list B) :
  Forall P l -> Forall Q k -> (forall x y, P x -> Q y -> R (f x y)) ->
  Forall R (zip_with f l k).
Proof.
  intros Hl Hk Hf. revert k Hk. induction Hl as [|x l Hx Hl IH]; intros k Hk; [constructor|].
  destruct Hk as [|y k Hy Hk]; [constructor|]. simpl. constructor; [by apply Hf|by apply IH].
Qed.

(** One decay of counters that are not negative. *)
Lemma decay_run (self : CircuitStateDQN) (h : heap) (c : list Z) :
  h !! _locked_edges self = Some c ->
  Forall (fun e => 0 <= e < 2 ^ 63) c ->
  update_locks self None None h =
    (Ok tt, <[_locked_edges self := (fun e => Z.max (e - 1) 0) <$> c]> h).
Proof.
  intros Hc Hpos. unfold update_locks, bind. rewrite (deref_run _ _ _ Hc). unfold assign.
  do 2 f_equal. apply Forall_fmap_ext_1. eapply Forall_impl; [exact Hpos|].
  intros e He. cbv beta in He. destruct (Z.ltb_spec 0 e); simpl.
  - rewrite wrap64_id by (unfold int64; lia). lia.
  - rewrite wrap64_id by (unfold int64; lia). lia.
Qed.

Lemma decays_run (self : CircuitStateDQN) (j : nat) :
  forall (h : heap) (c : list Z),
  h !! _locked_edges self = Some c ->
  Forall (fun e => 0 <= e < 2 ^ 63) c ->
  run_ops self (replicate j (UpdateLocks None None)) h =
    <[_locked_edges self := (fun e => Z.max (e - Z.of_nat j) 0) <$> c]> h.
Proof.
  induction j as [|j IH]; intros h c Hc Hpos.
  - simpl. symmetry. apply insert_id. rewrite Hc. f_equal.
    rewrite <- (list_fmap_id c) at 1. apply Forall_fmap_ext_1.
    eapply Forall_impl; [exact Hpos|]. intros e He. cbv beta in He. simpl. lia.
  - change (replicate (S j) (UpdateLocks None None))
      with (UpdateLocks None None :: replicate j (UpdateLocks None None)).
    unfold run_ops. cbn [foldl run_op]. rewrite (decay_run self h c Hc Hpos). cbn [snd].
    fold (run_ops self (replicate j (UpdateLocks None None))
            (<[_locked_edges self := (fun e => Z.max (e - 1) 0) <$> c]> h)).
    rewrite (IH _ ((fun e => Z.max (e - 1) 0) <$> c)).
    + rewrite insert_insert_eq. f_equal. rewrite <- list_fmap_compose.
      apply list_fmap_ext. intros i e _. simpl. lia.
    + apply lookup_insert_eq.
    + apply Forall_fmap. eapply Forall_impl; [exact Hpos|]. intros e He.
      cbv beta in He. simpl. lia.
Qed.

(** X4.  [update_locks(mask, k)] with a boolean mask as long as the lock
    vector and [k >= 0] puts [k] on the counter of every masked edge; after
    [j] calls of [update_locks()] the counter [e] of an edge is
    [max (e + m * k - j) 0], so that an edge that was free is reported
    locked by [locked_edges] for exactly the [k] steps that follow, and
    then free again.  A mask without a multiplier is a [TypeError], a
    multiplier that is no 64-bit integer is a [TypeError] (it can only be
    met here when there is no edge at all), and a mask of another length
    (not one) a [ValueError]; all three leave the counters as they are. *)
Theorem lock_lasts_multiplier_steps
    (self : CircuitStateDQN) (h : heap) (le mask : list Z) (k : Z) :
  h !! _locked_edges self = Some le ->
  length mask = length le ->
  boolean_array mask ->
  0 <= k ->
  Forall (fun e => 0 <= e /\ e + k < 2 ^ 63) le ->
  let h1 := <[_locked_edges self := zip_with (fun e m => e + m * k) le mask]> h in
  update_locks self (Some mask) (Some k) h =
    (if decide (k < 2 ^ 63) then Ok tt else Raise TypeError, h1) /\
  (forall j : nat,
     let hj := run_ops self (replicate j (UpdateLocks None None)) h1 in
     hj = <[_locked_edges self :=
              zip_with (fun e m => Z.max (e + m * k - Z.of_nat j) 0) le mask]> h /\
     locked_edges self hj =
       (Ok (zip_with (fun e m => Z.of_nat j <? e + m * k) le mask), hj)) /\
  update_locks self (Some mask) None h = (Raise TypeError, h) /\
  (forall (mask' : list Z) (k' : Z),
     ~ int64 k' -> update_locks self (Some mask') (Some k') h = (Raise TypeError, h)) /\
  (forall mask' : list Z,
     length mask' <> length le -> length mask' <> 1%nat ->
     update_locks self (Some mask') (Some k) h =
       (Raise (if decide (k < 2 ^ 63) then ValueError else TypeError), h)).
Proof.
  intros Hle Hlen Hmask Hk Hpos h1.
  assert (Hsum : Forall (fun e => 0 <= e < 2 ^ 63) (zip_with (fun e m => e + m * k) le mask)).
  { apply (Forall_zip_with _ _ _ _ _ _ Hpos Hmask). intros e m [He1 He2] [-> | ->]; lia. }
  assert (Hbig : forall mask' k', ~ int64 k' ->
            update_locks self (Some mask') (Some k') h = (Raise TypeError, h)).
  { intros mask' k' Hk'. unfold update_locks. by rewrite decide_False by done. }
  split; [|split; [|split; [|split]]].
  - destruct (decide (k < 2 ^ 63)) as [Hsmall|Hlarge].
    + unfold update_locks. rewrite decide_True by (unfold int64; lia).
      unfold bind. rewrite (deref_run _ _ _ Hle).
      unfold lift_result, iadd_arrays. rewrite decide_True by (by rewrite length_fmap).
      unfold assign, h1. do 2 f_equal. rewrite zip_with_fmap_r.
      apply (zip_with_ext_Forall _ _ _ _ _ _ Hpos Hmask).
      intros e m [He1 He2] Hm.
      assert (wrap64 (m * k) = m * k) as ->.
      { apply wrap64_id. unfold int64. destruct Hm as [-> | ->]; lia. }
      apply wrap64_id. unfold int64. destruct Hm as [-> | ->]; lia.
    + rewrite Hbig by (unfold int64; lia). f_equal.
      destruct le as [|e le]; [|apply Forall_cons in Hpos as [[? ?] _]; lia].
      unfold h1. symmetry. by apply insert_id.
  - intros j hj.
    assert (Hj : hj = <[_locked_edges self :=
                zip_with (fun e m => Z.max (e + m * k - Z.of_nat j) 0) le mask]> h).
    { unfold hj. rewrite (decays_run self j h1 _ (lookup_insert_eq _ _ _) Hsum).
      unfold h1. rewrite insert_insert_eq. f_equal. apply fmap_zip_with. }
    split; [exact Hj|]. unfold locked_edges, bind.
    rewrite (deref_run _ hj (zip_with (fun e m => Z.max (e + m * k - Z.of_nat j) 0) le mask))
      by (rewrite Hj; apply lookup_insert_eq).
    unfold ret. do 2 f_equal. rewrite fmap_zip_with.
    apply (zip_with_ext_Forall _ _ _ _ _ _ Hpos Hmask).
    intros e m _ _. destruct (Z.ltb_spec (Z.of_nat j) (e + m * k));
      [apply Z.ltb_lt|apply Z.ltb_ge]; lia.
  - reflexivity.
  - exact Hbig.
  - intros mask' Hne Hne1. destruct (decide (k < 2 ^ 63)) as [Hsmall|Hlarge].
    + unfold update_locks. rewrite decide_True by (unfold int64; lia).
      unfold bind. rewrite (deref_run _ _ _ Hle).
      unfold lift_result, iadd_arrays. rewrite decide_False by (by rewrite length_fmap).
      destruct mask' as [|m1 [|m2 mask']]; try done.
    + apply Hbig. unfold int64. lia.
Qed.

Lemma lock_lasts_multiplier_steps_witness :
  let h1 := <[_locked_edges path_state := zip_with (fun e m => e + m * 2) [0; 0] [1; 0]]>
              path_heap in
  update_locks path_state (Some [1; 0]) (Some 2) path_heap =
    (if decide (2 < 2 ^ 63) then Ok tt else Raise TypeError, h1) /\
  (forall j : nat,
     let hj := run_ops path_state (replicate j (UpdateLocks None None)) h1 in
     hj = <[_locked_edges path_state :=
              zip_with (fun e m => Z.max (e + m * 2 - Z.of_nat j) 0) [0; 0] [1; 0]]> path_heap /\
     locked_edges path_state hj =
       (Ok (zip_with (fun e m => Z.of_nat j <? e + m * 2) [0; 0] [1; 0]), hj)) /\
  update_locks path_state (Some [1; 0]) None path_heap = (Raise TypeError, path_heap) /\
  (forall (mask' : list Z) (k' : Z),
     ~ int64 k' ->
     update_locks path_state (Some mask') (Some k') path_heap = (Raise TypeError, path_heap)) /\
  (forall mask' : list Z,
     length mask' <> length [0; 0] -> length mask' <> 1%nat ->
     update_locks path_state (Some mask') (Some 2) path_heap =
       (Raise (if decide (2 < 2 ^ 63) then ValueError else TypeError), path_heap)).
Proof.
  apply (lock_lasts_multiplier_steps path_state path_heap [0; 0] [1; 0] 2).
  - reflexivity.
  - reflexivity.
  - repeat (apply Forall_cons_2; [lia|]). apply Forall_nil_2.
  - lia.
  - repeat (apply Forall_cons_2; [lia|]). apply Forall_nil_2.
Defined.

(** ** The inverse of the mapping *)

(** The inverting loop stops with an [IndexError] at an entry that is no
    index of the array. *)
Lemma invert_loop_raises (h : heap) (l : list Z) :
  forall (k : Z) (acc : list Z),
  Exists (fun v => ~ (- Z.of_nat (length acc) <= v < Z.of_nat (length acc))) l ->
  foldM (fun (qubit_to_node : list Z) '(i, v) => lift_result (setitem qubit_to_node v i))
        ((fun p => (fst p + k, snd p)) <$> enumerate l) acc h = (Raise IndexError, h).
Proof.
  induction l as [|v0 l IH]; intros k acc Hbad; [by apply Exists_nil in Hbad|].
  rewrite enumerate_cons, fmap_cons, foldM_cons. simpl fst. simpl snd.
  unfold lift_result at 1, setitem.
  destruct (np_index (length acc) v0) as [i|] eqn:Ei; [|done].
  apply Exists_cons in Hbad as [Hbad|Hbad].
  { apply np_index_Some in Ei. lia. }
  rewrite <- (IH (k + 1) (<[i := 0 + k]> acc)) by (by rewrite length_insert).
  f_equal. rewrite <- list_fmap_compose. apply list_fmap_ext.
  intros _ [j v] _. simpl. f_equal. lia.
Qed.

Lemma permutation_of_range (n : nat) (l : list Z) :
  length l = n -> NoDup l -> Forall (fun x => 0 <= x < Z.of_nat n) l ->
  is_permutation n l.
Proof.
  intros Hlen Hnd Hr. unfold is_permutation.
  apply submseteq_length_Permutation.
  - apply NoDup_submseteq; [done|]. intros x Hx. apply elem_of_range.
    rewrite Forall_forall in Hr. by apply Hr.
  - unfold range. rewrite length_seqZ. lia.
Qed.

(** X5.  On a mapping that is a permutation of the qubits, [qubit_to_node]
    returns its inverse, a permutation of the nodes: the node of the qubit
    at node [n] is [n], and the qubit at the node of qubit [q] is [q].  On
    an array with an entry that is no index of it, the view raises an
    [IndexError]. *)
Theorem qubit_to_node_inverts_mapping
    (self : CircuitStateDQN) (h : heap) (a : list Z) :
  h !! _node_to_qubit self = Some a ->
  is_permutation (n_nodes (device self)) a ->
  (exists q2n,
     qubit_to_node self h = (Ok q2n, h) /\
     is_permutation (n_nodes (device self)) q2n /\
     (forall n, 0 <= n < Z.of_nat (n_nodes (device self)) -> item q2n (item a n) = n) /\
     (forall q, 0 <= q < Z.of_nat (n_nodes (device self)) -> item a (item q2n q) = q)) /\
  (forall (h' : heap) (a' : list Z),
     h' !! _node_to_qubit self = Some a' ->
     Exists (fun v => ~ (- Z.of_nat (length a') <= v < Z.of_nat (length a'))) a' ->
     qubit_to_node self h' = (Raise IndexError, h')).
Proof.
  intros Ha Hp. split.
  - destruct (qubit_to_node_run self h a Ha Hp) as (q2n & Hrun & Hlen & Hinv & Hnodes).
    exists q2n. split; [done|]. split; [|split; [done|]].
    + apply permutation_of_range; [done| |].
      * apply NoDup_alt. intros i j x Hi Hj.
        assert (Ri : (i < n_nodes (device self))%nat)
          by (rewrite <- Hlen; by eapply lookup_lt_Some).
        assert (Rj : (j < n_nodes (device self))%nat)
          by (rewrite <- Hlen; by eapply lookup_lt_Some).
        destruct (Hnodes (Z.of_nat i)) as [_ Hi']; [lia|].
        destruct (Hnodes (Z.of_nat j)) as [_ Hj']; [lia|].
        unfold item at 2 in Hi'. unfold item at 2 in Hj'. rewrite Nat2Z.id in Hi', Hj'.
        rewrite (list_lookup_total_correct _ _ _ Hi) in Hi'.
        rewrite (list_lookup_total_correct _ _ _ Hj) in Hj'. lia.
      * apply Forall_forall. intros x Hx. apply list_elem_of_lookup in Hx as [i Hi].
        assert (Ri : (i < n_nodes (device self))%nat)
          by (rewrite <- Hlen; by eapply lookup_lt_Some).
        destruct (Hnodes (Z.of_nat i)) as [Hr _]; [lia|].
        unfold item in Hr. rewrite Nat2Z.id in Hr.
        by rewrite (list_lookup_total_correct _ _ _ Hi) in Hr.
    + intros q Hq. by apply Hnodes.
  - intros h' a' Ha' Hbad. unfold qubit_to_node, bind. rewrite (deref_run _ _ _ Ha').
    rewrite <- (invert_loop_raises h' a' 0 (replicate (length a') 0))
      by (by rewrite length_replicate).
    f_equal. rewrite <- (list_fmap_id (enumerate a')) at 1.
    apply list_fmap_ext. intros _ [i v] _. simpl. f_equal. lia.
Qed.

Lemma qubit_to_node_inverts_mapping_witness :
  (exists q2n,
     qubit_to_node path_state path_heap = (Ok q2n, path_heap) /\
     is_permutation (n_nodes (device path_state)) q2n /\
     (forall n, 0 <= n < Z.of_nat (n_nodes (device path_state)) ->
        item q2n (item [0; 1; 2] n) = n) /\
     (forall q, 0 <= q < Z.of_nat (n_nodes (device path_state)) ->
        item [0; 1; 2] (item q2n q) = q)) /\
  (forall (h' : heap) (a' : list Z),
     h' !! _node_to_qubit path_state = Some a' ->
     Exists (fun v => ~ (- Z.of_nat (length a') <= v < Z.of_nat (length a'))) a' ->
     qubit_to_node path_state h' = (Raise IndexError, h')).
Proof.
  apply (qubit_to_node_inverts_mapping path_state path_heap [0; 1; 2]).
  - reflexivity.
  - vm_compute. reflexivity.
Defined.

(** ** The node of the target *)

Section TargetNodes.

Variable q2n : list Z.
Variable n : nat.

Hypothesis Hq2n : length q2n = n.
Hypothesis Hnodes : forall q, 0 <= q < Z.of_nat n -> 0 <= item q2n q < Z.of_nat n.
Hypothesis Hinj : forall q q', 0 <= q < Z.of_nat n -> 0 <= q' < Z.of_nat n ->
  item q2n q = item q2n q' -> q = q'.

(** The loop of [target_nodes] over the targets of the qubits [k], [k+1],
    ...: the entry of the node of a qubit with a target becomes the node of
    the target, every other entry stays. *)
Lemma target_loop_run (h : heap) (l : list Z) :
  forall (k : Z) (acc : list Z),
  0 <= k -> length acc = n -> k + Z.of_nat (length l) <= Z.of_nat n ->
  Forall (fun v => -1 <= v < Z.of_nat n) l ->
  exists r,
    foldM (fun (target_nodes : list Z) '(i, v) =>
             if negb (v =? -1) then
               dst <- lift_result (getitem q2n v) ;;
               src <- lift_result (getitem q2n i) ;;
               lift_result (setitem target_nodes src dst)
             else ret target_nodes)
          ((fun p => (fst p + k, snd p)) <$> enumerate l) acc h = (Ok r, h) /\
    length r = n /\
    (forall (j : nat) v, l !! j = Some v ->
       item r (item q2n (Z.of_nat j + k)) =
       if v =? -1 then item acc (item q2n (Z.of_nat j + k)) else item q2n v) /\
    (forall x, 0 <= x ->
       (forall j : nat, (j < length l)%nat -> x <> item q2n (Z.of_nat j + k)) ->
       item r x = item acc x).
Proof.
  induction l as [|v0 l IH]; intros k acc Hk Hacc Hfit Hr.
  { exists acc. simpl. repeat split; try done. }
  apply Forall_cons in Hr as [Hv0 Hr]. cbn [length] in Hfit.
  rewrite enumerate_cons, fmap_cons, foldM_cons. cbn [fst snd].
  assert (Hshift : forall acc',
            foldM (fun (target_nodes : list Z) '(i, v) =>
                     if negb (v =? -1) then
                       dst <- lift_result (getitem q2n v) ;;
                       src <- lift_result (getitem q2n i) ;;
                       lift_result (setitem target_nodes src dst)
                     else ret target_nodes)
                  ((fun p => (fst p + k, snd p)) <$>
                     ((fun p => (fst p + 1, snd p)) <$> enumerate l)) acc' h
            = foldM (fun (target_nodes : list Z) '(i, v) =>
                     if negb (v =? -1) then
                       dst <- lift_result (getitem q2n v) ;;
                       src <- lift_result (getitem q2n i) ;;
                       lift_result (setitem target_nodes src dst)
                     else ret target_nodes)
                  ((fun p => (fst p + (k + 1), snd p)) <$> enumerate l) acc' h).
  { intros acc'. f_equal. rewrite <- list_fmap_compose. apply list_fmap_ext.
    intros _ [i v] _. simpl. f_equal. lia. }
  assert (Hother : forall j : nat, (j < length l)%nat ->
            item q2n (0 + k) <> item q2n (Z.of_nat j + (k + 1))).
  { intros j Hj Heq. apply Hinj in Heq; lia. }
  destruct (Z.eqb_spec v0 (-1)) as [->|Hne]; cbn [negb].
  - unfold ret at 1. cbn beta iota. rewrite Hshift.
    destruct (IH (k + 1) acc) as (r & Hrun & Hlen & Hset & Hkeep); [lia|done|lia|done|].
    exists r. split; [done|]. split; [done|]. split.
    + intros [|j] v Hj; simpl in Hj.
      * injection Hj as <-. change (Z.of_nat 0) with 0. cbn [Z.eqb].
        apply Hkeep; [apply Hnodes; lia|]. intros j Hj. by apply Hother.
      * replace (Z.of_nat (S j) + k) with (Z.of_nat j + (k + 1)) by lia. by apply Hset.
    + intros x Hx Hnot. apply Hkeep; [done|]. intros j Hj.
      replace (Z.of_nat j + (k + 1)) with (Z.of_nat (S j) + k) by lia.
      apply Hnot. simpl. lia.
  - unfold bind at 1. unfold lift_result at 1.
    rewrite (getitem_item q2n v0) by lia.
    unfold bind at 1. unfold lift_result at 1.
    rewrite (getitem_item q2n (0 + k)) by lia.
    unfold lift_result at 1, setitem.
    pose proof (Hnodes (0 + k) ltac:(lia)) as Hsrc.
    rewrite np_index_nonneg by lia. rewrite Hshift.
    destruct (IH (k + 1) (<[Z.to_nat (item q2n (0 + k)) := item q2n v0]> acc))
      as (r & Hrun & Hlen & Hset & Hkeep); [lia|by rewrite length_insert|lia|done|].
    exists r. split; [done|]. split; [done|]. split.
    + intros [|j] v Hj; simpl in Hj.
      * injection Hj as <-. change (Z.of_nat 0) with 0.
        destruct (Z.eqb_spec v0 (-1)) as [?|_]; [done|].
        rewrite Hkeep; [|lia|intros j Hj; by apply Hother].
        unfold item at 1. rewrite list_lookup_total_insert_eq by lia. done.
      * replace (Z.of_nat (S j) + k) with (Z.of_nat j + (k + 1)) by lia.
        rewrite (Hset j v Hj). destruct (v =? -1); [|done].
        unfold item at 1. rewrite list_lookup_total_insert_ne; [reflexivity|].
        assert (Hj' : (j < length l)%nat) by (by eapply lookup_lt_Some).
        specialize (Hother j Hj').
        pose proof (Hnodes (Z.of_nat j + (k + 1)) ltac:(lia)). lia.
    + intros x Hx Hnot. rewrite Hkeep; [|done|].
      * unfold item at 1. rewrite list_lookup_total_insert_ne; [done|].
        specialize (Hnot 0%nat ltac:(simpl; lia)). change (Z.of_nat 0) with 0 in Hnot. lia.
      * intros j Hj. replace (Z.of_nat j + (k + 1)) with (Z.of_nat (S j) + k) by lia.
        apply Hnot. simpl. lia.
Qed.

End TargetNodes.

(** X6.  For a mapping that is a permutation and targets that are qubits or
    the sentinel, [target_nodes] returns, for the node [n] of a qubit: [-1]
    when the qubit has no target, and otherwise the node at which the
    target of the qubit sits.  The sentinel is tested, not used as an
    index. *)
Theorem target_nodes_points_at_targets
    (self : CircuitStateDQN) (h : heap) (a t : list Z) :
  h !! _node_to_qubit self = Some a ->
  h !! _qubit_targets self = Some t ->
  is_permutation (n_nodes (device self)) a ->
  length t = n_nodes (device self) ->
  Forall (fun v => -1 <= v < Z.of_nat (n_nodes (device self))) t ->
  exists tn,
    target_nodes self h = (Ok tn, h) /\
    length tn = n_nodes (device self) /\
    (forall n, 0 <= n < Z.of_nat (n_nodes (device self)) ->
       (item t (item a n) = -1 -> item tn n = -1) /\
       (item t (item a n) <> -1 ->
        0 <= item tn n < Z.of_nat (n_nodes (device self)) /\
        item a (item tn n) = item t (item a n))).
Proof.
  intros Ha Ht Hp Htlen Htr. set (N := n_nodes (device self)) in *.
  destruct (qubit_to_node_run self h a Ha Hp) as (q2n & Hrun & Hlen & Hinv & Hnodes).
  assert (Halen := is_permutation_length _ _ Hp).
  assert (Hinj : forall q q', 0 <= q < Z.of_nat N -> 0 <= q' < Z.of_nat N ->
            item q2n q = item q2n q' -> q = q').
  { intros q q' Hq Hq' Heq. destruct (Hnodes q Hq) as [_ <-].
    destruct (Hnodes q' Hq') as [_ <-]. by rewrite Heq. }
  destruct (target_loop_run q2n N Hlen (fun q Hq => proj1 (Hnodes q Hq)) Hinj h t 0
              (replicate (length a) (-1))) as (r & Hloop & Hrlen & Hset & _);
    [lia|by rewrite length_replicate|lia|done|].
  exists r. split; [|split; [done|]].
  - unfold target_nodes, bind. rewrite Hrun, (deref_run _ _ _ Ha), (deref_run _ _ _ Ht).
    rewrite <- Hloop. f_equal. rewrite <- (list_fmap_id (enumerate t)) at 1.
    apply list_fmap_ext. intros _ [i v] _. simpl. f_equal. lia.
  - intros n Hn.
    pose proof (permutation_item_range _ _ _ Hp Hn) as Hq.
    specialize (Hset (Z.to_nat (item a n)) (item t (item a n))).
    rewrite Z2Nat.id, Z.add_0_r, (Hinv n Hn) in Hset by lia.
    rewrite Hset by (apply item_lookup; lia).
    destruct (Z.eqb_spec (item t (item a n)) (-1)) as [Heq|Hne].
    + split; [|done]. intros _. unfold item. apply lookup_total_replicate_2. lia.
    + split; [done|]. intros _.
      assert (Hrange : 0 <= item t (item a n) < Z.of_nat N).
      { rewrite Forall_forall in Htr.
        assert (Hin : item t (item a n) ∈ t).
        { apply list_elem_of_lookup. exists (Z.to_nat (item a n)). apply item_lookup. lia. }
        specialize (Htr _ Hin). lia. }
      by apply Hnodes.
Qed.

Lemma target_nodes_points_at_targets_witness :
  exists tn,
    target_nodes path_state path_heap = (Ok tn, path_heap) /\
    length tn = n_nodes (device path_state) /\
    (forall n, 0 <= n < Z.of_nat (n_nodes (device path_state)) ->
       (item [2; -1; 0] (item [0; 1; 2] n) = -1 -> item tn n = -1) /\
       (item [2; -1; 0] (item [0; 1; 2] n) <> -1 ->
        0 <= item tn n < Z.of_nat (n_nodes (device path_state)) /\
        item [0; 1; 2] (item tn n) = item [2; -1; 0] (item [0; 1; 2] n))).
Proof.
  apply (target_nodes_points_at_targets path_state path_heap [0; 1; 2] [2; -1; 0]).
  - reflexivity.
  - reflexivity.
  - vm_compute. reflexivity.
  - reflexivity.
  - repeat (apply Forall_cons_2; [simpl; lia|]). apply Forall_nil_2.
Defined.

(** ** The interactions that remain *)

(** The loop of [remaining_targets] over the progress of the qubits [k],
    [k+1], ... *)
Lemma remaining_loop_run (c : CircuitRepDQN) (n : nat) (h : heap) (l : list Z) :
  forall (k : Z) (acc : list Z),
  0 <= k -> length acc = n -> length c = n -> k + Z.of_nat (length l) <= Z.of_nat n ->
  exists r,
    foldM (fun (remaining_targets : list Z) '(i, v) =>
             interactions <- lift_result (getitem c i) ;;
             lift_result (setitem remaining_targets i
                            (wrap64 (Z.of_nat (length interactions) - v))))
          ((fun p => (fst p + k, snd p)) <$> enumerate l) acc h = (Ok r, h) /\
    length r = n /\
    (forall (j : nat) v, l !! j = Some v ->
       item r (Z.of_nat j + k) =
       wrap64 (Z.of_nat (length (c !!! Z.to_nat (Z.of_nat j + k))) - v)) /\
    (forall x, 0 <= x < k -> item r x = item acc x).
Proof.
  induction l as [|v0 l IH]; intros k acc Hk Hacc Hc Hfit.
  { exists acc. simpl. repeat split; try done. }
  cbn [length] in Hfit.
  rewrite enumerate_cons, fmap_cons, foldM_cons. cbn [fst snd].
  unfold bind at 1. unfold lift_result at 1.
  rewrite (getitem_total c (0 + k)) by lia.
  unfold lift_result at 1, setitem. rewrite np_index_nonneg by lia.
  destruct (IH (k + 1)
              (<[Z.to_nat (0 + k) :=
                   wrap64 (Z.of_nat (length (c !!! Z.to_nat (0 + k))) - v0)]> acc))
    as (r & Hrun & Hlen & Hset & Hkeep); [lia|by rewrite length_insert|done|lia|].
  exists r. split.
  { rewrite <- Hrun. f_equal. rewrite <- list_fmap_compose. apply list_fmap_ext.
    intros _ [i v] _. simpl. f_equal. lia. }
  split; [done|]. split.
  - intros [|j] v Hj; simpl in Hj.
    + injection Hj as <-. change (Z.of_nat 0) with 0. rewrite Hkeep by lia.
      unfold item. apply list_lookup_total_insert_eq. lia.
    + replace (Z.of_nat (S j) + k) with (Z.of_nat j + (k + 1)) by lia. by apply Hset.
  - intros x Hx. rewrite Hkeep by lia. unfold item.
    apply list_lookup_total_insert_ne. lia.
Qed.

(** X7.  In a routing state that satisfies the invariant, [remaining_targets]
    returns for every qubit the number of its interactions minus its
    progress; the number is not negative, and it is zero exactly for the
    qubits whose target is the sentinel [-1]. *)
Theorem remaining_targets_counts_down
    (self : CircuitStateDQN) (h : heap) (a t p : list Z) :
  h !! _node_to_qubit self = Some a ->
  h !! _circuit_progress self = Some p ->
  routing_invariant self a t p ->
  exists rem,
    remaining_targets self h = (Ok rem, h) /\
    length rem = n_nodes (device self) /\
    (forall q, 0 <= q < Z.of_nat (n_nodes (device self)) ->
       item rem q = Z.of_nat (length (circuit self !!! Z.to_nat q)) - item p q /\
       0 <= item rem q /\
       (item rem q = 0 <-> item t q = -1)).
Proof.
  intros Ha Hp Hinv. set (N := n_nodes (device self)) in *.
  destruct (invariant_lengths _ _ _ _ Hinv) as (Halen & Htlen & Hplen).
  pose proof Hinv as [Hperm Hqubits _ _ _ Hprog _].
  destruct (qubit_to_node_run self h a Ha Hperm) as (q2n & Hrun & _).
  destruct (remaining_loop_run (circuit self) N h p 0 (replicate (length a) 0))
    as (r & Hloop & Hrlen & Hset & _); [lia|by rewrite length_replicate|done|lia|].
  exists r. split; [|split; [done|]].
  - unfold remaining_targets, bind.
    rewrite Hrun, (deref_run _ _ _ Ha), (deref_run _ _ _ Hp).
    rewrite <- Hloop. f_equal. rewrite <- (list_fmap_id (enumerate p)) at 1.
    apply list_fmap_ext. intros _ [i v] _. simpl. f_equal. lia.
  - intros q Hq.
    destruct (invariant_targets self a t p q Hinv Hq) as (Hb & _ & Hiff & _).
    specialize (Hset (Z.to_nat q) (item p q)).
    rewrite Z2Nat.id, Z.add_0_r in Hset by lia.
    rewrite Hset by (apply item_lookup; lia).
    assert (Hshort : Z.of_nat (length (circuit self !!! Z.to_nat q)) < 2 ^ 63).
    { rewrite Forall2_lookup in Hprog. specialize (Hprog (Z.to_nat q)).
      rewrite (list_lookup_total_alt (circuit self)).
      inversion Hprog as [x y Hxy Hx Hy|Hx Hy]; simpl; [lia|].
      symmetry in Hx. apply lookup_ge_None in Hx. lia. }
    rewrite wrap64_id by (unfold int64; lia).
    split; [done|]. split; [lia|]. rewrite Hiff. lia.
Qed.

Lemma remaining_targets_counts_down_witness :
  exists rem,
    remaining_targets pair_state pair_heap = (Ok rem, pair_heap) /\
    length rem = n_nodes (device pair_state) /\
    (forall q, 0 <= q < Z.of_nat (n_nodes (device pair_state)) ->
       item rem q = Z.of_nat (length (circuit pair_state !!! Z.to_nat q)) - item [0; 0] q /\
       0 <= item rem q /\
       (item rem q = 0 <-> item [1; 0] q = -1)).
Proof.
  apply (remaining_targets_counts_down pair_state pair_heap [0; 1] [1; 0] [0; 0]).
  - reflexivity.
  - reflexivity.
  - exact pair_state_invariant.
Defined.

(** ** What [check_valid_solution] accepts *)

(** The first loop of [check_valid_solution], from index [i] on. *)
Lemma check_protected_run (solution : list Z) (forced_mask : list bool) (n : nat) :
  forall i : nat,
  (i + n)%nat = length solution -> length forced_mask = length solution ->
  check_protected solution forced_mask i n =
    if existsb (fun p => fst p && (snd p =? 1)) (drop i (zip forced_mask solution))
    then Raise (RuntimeError ProtectedEdgeSwapped) else Ok tt.
Proof.
  induction n as [|n IH]; intros i Hi Hlen.
  { rewrite drop_ge; [done|]. rewrite length_zip. lia. }
  destruct (lookup_lt_is_Some_2 forced_mask i) as [m Hm]; [lia|].
  destruct (lookup_lt_is_Some_2 solution i) as [x Hx]; [lia|].
  assert (Hz : zip forced_mask solution !! i = Some (m, x)).
  { rewrite lookup_zip_with, Hm. simpl. by rewrite Hx. }
  rewrite (drop_S _ _ _ Hz). cbn [existsb fst snd check_protected].
  rewrite !getitem_nat, Hm, Hx, (IH (S i)) by lia.
  destruct m; [|done]. simpl. by destruct (x =? 1).
Qed.

Lemma edges_at_selected (solution : list Z) :
  forall es : list (Z * Z),
  boolean_array solution -> (length solution <= length es)%nat ->
  edges_at es (where_one solution) = Ok (selected_edges es solution).
Proof.
  induction solution as [|x solution IH]; intros es Hb Hlen; [by destruct es|].
  destruct es as [|e es]; [simpl in Hlen; lia|].
  apply Forall_cons in Hb as [Hx Hb]. simpl in Hlen.
  rewrite where_one_cons, selected_edges_cons.
  assert (Hrest : edges_at (e :: es) ((fun i => i + 1) <$> where_one solution)
                  = Ok (selected_edges es solution)).
  { rewrite edges_at_shift by apply where_one_nonneg. apply IH; [done|lia]. }
  destruct Hx as [-> | ->].
  - rewrite decide_False by done. simpl. exact Hrest.
  - rewrite decide_True by done. cbn [app edges_at]. rewrite Hrest. reflexivity.
Qed.

Lemma bool_decide_ext_if {A} (P Q : Prop) `{!Decision P, !Decision Q} (x y : A) :
  (P <-> Q) -> (if bool_decide P then x else y) = (if bool_decide Q then x else y).
Proof. intros H. by rewrite (bool_decide_ext P Q H). Qed.

(** The loop over the nodes with the set [seen]: it passes exactly when no
    node is met twice. *)
Lemma check_seen_run (swap_edges : list (Z * Z)) (swap_nodes : list Z) :
  forall seen : gset Z,
  check_seen swap_edges swap_nodes seen =
    if bool_decide (NoDup swap_nodes /\ Forall (fun x => x ∉ seen) swap_nodes)
    then Ok tt else Raise (RuntimeError (NodeUsedTwice swap_edges)).
Proof.
  induction swap_nodes as [|node rest IH]; intros seen.
  { cbn [check_seen]. rewrite bool_decide_eq_true_2; [done|]. split; constructor. }
  cbn [check_seen]. destruct (decide (node ∈ seen)) as [Hin|Hnin].
  - rewrite bool_decide_eq_false_2; [done|]. intros [_ Hs].
    by apply Forall_cons in Hs as [Hs _].
  - rewrite IH. apply bool_decide_ext_if. rewrite !Forall_forall. split.
    + intros [Hnd Hs]. split.
      * apply NoDup_cons_2; [|done]. intros Hn. apply (Hs node Hn). set_solver.
      * intros x Hx. apply elem_of_cons in Hx as [->|Hx]; [done|].
        intros Hxs. apply (Hs x Hx). set_solver.
    + intros [Hnd Hs]. apply NoDup_cons in Hnd as [Hn Hnd]. split; [done|].
      intros x Hx Hxs. apply elem_of_union in Hxs as [Hxs|Hxs].
      * apply elem_of_singleton in Hxs as ->. done.
      * apply (Hs x); [by right|done].
Qed.

Lemma vertex_disjoint_NoDup (l : list (Z * Z)) :
  Forall (fun e => fst e <> snd e) l ->
  vertex_disjoint l = true ->
  NoDup (flat_map (fun edge => [fst edge; snd edge]) l).
Proof.
  induction l as [|e rest IH]; intros Hloop Hd; [constructor|].
  apply Forall_cons in Hloop as [He Hloop].
  simpl in Hd. apply andb_prop in Hd as [Hshare Hd].
  assert (Hfresh : forall x, x = fst e \/ x = snd e ->
            x ∉ flat_map (fun edge => [fst edge; snd edge]) rest).
  { intros x Hx Hin. apply list_elem_of_In, in_flat_map in Hin as (e' & He' & Hx').
    rewrite forallb_forall in Hshare. specialize (Hshare e' He').
    apply negb_true_iff in Hshare. unfold share_node in Hshare.
    apply orb_false_elim in Hshare as [Hshare H4].
    apply orb_false_elim in Hshare as [Hshare H3].
    apply orb_false_elim in Hshare as [H1 H2].
    apply Z.eqb_neq in H1, H2, H3, H4.
    simpl in Hx'. destruct Hx as [-> | ->]; destruct Hx' as [?|[?|[]]]; congruence. }
  simpl. apply NoDup_cons_2.
  { rewrite elem_of_cons. intros [?|Hin]; [done|]. by apply (Hfresh (fst e)); [left|]. }
  apply NoDup_cons_2; [by apply Hfresh; right|by apply IH].
Qed.

Lemma selected_edges_Forall (P : Z * Z -> Prop) (es : list (Z * Z)) :
  forall solution : list Z,
  Forall P es -> Forall P (selected_edges es solution).
Proof.
  induction es as [|e es IH]; intros solution Hes; [constructor|].
  destruct solution as [|x solution]; [constructor|].
  apply Forall_cons in Hes as [He Hes]. rewrite selected_edges_cons.
  destruct (truthy x); [constructor; [done|]|]; by apply IH.
Qed.

Lemma selected_edges_none (es : list (Z * Z)) (solution : list Z) :
  boolean_array solution ->
  existsb (fun s => s =? 1) solution = false ->
  selected_edges es solution = [].
Proof.
  revert es. induction solution as [|x solution IH]; intros es Hb Hnone.
  { unfold selected_edges. by rewrite zip_with_nil_r. }
  destruct es as [|e es]; [done|].
  apply Forall_cons in Hb as [Hx Hb]. simpl in Hnone.
  apply orb_false_elim in Hnone as [H1 Hnone]. apply Z.eqb_neq in H1.
  destruct Hx as [-> | ->]; [|done]. rewrite selected_edges_cons. simpl. by apply IH.
Qed.

(** X8.  For a solution of zeros and ones over the edges of a device
    without loops, and a mask of the same length, [check_valid_solution]
    is decided as follows: a selected edge that the mask forbids gives
    the [RuntimeError] "Protected edge is being swapped"; otherwise two
    selected edges with a node in common give the [RuntimeError] "Same
    node is being used twice" with the selected edges; otherwise the check
    returns.  It returns exactly for the valid solutions. *)
Theorem check_valid_solution_decides
    (self : AnnealerDQN) (solution : list Z) (forced_mask : list bool) :
  boolean_array solution ->
  length solution = length (edges (annealer_device self)) ->
  length forced_mask = length solution ->
  Forall (fun e => fst e <> snd e) (edges (annealer_device self)) ->
  let swap_edges := selected_edges (edges (annealer_device self)) solution in
  check_valid_solution self solution forced_mask =
    (if existsb (fun p => fst p && (snd p =? 1)) (zip forced_mask solution)
     then Raise (RuntimeError ProtectedEdgeSwapped)
     else if vertex_disjoint swap_edges then Ok tt
          else Raise (RuntimeError (NodeUsedTwice swap_edges))) /\
  (check_valid_solution self solution forced_mask = Ok tt <->
   valid_solution (edges (annealer_device self)) forced_mask solution).
Proof.
  intros Hb Hlen Hmask Hloop swap_edges.
  assert (Hrun : check_valid_solution self solution forced_mask =
    (if existsb (fun p => fst p && (snd p =? 1)) (zip forced_mask solution)
     then Raise (RuntimeError ProtectedEdgeSwapped)
     else if vertex_disjoint swap_edges then Ok tt
          else Raise (RuntimeError (NodeUsedTwice swap_edges)))).
  { unfold check_valid_solution.
    rewrite (check_protected_run solution forced_mask (length solution) 0) by done.
    rewrite drop_0.
    destruct (existsb (fun p => fst p && (snd p =? 1)) (zip forced_mask solution)); [done|].
    destruct (existsb (fun s => s =? 1) solution) eqn:Eone.
    - rewrite edges_at_selected by (done || lia). fold swap_edges.
      rewrite check_seen_run.
      destruct (vertex_disjoint swap_edges) eqn:Ed.
      + rewrite bool_decide_eq_true_2; [done|]. split.
        * apply vertex_disjoint_NoDup; [|done]. by apply selected_edges_Forall.
        * apply Forall_forall. intros x _. apply not_elem_of_empty.
      + rewrite bool_decide_eq_false_2; [done|]. intros [Hnd _].
        apply NoDup_vertex_disjoint in Hnd. congruence.
    - unfold swap_edges. by rewrite selected_edges_none. }
  split; [exact Hrun|]. split; [by apply check_valid_solution_sound|].
  intros (_ & Hfree & Hd). rewrite Hrun. fold swap_edges in Hd. rewrite Hd.
  destruct (existsb (fun p => fst p && (snd p =? 1)) (zip forced_mask solution)) eqn:Ep;
    [|done].
  apply existsb_exists in Ep as ([m x] & Hin & Hmx). simpl in Hmx.
  apply andb_prop in Hmx as [-> Hx]. apply Z.eqb_eq in Hx as ->.
  apply list_elem_of_In, list_elem_of_lookup in Hin as [k Hk].
  apply lookup_zip_with_Some in Hk as (m' & x' & [= <- <-] & Hm & Hx).
  specialize (Hfree k Hx). congruence.
Qed.

Lemma check_valid_solution_decides_witness :
  let swap_edges := selected_edges (edges (annealer_device path_annealer)) [1; 1] in
  check_valid_solution path_annealer [1; 1] [false; false] =
    (if existsb (fun p => fst p && (snd p =? 1)) (zip [false; false] [1; 1])
     then Raise (RuntimeError ProtectedEdgeSwapped)
     else if vertex_disjoint swap_edges then Ok tt
          else Raise (RuntimeError (NodeUsedTwice swap_edges))) /\
  (check_valid_solution path_annealer [1; 1] [false; false] = Ok tt <->
   valid_solution (edges (annealer_device path_annealer)) [false; false] [1; 1]).
Proof.
  apply (check_valid_solution_decides path_annealer [1; 1] [false; false]).
  - repeat (apply Forall_cons_2; [lia|]). apply Forall_nil_2.
  - reflexivity.
  - reflexivity.
  - repeat (apply Forall_cons_2; [simpl; lia|]). apply Forall_nil_2.
Defined.

(** ** The mask of the protected nodes *)

Lemma elem_of_selected_edges (es : list (Z * Z)) (solution : list Z) (e : Z * Z) :
  e ∈ selected_edges es solution <->
  exists (k : nat) (x : Z), es !! k = Some e /\ solution !! k = Some x /\ truthy x = true.
Proof.
  unfold selected_edges. rewrite list_elem_of_fmap. split.
  - intros ([e' x] & -> & Hin). apply list_elem_of_filter in Hin as [Ht Hin].
    apply list_elem_of_lookup in Hin as [k Hk].
    apply lookup_zip_with_Some in Hk as (e'' & x' & [= <- <-] & He & Hx).
    exists k, x. done.
  - intros (k & x & He & Hx & Ht). exists (e, x). split; [done|].
    apply list_elem_of_filter. split; [done|].
    apply list_elem_of_lookup. exists k. apply lookup_zip_with_Some. eauto.
Qed.

(** X9.  [generate_forced_mask] marks, edge by edge, the edges of the
    device with an endpoint among the protected nodes; a solution of zeros
    and ones that [check_valid_solution] lets through under this mask
    selects no edge that touches a protected node. *)
Theorem forced_mask_keeps_protected_nodes_out
    (self : AnnealerDQN) (protected_nodes : list Z) (solution : list Z) :
  boolean_array solution ->
  check_valid_solution self solution (generate_forced_mask self protected_nodes) = Ok tt ->
  length (generate_forced_mask self protected_nodes) = length (edges (annealer_device self)) /\
  (forall (k : nat) e, edges (annealer_device self) !! k = Some e ->
     generate_forced_mask self protected_nodes !! k =
       Some (bool_decide (fst e ∈ protected_nodes \/ snd e ∈ protected_nodes))) /\
  (forall e, e ∈ selected_edges (edges (annealer_device self)) solution ->
     (fst e ∉ protected_nodes) /\ (snd e ∉ protected_nodes)).
Proof.
  intros Hb Hok.
  assert (Hmask : forall (k : nat) e, edges (annealer_device self) !! k = Some e ->
            generate_forced_mask self protected_nodes !! k =
              Some (bool_decide (fst e ∈ protected_nodes \/ snd e ∈ protected_nodes))).
  { intros k e He. unfold generate_forced_mask. rewrite list_lookup_fmap, He. simpl.
    f_equal. destruct (bool_decide_reflect (fst e ∈ protected_nodes)) as [H1|H1];
      destruct (bool_decide_reflect (snd e ∈ protected_nodes)) as [H2|H2]; simpl;
      symmetry; (apply bool_decide_eq_true_2 || apply bool_decide_eq_false_2); tauto. }
  split; [unfold generate_forced_mask; by rewrite length_fmap|]. split; [exact Hmask|].
  intros e He. apply elem_of_selected_edges in He as (k & x & Hk & Hx & Ht).
  destruct (check_valid_solution_sound self solution _ Hb Hok) as (_ & Hfree & _).
  assert (x = 1) as ->.
  { unfold boolean_array in Hb. rewrite Forall_forall in Hb.
    destruct (Hb x) as [-> | ->]; [|done|done].
    by eapply list_elem_of_lookup_2. }
  specialize (Hfree k Hx). rewrite (Hmask k e Hk) in Hfree.
  injection Hfree as Hfree. apply bool_decide_eq_false_1 in Hfree. tauto.
Qed.

Lemma forced_mask_keeps_protected_nodes_out_witness :
  length (generate_forced_mask path_annealer [2]) = length (edges (annealer_device path_annealer)) /\
  (forall (k : nat) e, edges (annealer_device path_annealer) !! k = Some e ->
     generate_forced_mask path_annealer [2] !! k =
       Some (bool_decide (fst e ∈ [2] \/ snd e ∈ [2]))) /\
  (forall e, e ∈ selected_edges (edges (annealer_device path_annealer)) [1; 0] ->
     (fst e ∉ [2]) /\ (snd e ∉ [2])).
Proof.
  apply (forced_mask_keeps_protected_nodes_out path_annealer [2] [1; 0]).
  - repeat (apply Forall_cons_2; [lia|]). apply Forall_nil_2.
  - vm_compute. reflexivity.
Defined.

(** ** One edge at a time *)

Lemma flip_changes (x : Z) : (x + 1) mod 2 <> x.
Proof. intros H. pose proof (Z.mod_pos_bound (x + 1) 2 ltac:(lia)). 
  assert (x = 0 \/ x = 1) as [-> | ->] by lia; done. Qed.

(** X10.  The initial candidate of the search is the empty solution, or the
    empty solution with one of the edges that [swappable_edges] offers
    selected.  A neighbour that [get_neighbour_solution] returns differs
    from the solution it was asked for in exactly one entry, the entry of
    one of the edges that [swappable_edges] offers for that solution, which
    is flipped; it has passed [check_valid_solution], one random draw was
    taken, and the state was not written to. *)
Theorem neighbour_differs_in_one_edge
    (swappable_edges : StateView -> list Z -> option (list Z))
    (protected_edges : StateView -> list bool) (tape : Tape)
    (self : AnnealerDQN) (s : CircuitStateDQN) (w : AWorld) (v : StateView) :
  fst (observe s (store w)) = Ok v ->
  (forall solution0 w',
     generate_initial_solution swappable_edges tape self s w = (Ok solution0, w') ->
     store w' = store w /\
     (solution0 = replicate (length (edges (annealer_device self))) 0 \/
      exists available i k,
        swappable_edges v (replicate (length (edges (annealer_device self))) 0)
          = Some available /\ i ∈ available /\
        np_index (length (edges (annealer_device self))) i = Some k /\
        solution0 = <[k := 1]> (replicate (length (edges (annealer_device self))) 0))) /\
  (forall solution solution' w',
     get_neighbour_solution swappable_edges protected_edges tape self solution s w
       = (Ok solution', w') ->
     exists available i k x,
       swappable_edges v solution = Some available /\ i ∈ available /\
       np_index (length solution) i = Some k /\ solution !! k = Some x /\
       solution' = <[k := (x + 1) mod 2]> solution /\
       solution' !! k <> solution !! k /\
       (forall j, j <> k -> solution' !! j = solution !! j) /\
       check_valid_solution self solution' (protected_edges v) = Ok tt /\
       store w' = store w /\ draws w' = S (draws w)).
Proof.
  intros Hv. split.
  - intros solution0 w' Hrun.
    destruct (initial_run swappable_edges tape self s w v _ _ Hv Hrun) as (Hs & _ & _ & Hsol).
    split; [done|]. destruct (Hsol solution0 eq_refl) as [_ [->|Hone]]; [by left|right].
    destruct Hone as (available & i & k & Ha & Hi & Hk & ->).
    rewrite length_replicate in Hk. by exists available, i, k.
  - intros solution solution' w' Hrun.
    unfold get_neighbour_solution, bind, log, modify in Hrun.
    cbn [fst snd store draws trace] in Hrun.
    rewrite (on_store_observe s _ v) in Hrun by done.
    destruct (no_edges (swappable_edges v solution)) eqn:En; [done|].
    apply no_edges_false in En as (l & El & Hl). rewrite El in Hrun.
    simpl default in Hrun.
    match type of Hrun with context [random_choice tape l ?w1] =>
      destruct (random_choice_run tape l w1 Hl) as (i & Hi & Hc) end.
    rewrite Hc in Hrun. unfold lift_result in Hrun.
    destruct (flip solution i) as [solution1|e] eqn:Ef; [|done].
    cbn [fst snd store draws trace] in Hrun.
    rewrite (on_store_observe s _ v) in Hrun by done.
    destruct (check_valid_solution self solution1 (protected_edges v)) as [[]|e] eqn:Ec;
      [|done].
    injection Hrun as <- <-. cbn [store draws].
    apply flip_Ok in Ef as (k & x & Hk & Hx & ->).
    exists l, i, k, x. split_and!; try done.
    + rewrite list_lookup_insert_eq by (by eapply lookup_lt_Some). rewrite Hx.
      intros [= H]. by apply flip_changes in H.
    + intros j Hj. by apply list_lookup_insert_ne.
Qed.

Lemma neighbour_differs_in_one_edge_witness :
  (forall solution0 w',
     generate_initial_solution swappable_edges_of constant_tape path_annealer path_state
       path_world = (Ok solution0, w') ->
     store w' = store path_world /\
     (solution0 = replicate (length (edges (annealer_device path_annealer))) 0 \/
      exists available i k,
        swappable_edges_of path_view
          (replicate (length (edges (annealer_device path_annealer))) 0)
          = Some available /\ i ∈ available /\
        np_index (length (edges (annealer_device path_annealer))) i = Some k /\
        solution0 = <[k := 1]> (replicate (length (edges (annealer_device path_annealer))) 0))) /\
  (forall solution solution' w',
     get_neighbour_solution swappable_edges_of protected_edges_of constant_tape
       path_annealer solution path_state path_world = (Ok solution', w') ->
     exists available i k x,
       swappable_edges_of path_view solution = Some available /\ i ∈ available /\
       np_index (length solution) i = Some k /\ solution !! k = Some x /\
       solution' = <[k := (x + 1) mod 2]> solution /\
       solution' !! k <> solution !! k /\
       (forall j, j <> k -> solution' !! j = solution !! j) /\
       check_valid_solution path_annealer solution' (protected_edges_of path_view) = Ok tt /\
       store w' = store path_world /\ draws w' = S (draws path_world)).
Proof.
  apply (neighbour_differs_in_one_edge swappable_edges_of protected_edges_of constant_tape
           path_annealer path_state path_world path_view).
  reflexivity.
Defined.

(** ** The iteration budget *)

Section SearchBudget.

Variable E : Type.
Variable E_ltb : E -> E -> bool.
Variable exp_minus_diff_over : E -> E -> float -> float.
Variable oracle : list Z -> StateView -> string -> result E.
Variable swappable_edges : StateView -> list Z -> option (list Z).
Variable protected_edges : StateView -> list bool.
Variable tape : Tape.
Variable self : AnnealerDQN.
Variable s : CircuitStateDQN.
Variable action_chooser : string.
Variable limit : Z.

Local Abbreviation budget_body :=
  (anneal_body E E_ltb exp_minus_diff_over oracle swappable_edges protected_edges tape
     self s action_chooser).
Local Abbreviation budget_loop :=
  (fun fuel => anneal_loop E E_ltb exp_minus_diff_over oracle swappable_edges protected_edges
     tape fuel self s action_chooser (Some limit)).
Local Abbreviation budget_search :=
  (fun fuel => search_from E E_ltb exp_minus_diff_over oracle swappable_edges protected_edges
     tape fuel self s action_chooser (Some limit)).

Lemma budget_loop_eq (fuel : nat) (v : locals E) :
  budget_loop fuel v =
    if ltb (min_temperature self) (temp E v) then
      if limit <? iterations E v then ret (Some v)
      else match fuel with
           | O => ret None
           | S fuel' => bind (budget_body v) (budget_loop fuel')
           end
    else ret (Some v).
Proof. by destruct fuel. Qed.

(** The loop with a budget: after [k] passes, at most [limit + 1 - k] more;
    and exactly as many when the schedule is still hot at each of them and
    the loop is left in the ordinary way. *)
Lemma budget_loop_run (view : StateView) :
  forall (fuel k : nat) (v : locals E) (w : AWorld)
         (r : result (option (locals E))) (w' : AWorld),
  fst (observe s (store w)) = Ok view ->
  temp E v = temperature_after self k ->
  iterations E v = Z.of_nat k ->
  budget_loop fuel v w = (r, w') ->
  (neighbour_count (trace w') <=
     neighbour_count (trace w) + Z.to_nat (limit + 1 - Z.of_nat k))%nat /\
  ((forall j : nat, Z.of_nat j <= limit ->
      ltb (min_temperature self) (temperature_after self j) = true) ->
   Z.of_nat k <= limit + 1 ->
   forall vf, r = Ok (Some vf) ->
     neighbour_count (trace w') =
       (neighbour_count (trace w) + Z.to_nat (limit + 1 - Z.of_nat k))%nat).
Proof.
  induction fuel as [|fuel IH]; intros k v w r w' Hv Htemp Hit Hrun;
    rewrite budget_loop_eq in Hrun; rewrite Hit, Htemp in Hrun.
  - destruct (ltb (min_temperature self) (temperature_after self k)) eqn:Ehot.
    + destruct (Z.ltb_spec limit (Z.of_nat k)); injection Hrun as <- <-.
      * split; [lia|]. intros _ Hk vf _. lia.
      * split; [lia|]. by intros _ _ vf.
    + injection Hrun as <- <-. split; [lia|]. intros Hhot Hk vf _.
      destruct (Z.le_gt_cases (Z.of_nat k) limit) as [Hle|Hgt]; [|lia].
      rewrite (Hhot k Hle) in Ehot. done.
  - destruct (ltb (min_temperature self) (temperature_after self k)) eqn:Ehot.
    2:{ injection Hrun as <- <-. split; [lia|]. intros Hhot Hk vf _.
        destruct (Z.le_gt_cases (Z.of_nat k) limit) as [Hle|Hgt]; [|lia].
        rewrite (Hhot k Hle) in Ehot. done. }
    destruct (Z.ltb_spec limit (Z.of_nat k)).
    { injection Hrun as <- <-. split; [lia|]. intros _ Hk vf _. lia. }
    unfold bind in Hrun. destruct (budget_body v w) as [rb wb] eqn:Hb.
    destruct (body_run E E_ltb exp_minus_diff_over oracle swappable_edges protected_edges
                tape self s action_chooser v w view rb wb Hv Hb)
      as (Hs & (tr & Htr & _ & Hnc) & Hnext).
    assert (Hcount : neighbour_count (trace wb) = S (neighbour_count (trace w))).
    { rewrite Htr. by apply neighbour_count_body. }
    destruct rb as [v1|e].
    + destruct (Hnext v1 eq_refl) as (Ht1 & Hi1 & _).
      destruct (IH (S k) v1 wb r w') as [Hle Hexact].
      * by rewrite Hs.
      * by rewrite Ht1, Htemp.
      * rewrite Hi1, Hit. lia.
      * done.
      * split; [lia|]. intros Hhot Hk vf Hr.
        rewrite (Hexact Hhot ltac:(lia) vf Hr). lia.
    + injection Hrun as <- <-. split; [lia|]. by intros _ _ vf.
Qed.

(** The search from the test of the initial solution on, with a budget. *)
Lemma budget_search_run (view : StateView) (fuel : nat) (solution0 : list Z) (w : AWorld)
    (r : result (option (list Z * energy E))) (w' : AWorld) :
  fst (observe s (store w)) = Ok view ->
  budget_search fuel solution0 w = (r, w') ->
  (neighbour_count (trace w') <= neighbour_count (trace w) + Z.to_nat (limit + 1))%nat /\
  ((forall j : nat, Z.of_nat j <= limit ->
      ltb (min_temperature self) (temperature_after self j) = true) ->
   0 <= limit ->
   forall solution e, r = Ok (Some (solution, Tensor e)) ->
     neighbour_count (trace w') = (neighbour_count (trace w) + Z.to_nat (limit + 1))%nat).
Proof.
  intros Hv Hrun. unfold search_from in Hrun.
  destruct (forallb (fun x => x =? 0) solution0).
  { assert (w' = w /\ forall solution e, r <> Ok (Some (solution, Tensor e))) as [-> Hr].
    { destruct (String.eqb action_chooser "model"); injection Hrun as <- <-; by split. }
    split; [lia|]. intros _ _ solution e Hs. by apply Hr in Hs. }
  unfold bind in Hrun.
  rewrite (energy_run E oracle s action_chooser solution0 w view Hv) in Hrun.
  destruct (oracle solution0 view action_chooser) as [energy0|e].
  2:{ injection Hrun as <- <-. cbn [trace]. rewrite neighbour_count_app. simpl.
      split; [lia|]. by intros _ _ solution e'. }
  match type of Hrun with context [anneal_loop _ _ _ _ _ _ _ _ _ _ _ _ ?v0 ?w0] =>
    destruct (budget_loop fuel v0 w0) as [rl wl] eqn:Hl;
    destruct (budget_loop_run view fuel 0 v0 w0 rl wl) as [Hle Hexact];
      [done|done|done|done|]
  end.
  cbn [trace] in Hle, Hexact. rewrite neighbour_count_app in Hle, Hexact.
  simpl in Hle, Hexact. rewrite Z.sub_0_r in Hle, Hexact.
  assert (Hr : r = match rl with
                   | Ok ov => Ok ((fun v => (best_solution E v, Tensor (best_energy E v))) <$> ov)
                   | Raise e => Raise e
                   end /\ w' = wl).
  { destruct rl; by injection Hrun as <- <-. }
  destruct Hr as [-> ->]. split; [lia|].
  intros Hhot Hlimit solution e Hr. destruct rl as [[vf|]|e']; try done.
  rewrite (Hexact Hhot ltac:(lia) vf eq_refl). lia.
Qed.

(** The whole of [simulated_annealing], with a budget. *)
Lemma budget_annealing_run (view : StateView) (fuel : nat) (w : AWorld)
    (r : result (option (list Z * energy E))) (w' : AWorld) :
  length (circuit s) = n_nodes (device s) ->
  fst (observe s (store w)) = Ok view ->
  simulated_annealing E E_ltb exp_minus_diff_over oracle swappable_edges protected_edges
    tape fuel self s action_chooser (Some limit) w = (r, w') ->
  (neighbour_count (trace w') <= neighbour_count (trace w) + Z.to_nat (limit + 1))%nat /\
  ((forall j : nat, Z.of_nat j <= limit ->
      ltb (min_temperature self) (temperature_after self j) = true) ->
   0 <= limit ->
   forall solution e, r = Ok (Some (solution, Tensor e)) ->
     neighbour_count (trace w') = (neighbour_count (trace w) + Z.to_nat (limit + 1))%nat).
Proof.
  intros Hlen Hv Hrun. unfold simulated_annealing, bind in Hrun.
  destruct (on_store_copy s w view Hlen Hv) as (c1 & h1 & Hc1 & Hsub1 & Hv1).
  rewrite Hc1 in Hrun.
  assert (Hview1 : fst (observe s h1) = Ok view) by (by eapply observe_weaken).
  match type of Hrun with context [generate_initial_solution _ _ _ _ ?w1] =>
    destruct (generate_initial_solution swappable_edges tape self s w1) as [r0 w2] eqn:Hi;
    destruct (initial_run swappable_edges tape self s w1 view r0 w2 Hview1 Hi)
      as (Hs2 & Ht2 & _)
  end.
  cbn [store trace] in Hs2, Ht2.
  destruct r0 as [solution0|e].
  2:{ injection Hrun as <- <-. rewrite Ht2. split; [lia|]. by intros _ _ solution e'. }
  assert (Hview2 : fst (observe s (store w2)) = Ok view) by (by rewrite Hs2).
  destruct (on_store_copy s w2 view Hlen Hview2) as (c2 & h3 & Hc2 & Hsub3 & Hv3).
  rewrite Hc2 in Hrun. rewrite Hs2 in Hsub3.
  unfold on_store at 1 in Hrun. cbn [store draws trace] in Hrun.
  rewrite (eq_same_view c1 c2 h3 view) in Hrun; [|by eapply observe_weaken|done].
  cbn [negb] in Hrun.
  assert (Hview3 : fst (observe s h3) = Ok view)
    by exact (observe_weaken s h1 h3 view Hview1 Hsub3).
  match type of Hrun with context [search_from _ _ _ _ _ _ _ _ _ _ _ _ _ ?w3] =>
    destruct (budget_search_run view fuel solution0 w3 r w' Hview3 Hrun) as [Hle Hexact]
  end.
  cbn [trace] in Hle, Hexact. rewrite Ht2 in Hle, Hexact. done.
Qed.

End SearchBudget.

(** X11.  With [search_limit = k] the loop of [simulated_annealing] is left
    by the test [iterations > k]: the search proposes at most [k + 1]
    neighbours (none for a negative [k]); and when the temperature is above
    the minimum for the first [k + 1] passes, a search that returns a
    scored solution has proposed exactly [k + 1] neighbours. *)
Theorem search_limit_allows_one_more_pass
    (E : Type) (E_ltb : E -> E -> bool) (exp_minus_diff_over : E -> E -> float -> float)
    (oracle : list Z -> StateView -> string -> result E)
    (swappable_edges : StateView -> list Z -> option (list Z))
    (protected_edges : StateView -> list bool) (tape : Tape)
    (fuel : nat) (self : AnnealerDQN) (s : CircuitStateDQN)
    (action_chooser : string) (limit : Z)
    (view : StateView) (w w' : AWorld) (r : result (option (list Z * energy E))) :
  length (circuit s) = n_nodes (device s) ->
  fst (observe s (store w)) = Ok view ->
  simulated_annealing E E_ltb exp_minus_diff_over oracle swappable_edges protected_edges
    tape fuel self s action_chooser (Some limit) w = (r, w') ->
  (neighbour_count (trace w') <= neighbour_count (trace w) + Z.to_nat (limit + 1))%nat /\
  ((forall j : nat, Z.of_nat j <= limit ->
      ltb (min_temperature self) (temperature_after self j) = true) ->
   0 <= limit ->
   forall solution e, r = Ok (Some (solution, Tensor e)) ->
     neighbour_count (trace w') = (neighbour_count (trace w) + Z.to_nat (limit + 1))%nat).
Proof.
  intros Hlen Hv Hrun.
  exact (budget_annealing_run E E_ltb exp_minus_diff_over oracle swappable_edges
           protected_edges tape self s action_chooser limit view fuel w r w' Hlen Hv Hrun).
Qed.

Lemma search_limit_allows_one_more_pass_witness :
  (neighbour_count (trace (snd (example_search 200 (Some 1%Z) path_world))) <=
     neighbour_count (trace path_world) + Z.to_nat (1 + 1))%nat /\
  ((forall j : nat, Z.of_nat j <= 1 ->
      ltb (min_temperature path_annealer) (temperature_after path_annealer j) = true) ->
   0 <= 1 ->
   forall solution e,
     fst (example_search 200 (Some 1) path_world) = Ok (Some (solution, Tensor e)) ->
     neighbour_count (trace (snd (example_search 200 (Some 1) path_world))) =
       (neighbour_count (trace path_world) + Z.to_nat (1 + 1))%nat).
Proof.
  apply (search_limit_allows_one_more_pass Z Z.ltb (fun _ _ _ => 0%float) swap_count_oracle
           swappable_edges_of protected_edges_of constant_tape
           200 path_annealer path_state "model" 1 path_view path_world
           (snd (example_search 200 (Some 1) path_world))
           (fst (example_search 200 (Some 1) path_world))).
  - reflexivity.
  - reflexivity.
  - vm_compute. reflexivity.
Defined.

(** ** Swapping twice *)

(** One pass of the loop of [execute_swap] on nodes of the device. *)
Lemma swap_pass_exact {B} (l : loc) (node1 node2 : Z) (x : B) (h : heap) (a : list Z) :
  h !! l = Some a ->
  0 <= node1 < Z.of_nat (length a) -> 0 <= node2 < Z.of_nat (length a) ->
  (v2 <- array_get l node2 ;;
   v1 <- array_get l node1 ;;
   array_set l node1 v2 ;;
   array_set l node2 v1 ;;
   ret x) h =
  (Ok x, <[l := <[Z.to_nat node2 := item a node1]> (<[Z.to_nat node1 := item a node2]> a)]> h).
Proof.
  intros Hl H1 H2. unfold bind.
  rewrite (array_get_run _ _ _ _ Hl), (getitem_item a node2 H2).
  rewrite (array_get_run _ _ _ _ Hl), (getitem_item a node1 H1).
  rewrite (array_set_run _ _ _ _ _ Hl), np_index_nonneg by done.
  rewrite (array_set_run _ _ _ _ (<[Z.to_nat node1 := item a node2]> a))
    by apply lookup_insert_eq.
  rewrite length_insert, np_index_nonneg by done.
  unfold ret. by rewrite insert_insert_eq.
Qed.

(** The loop of [execute_swap] along edges that share no node: the qubits
    at the two ends of every selected edge are exchanged and every other
    node keeps its qubit. *)
Lemma swap_loop_exchanges (self : CircuitStateDQN) (n : nat) :
  forall (es : list (Z * Z)) (solution : list Z) (gates : list (Z * Z))
         (h : heap) (a : list Z),
  h !! _node_to_qubit self = Some a ->
  length a = n ->
  edges_in_range n es ->
  vertex_disjoint (selected_edges es solution) = true ->
  exists a',
    foldM (fun gates_being_executed '(edge, sol) =>
           if truthy sol then
             let '(node1, node2) := edge in
             v2 <- array_get (_node_to_qubit self) node2 ;;
             v1 <- array_get (_node_to_qubit self) node1 ;;
             array_set (_node_to_qubit self) node1 v2 ;;
             array_set (_node_to_qubit self) node2 v1 ;;
             ret (gates_being_executed ++ [edge])
           else ret gates_being_executed) (zip es solution) gates h
      = (Ok (gates ++ selected_edges es solution), <[_node_to_qubit self := a']> h) /\
    length a' = n /\
    (forall n1 n2, (n1, n2) ∈ selected_edges es solution ->
       item a' n1 = item a n2 /\ item a' n2 = item a n1) /\
    (forall x, 0 <= x ->
       (forall e, e ∈ selected_edges es solution -> x <> fst e /\ x <> snd e) ->
       item a' x = item a x).
Proof.
  induction es as [|[node1 node2] es IH]; intros solution gates h a Hl Hlen Hr Hd.
  { exists a. unfold selected_edges. simpl. rewrite app_nil_r, insert_id by done.
    split_and!; try done. intros n1 n2 Hin. by apply elem_of_nil in Hin. }
  destruct solution as [|sol solution].
  { exists a. unfold selected_edges. simpl. rewrite app_nil_r, insert_id by done.
    split_and!; try done. intros n1 n2 Hin. by apply elem_of_nil in Hin. }
  apply Forall_cons in Hr as [[R1 R2] Hr]. simpl in R1, R2.
  change (zip ((node1, node2) :: es) (sol :: solution))
    with (((node1, node2), sol) :: zip es solution).
  rewrite foldM_cons. rewrite selected_edges_cons in *. cbn beta iota.
  destruct (truthy sol) eqn:Et; [|by apply IH].
  cbn [vertex_disjoint] in Hd. apply andb_prop in Hd as [Hshare Hd].
  rewrite forallb_forall in Hshare.
  assert (Hapart : forall e, e ∈ selected_edges es solution ->
            node1 <> fst e /\ node1 <> snd e /\ node2 <> fst e /\ node2 <> snd e).
  { intros e He. apply list_elem_of_In in He. specialize (Hshare e He).
    apply negb_true_iff in Hshare. unfold share_node in Hshare. simpl in Hshare.
    apply orb_false_elim in Hshare as [Hshare H4].
    apply orb_false_elim in Hshare as [Hshare H3].
    apply orb_false_elim in Hshare as [H1 H2].
    apply Z.eqb_neq in H1, H2, H3, H4. done. }
  rewrite (swap_pass_exact _ node1 node2 _ h a Hl) by lia.
  set (a1 := <[Z.to_nat node2 := item a node1]> (<[Z.to_nat node1 := item a node2]> a)).
  assert (Hlen1 : length a1 = n) by (unfold a1; by rewrite !length_insert).
  assert (Ha1 : forall x, 0 <= x -> x <> node1 -> x <> node2 -> item a1 x = item a x).
  { intros x Hx N1 N2. unfold item, a1.
    rewrite !list_lookup_total_insert_ne by lia. done. }
  assert (Ha11 : item a1 node1 = item a node2).
  { unfold item at 1. unfold a1. destruct (decide (node1 = node2)) as [->|Hne].
    - rewrite list_lookup_total_insert_eq by (rewrite length_insert; lia). done.
    - rewrite list_lookup_total_insert_ne by lia.
      rewrite list_lookup_total_insert_eq by lia. done. }
  assert (Ha12 : item a1 node2 = item a node1).
  { unfold item at 1. unfold a1.
    rewrite list_lookup_total_insert_eq by (rewrite length_insert; lia). done. }
  destruct (IH solution (gates ++ [(node1, node2)]) (<[_node_to_qubit self := a1]> h) a1)
    as (a' & Hrun & Hlen' & Hset & Hkeep); [apply lookup_insert_eq|done|done|done|].
  exists a'. rewrite Hrun, insert_insert_eq, <- app_assoc. split; [done|]. split; [done|].
  split.
  - intros n1 n2 Hin. apply elem_of_cons in Hin as [[= -> ->]|Hin].
    + rewrite !Hkeep; [done|lia| |lia|].
      * intros e He. destruct (Hapart e He). tauto.
      * intros e He. destruct (Hapart e He). tauto.
    + destruct (Hset n1 n2 Hin) as [-> ->].
      destruct (Hapart _ Hin) as (A1 & A2 & A3 & A4). simpl in A1, A2, A3, A4.
      unfold edges_in_range in Hr. rewrite Forall_forall in Hr.
      assert (Hin' : (n1, n2) ∈ es).
      { apply elem_of_selected_edges in Hin as (k & x & Hk & _).
        by eapply list_elem_of_lookup_2. }
      destruct (Hr _ Hin') as [Q1 Q2]. simpl in Q1, Q2.
      rewrite !Ha1 by lia. done.
  - intros x Hx Hnot.
    destruct (Hnot (node1, node2)) as [N1 N2]; [left|]. simpl in N1, N2.
    rewrite Hkeep; [by apply Ha1|done|]. intros e He. apply Hnot. by right.
Qed.

(** X12.  Along selected edges that share no node, on a device whose edges
    join nodes of the mapping, [execute_swap] exchanges the qubits at the
    two ends of every selected edge and leaves every other node its qubit;
    and the same solution applied a second time restores the mapping. *)
Theorem execute_swap_twice_restores
    (self : CircuitStateDQN) (solution : list Z) (h : heap) (a : list Z) :
  h !! _node_to_qubit self = Some a ->
  length a = n_nodes (device self) ->
  edges_in_range (n_nodes (device self)) (edges (device self)) ->
  vertex_disjoint (selected_edges (edges (device self)) solution) = true ->
  let swaps := selected_edges (edges (device self)) solution in
  exists a',
    execute_swap self solution h = (Ok swaps, <[_node_to_qubit self := a']> h) /\
    (forall n1 n2, (n1, n2) ∈ swaps -> item a' n1 = item a n2 /\ item a' n2 = item a n1) /\
    (forall x, 0 <= x -> (forall e, e ∈ swaps -> x <> fst e /\ x <> snd e) ->
       item a' x = item a x) /\
    execute_swap self solution (<[_node_to_qubit self := a']> h) = (Ok swaps, h).
Proof.
  intros Hl Hlen Hr Hd swaps.
  destruct (swap_loop_exchanges self _ (edges (device self)) solution [] h a Hl Hlen Hr Hd)
    as (a' & Hrun & Hlen' & Hset & Hkeep).
  exists a'. split; [exact Hrun|]. split; [exact Hset|]. split; [exact Hkeep|].
  destruct (swap_loop_exchanges self _ (edges (device self)) solution []
              (<[_node_to_qubit self := a']> h) a' (lookup_insert_eq _ _ _) Hlen' Hr Hd)
    as (a'' & Hrun' & Hlen'' & Hset' & Hkeep').
  unfold execute_swap. rewrite Hrun', insert_insert_eq. f_equal.
  assert (a'' = a) as ->; [|by apply insert_id].
  apply (list_eq_same_length _ _ (n_nodes (device self))); [done|done|].
  intros i x y Hi Hx Hy.
  assert (Hitem : item a'' (Z.of_nat i) = item a (Z.of_nat i)).
  { destruct (decide (Exists (fun e => Z.of_nat i = fst e \/ Z.of_nat i = snd e) swaps))
      as [Hon|Hoff].
    - apply Exists_exists in Hon as ([n1 n2] & Hin & Hi'). simpl in Hi'.
      destruct (Hset' n1 n2 Hin) as [S1' S2']. destruct (Hset n1 n2 Hin) as [S1 S2].
      destruct Hi' as [-> | ->]; congruence.
    - assert (Hnot : forall e, e ∈ swaps -> Z.of_nat i <> fst e /\ Z.of_nat i <> snd e).
      { intros e He. split; intros Heq; apply Hoff, Exists_exists; exists e; tauto. }
      rewrite Hkeep', Hkeep by (done || lia). done. }
  unfold item in Hitem. rewrite Nat2Z.id in Hitem.
  rewrite (list_lookup_total_correct _ _ _ Hx), (list_lookup_total_correct _ _ _ Hy) in Hitem.
  done.
Qed.

Lemma execute_swap_twice_restores_witness :
  let swaps := selected_edges (edges (device path_state)) [1; 0] in
  exists a',
    execute_swap path_state [1; 0] path_heap
      = (Ok swaps, <[_node_to_qubit path_state := a']> path_heap) /\
    (forall n1 n2, (n1, n2) ∈ swaps ->
       item a' n1 = item [0; 1; 2] n2 /\ item a' n2 = item [0; 1; 2] n1) /\
    (forall x, 0 <= x -> (forall e, e ∈ swaps -> x <> fst e /\ x <> snd e) ->
       item a' x = item [0; 1; 2] x) /\
    execute_swap path_state [1; 0] (<[_node_to_qubit path_state := a']> path_heap)
      = (Ok swaps, path_heap).
Proof.
  apply (execute_swap_twice_restores path_state [1; 0] path_heap [0; 1; 2]).
  - reflexivity.
  - reflexivity.
  - repeat (apply Forall_cons_2; [simpl; lia|]). apply Forall_nil_2.
  - reflexivity.
Defined.

(** ** The invariant of the routing states *)

(** [execute_cnot] in a state that satisfies the invariant: what it
    returns, and the progress it leaves. *)
Lemma execute_cnot_run (self : CircuitStateDQN) (h : heap) (a t p : list Z) :
  NoDup [_node_to_qubit self; _qubit_targets self; _circuit_progress self] ->
  h !! _node_to_qubit self = Some a ->
  h !! _qubit_targets self = Some t ->
  h !! _circuit_progress self = Some p ->
  routing_invariant self a t p ->
  let fired := filter (fun e => mutual a t e = true) (edges (device self)) in
  let p' := foldl bump p (flat_map (ends a) fired) in
  execute_cnot self h =
    (Ok fired, <[_qubit_targets self := zip_with next_target (circuit self) p']>
                 (<[_circuit_progress self := p']> h)) /\
  length p' = n_nodes (device self) /\
  (forall q, 0 <= q < Z.of_nat (n_nodes (device self)) ->
     item p q <= item p' q <= item p q + 1 /\
     0 <= item p' q <= Z.of_nat (length (circuit self !!! Z.to_nat q))).
Proof.
  intros Hdistinct Ha Ht Hp Hinv fired p'0.
  pose proof Hinv as [Hperm Hqubits Hedges Hsimple Hinter Hprog Htargets].
  set (N := n_nodes (device self)) in *.
  set (qs := flat_map (ends a) fired).
  set (p' := foldl bump p qs).
  change p'0 with p'. clear p'0.
  set (t' := zip_with next_target (circuit self) p').
  destruct (cnot_distinct self Hdistinct) as (D1 & D2 & D3).
  assert (Hplen : length p = N).
  { rewrite <- Hqubits. symmetry. by eapply Forall2_length. }
  assert (Htlen : length t = N).
  { rewrite Htargets, length_zip_with. lia. }
  assert (Hfired_range : forall n1 n2, (n1, n2) ∈ fired -> 0 <= n1 < Z.of_nat N /\ 0 <= n2 < Z.of_nat N).
  { intros n1 n2 Hin. apply list_elem_of_filter in Hin as [_ Hin].
    unfold edges_in_range in Hedges. rewrite Forall_forall in Hedges.
    apply (Hedges _ Hin). }
  assert (Hqs_in : forall q, q ∈ qs ->
            exists n1 n2, (n1, n2) ∈ fired /\ (q = item a n1 \/ q = item a n2)).
  { intros q Hq. apply list_elem_of_In, in_flat_map in Hq as ([n1 n2] & He & Hq).
    apply list_elem_of_In in He, Hq. exists n1, n2. split; [done|].
    unfold ends in Hq. simpl in Hq. rewrite !elem_of_cons in Hq.
    destruct Hq as [?|[?|Hq]]; [by left|by right|by apply elem_of_nil in Hq]. }
  assert (Hqs : forall q, q ∈ qs ->
            0 <= q < Z.of_nat N /\ item p q < Z.of_nat (length (circuit self !!! Z.to_nat q))).
  { intros q Hq. destruct (Hqs_in q Hq) as (n1 & n2 & Hin & Hq').
    destruct (Hfired_range _ _ Hin) as [R1 R2].
    apply list_elem_of_filter in Hin as [Hm _]. apply mutual_true in Hm as [M1 M2].
    pose proof (permutation_item_range _ _ _ Hperm R1) as Q1.
    pose proof (permutation_item_range _ _ _ Hperm R2) as Q2.
    destruct Hq' as [->| ->]; (split; [done|]);
      apply (target_pending self a t p); try done; lia. }
  assert (Hbound : forall q : nat, (q < N)%nat ->
            0 <= item p (Z.of_nat q) <= Z.of_nat (length (circuit self !!! q)) /\
            Z.of_nat (length (circuit self !!! q)) < 2 ^ 63).
  { intros q Hq. rewrite Forall2_lookup in Hprog. specialize (Hprog q).
    unfold item. rewrite Nat2Z.id.
    rewrite (list_lookup_total_alt (circuit self)), (list_lookup_total_alt p).
    inversion Hprog as [x y Hxy Hx Hy|Hx Hy]; simpl; [done|].
    symmetry in Hx. apply lookup_ge_None in Hx. lia. }
  assert (Hnd : NoDup qs) by (by eapply fired_ends_NoDup).
  assert (Hp'item : forall q, 0 <= q ->
            item p' q = if decide (q ∈ qs) then item p q + 1 else item p q).
  { intros q Hq. apply foldl_bump_item; [done| |done].
    apply Forall_forall. intros x Hx. destruct (Hqs x Hx) as [Hr Hlt].
    split; [lia|]. destruct (Hbound (Z.to_nat x)) as [Hlo Hb]; [lia|].
    rewrite Z2Nat.id in Hlo by lia. unfold int64. lia. }
  assert (Hp'len : length p' = N).
  { unfold p'. by rewrite foldl_bump_length. }
  assert (Hp'bound : forall q, 0 <= q < Z.of_nat N ->
            0 <= item p' q <= Z.of_nat (length (circuit self !!! Z.to_nat q))).
  { intros q Hq. rewrite Hp'item by lia.
    destruct (Hbound (Z.to_nat q)) as [Hb _]; [lia|]. rewrite Z2Nat.id in Hb by lia.
    destruct (decide (q ∈ qs)) as [Hin|_]; [|done].
    destruct (Hqs q Hin). lia. }
  assert (Hprog' : Forall2 (fun (interactions : list Z) v =>
                              0 <= v <= Z.of_nat (length interactions)) (circuit self) p').
  { apply Forall2_same_length_lookup_2; [lia|]. intros i x y Hx Hy.
    assert (Hi : (i < N)%nat) by (rewrite <- Hqubits; by eapply lookup_lt_Some).
    specialize (Hp'bound (Z.of_nat i)). rewrite Nat2Z.id in Hp'bound.
    unfold item in Hp'bound. rewrite Nat2Z.id in Hp'bound.
    rewrite (list_lookup_total_alt (circuit self)), (list_lookup_total_alt p') in Hp'bound.
    rewrite Hx, Hy in Hp'bound. simpl in Hp'bound. apply Hp'bound. lia. }
  split; [|split].
  - unfold execute_cnot, bind, cnot_scan.
    rewrite (cnot_scan_run self a t Hdistinct Hperm Htlen (edges (device self)) [] h p)
      by done.
    simpl app. fold fired. fold qs. fold p'.
    rewrite (update_targets_run self p' D2 Hqubits Hprog' _ t).
    + done.
    + apply lookup_insert_eq.
    + by rewrite lookup_insert_ne.
    + done.
  - done.
  - intros q Hq. split; [|by apply Hp'bound].
    rewrite Hp'item by lia. destruct (decide (q ∈ qs)); lia.
Qed.

(** X13.  The invariant of the routing states is kept by the three
    operations that write to a state.  After [execute_swap], whatever the
    solution and the outcome, the mapping is a permutation again and
    targets and progress are as before; after [execute_cnot] targets and
    progress are in step again, no progress has gone down and none has gone
    up by more than one or beyond the interactions of its qubit; and
    [update_locks] touches none of the three arrays. *)
Theorem operations_keep_invariant
    (self : CircuitStateDQN) (h : heap) (a t p : list Z) :
  NoDup (arrays_of self) ->
  h !! _node_to_qubit self = Some a ->
  h !! _qubit_targets self = Some t ->
  h !! _circuit_progress self = Some p ->
  routing_invariant self a t p ->
  (forall solution, exists a',
     let h' := snd (execute_swap self solution h) in
     h' !! _node_to_qubit self = Some a' /\ h' !! _qubit_targets self = Some t /\
     h' !! _circuit_progress self = Some p /\ routing_invariant self a' t p) /\
  (exists t' p',
     let h' := snd (execute_cnot self h) in
     h' !! _node_to_qubit self = Some a /\ h' !! _qubit_targets self = Some t' /\
     h' !! _circuit_progress self = Some p' /\ routing_invariant self a t' p' /\
     forall q, 0 <= q < Z.of_nat (n_nodes (device self)) ->
       item p q <= item p' q <= item p q + 1) /\
  (forall mask multiplier,
     let h' := snd (update_locks self mask multiplier h) in
     h' !! _node_to_qubit self = Some a /\ h' !! _qubit_targets self = Some t /\
     h' !! _circuit_progress self = Some p).
Proof.
  intros Hnd Ha Ht Hp Hinv.
  assert (Hdistinct : NoDup [_node_to_qubit self; _qubit_targets self; _circuit_progress self]
                      /\ _locked_edges self <> _node_to_qubit self
                      /\ _locked_edges self <> _qubit_targets self
                      /\ _locked_edges self <> _circuit_progress self).
  { unfold arrays_of in Hnd. rewrite !NoDup_cons, !not_elem_of_cons in Hnd.
    destruct Hnd as ((N12 & N13 & N14 & _) & (N23 & N24 & _) & (N34 & _) & _).
    split; [|by split_and!].
    repeat apply NoDup_cons_2; rewrite ?elem_of_cons, ?elem_of_nil; try tauto.
    apply NoDup_nil_2. }
  destruct Hdistinct as (Hnd3 & L1 & L2 & L3).
  destruct (cnot_distinct self Hnd3) as (D1 & D2 & D3).
  pose proof Hinv as [Hperm Hqubits Hedges Hsimple Hinter Hprog Htargets].
  split; [|split].
  - intros solution.
    destruct (execute_swap_loop self _ (edges (device self)) solution [] h a Ha Hperm)
      as [(a' & Ha' & Hperm') _].
    exists a'. cbn zeta. split; [exact Ha'|].
    rewrite !(execute_swap_writes self solution h) by (rewrite list_elem_of_singleton; done).
    split; [done|]. split; [done|]. by split.
  - destruct (execute_cnot_run self h a t p Hnd3 Ha Ht Hp Hinv) as (Hrun & Hlen' & Hstep).
    eexists _, _. cbn zeta. rewrite Hrun. cbn [snd].
    rewrite !lookup_insert_ne by done. rewrite lookup_insert_eq.
    rewrite lookup_insert_ne by done. rewrite lookup_insert_eq.
    split; [exact Ha|]. split; [done|]. split; [done|]. split.
    + split; try done.
      apply Forall2_same_length_lookup_2; [lia|]. intros i x y Hx Hy.
      assert (Hi : (i < n_nodes (device self))%nat)
        by (rewrite <- Hqubits; by eapply lookup_lt_Some).
      destruct (Hstep (Z.of_nat i)) as [_ Hb]; [lia|].
      unfold item in Hb. rewrite Nat2Z.id in Hb.
      rewrite (list_lookup_total_correct _ _ _ Hx), (list_lookup_total_correct _ _ _ Hy) in Hb.
      split; [done|].
      rewrite Forall2_lookup in Hprog. specialize (Hprog i). rewrite Hx in Hprog.
      inversion Hprog as [x' y' [_ Hshort] Hx' Hy'|]. done.
    + intros q Hq. by apply Hstep.
  - intros mask multiplier. cbn zeta.
    rewrite !(update_locks_writes self mask multiplier h)
      by (rewrite list_elem_of_singleton; done).
    done.
Qed.

Lemma operations_keep_invariant_witness :
  (forall solution, exists a',
     let h' := snd (execute_swap pair_state solution pair_heap) in
     h' !! _node_to_qubit pair_state = Some a' /\ h' !! _qubit_targets pair_state = Some [1; 0] /\
     h' !! _circuit_progress pair_state = Some [0; 0] /\
     routing_invariant pair_state a' [1; 0] [0; 0]) /\
  (exists t' p',
     let h' := snd (execute_cnot pair_state pair_heap) in
     h' !! _node_to_qubit pair_state = Some [0; 1] /\ h' !! _qubit_targets pair_state = Some t' /\
     h' !! _circuit_progress pair_state = Some p' /\ routing_invariant pair_state [0; 1] t' p' /\
     forall q, 0 <= q < Z.of_nat (n_nodes (device pair_state)) ->
       item [0; 0] q <= item p' q <= item [0; 0] q + 1) /\
  (forall mask multiplier,
     let h' := snd (update_locks pair_state mask multiplier pair_heap) in
     h' !! _node_to_qubit pair_state = Some [0; 1] /\
     h' !! _qubit_targets pair_state = Some [1; 0] /\
     h' !! _circuit_progress pair_state = Some [0; 0]).
Proof.
  apply (operations_keep_invariant pair_state pair_heap [0; 1] [1; 0] [0; 0]).
  - apply (bool_decide_unpack _). vm_compute. reflexivity.
  - reflexivity.
  - reflexivity.
  - reflexivity.
  - exact pair_state_invariant.
Defined.

(** ** The energy that comes with a solution *)

Section EnergyBookkeeping.

Variable E : Type.
Variable E_ltb : E -> E -> bool.
Variable exp_minus_diff_over : E -> E -> float -> float.
Variable oracle : list Z -> StateView -> string -> result E.
Variable swappable_edges : StateView -> list Z -> option (list Z).
Variable protected_edges : StateView -> list bool.
Variable tape : Tape.
Variable self : AnnealerDQN.
Variable s : CircuitStateDQN.
Variable action_chooser : string.
Variable search_limit : option Z.

Local Abbreviation scored_body :=
  (anneal_body E E_ltb exp_minus_diff_over oracle swappable_edges protected_edges tape
     self s action_chooser).
Local Abbreviation scored_loop :=
  (fun fuel => anneal_loop E E_ltb exp_minus_diff_over oracle swappable_edges protected_edges
     tape fuel self s action_chooser search_limit).

Lemma body_scores (v : locals E) (w : AWorld) (view : StateView)
    (v' : locals E) (w' : AWorld) :
  fst (observe s (store w)) = Ok view ->
  scored_body v w = (Ok v', w') ->
  energies_agree oracle view action_chooser v ->
  energies_agree oracle view action_chooser v'.
Proof.
  intros Hv Hrun [Hc Hb]. unfold anneal_body, bind, log, modify in Hrun.
  cbn [fst snd store draws trace] in Hrun.
  match type of Hrun with context [get_neighbour_solution _ _ _ _ ?sol _ ?w1] =>
    destruct (get_neighbour_solution swappable_edges protected_edges tape self sol s w1)
      as [rn wn] eqn:Hn;
    destruct (neighbour_run swappable_edges protected_edges tape self s sol w1 view rn wn
                Hv Hn) as (Hs1 & _)
  end.
  cbn [store] in Hs1.
  destruct rn as [new_solution|e]; [|done].
  rewrite (energy_run E oracle s action_chooser new_solution wn view) in Hrun
    by (by rewrite Hs1).
  destruct (oracle new_solution view action_chooser) as [new_energy|e] eqn:Enew; [|done].
  unfold random_random, next_draw, ret in Hrun. cbn [fst snd store draws trace] in Hrun.
  injection Hrun as <- _. unfold energies_agree.
  destruct (ltb _ _); [destruct (E_ltb _ _)|];
    cbn [current_solution current_energy best_solution best_energy]; done.
Qed.

Lemma loop_scores (view : StateView) :
  forall (fuel : nat) (v : locals E) (w : AWorld) (vf : locals E) (w' : AWorld),
  fst (observe s (store w)) = Ok view ->
  scored_loop fuel v w = (Ok (Some vf), w') ->
  energies_agree oracle view action_chooser v ->
  energies_agree oracle view action_chooser vf.
Proof.
  induction fuel as [|fuel IH]; intros v w vf w' Hv Hrun Hagree;
    rewrite (anneal_loop_eq E E_ltb exp_minus_diff_over oracle swappable_edges
               protected_edges tape self s action_chooser search_limit) in Hrun.
  - destruct (ltb (min_temperature self) (temp E v)); [|by injection Hrun as <- _].
    destruct (match search_limit with Some limit => limit <? iterations E v | None => false end);
      [by injection Hrun as <- _|done].
  - destruct (ltb (min_temperature self) (temp E v)); [|by injection Hrun as <- _].
    destruct (match search_limit with Some limit => limit <? iterations E v | None => false end);
      [by injection Hrun as <- _|].
    unfold bind in Hrun. destruct (scored_body v w) as [[v1|e] wb] eqn:Hb; [|done].
    destruct (body_run E E_ltb exp_minus_diff_over oracle swappable_edges protected_edges
                tape self s action_chooser v w view _ wb Hv Hb) as (Hs & _).
    apply (IH v1 wb vf w'); [by rewrite Hs|done|].
    by apply (body_scores v w view v1 wb).
Qed.

(** The whole of [simulated_annealing]: the energy returned with a solution
    is the one the oracle gives for it. *)
Lemma annealing_scores (view : StateView) (fuel : nat) (w w' : AWorld)
    (solution : list Z) (e : E) :
  length (circuit s) = n_nodes (device s) ->
  fst (observe s (store w)) = Ok view ->
  simulated_annealing E E_ltb exp_minus_diff_over oracle swappable_edges protected_edges
    tape fuel self s action_chooser search_limit w = (Ok (Some (solution, Tensor e)), w') ->
  oracle solution view action_chooser = Ok e.
Proof.
  intros Hlen Hv Hrun. unfold simulated_annealing, bind in Hrun.
  destruct (on_store_copy s w view Hlen Hv) as (c1 & h1 & Hc1 & Hsub1 & Hv1).
  rewrite Hc1 in Hrun.
  assert (Hview1 : fst (observe s h1) = Ok view) by (by eapply observe_weaken).
  match type of Hrun with context [generate_initial_solution _ _ _ _ ?w1] =>
    destruct (generate_initial_solution swappable_edges tape self s w1) as [r0 w2] eqn:Hi;
    destruct (initial_run swappable_edges tape self s w1 view r0 w2 Hview1 Hi)
      as (Hs2 & Ht2 & _)
  end.
  cbn [store trace] in Hs2, Ht2.
  destruct r0 as [solution0|]; [|done].
  assert (Hview2 : fst (observe s (store w2)) = Ok view) by (by rewrite Hs2).
  destruct (on_store_copy s w2 view Hlen Hview2) as (c2 & h3 & Hc2 & Hsub3 & Hv3).
  rewrite Hc2 in Hrun. rewrite Hs2 in Hsub3.
  unfold on_store at 1 in Hrun. cbn [store draws trace] in Hrun.
  rewrite (eq_same_view c1 c2 h3 view) in Hrun; [|by eapply observe_weaken|done].
  cbn [negb] in Hrun.
  assert (Hview3 : fst (observe s h3) = Ok view)
    by exact (observe_weaken s h1 h3 view Hview1 Hsub3).
  unfold search_from in Hrun.
  destruct (forallb (fun x => x =? 0) solution0).
  { by destruct (String.eqb action_chooser "model"). }
  unfold bind in Hrun.
  match type of Hrun with context [get_energy _ _ _ _ _ ?w3] =>
    rewrite (energy_run E oracle s action_chooser solution0 w3 view Hview3) in Hrun
  end.
  destruct (oracle solution0 view action_chooser) as [energy0|] eqn:E0; [|done].
  match type of Hrun with context [anneal_loop _ _ _ _ _ _ _ _ _ _ _ _ ?v0 ?w0] =>
    destruct (scored_loop fuel v0 w0) as [[[vf|]|] wl] eqn:Hl; try done;
    pose proof (loop_scores view fuel v0 w0 vf wl Hview3 Hl) as Hagree
  end.
  simpl in Hrun. injection Hrun as <- <- _.
  apply Hagree. by split.
Qed.

End EnergyBookkeeping.

(** X14.  The pair that [simulated_annealing] returns belongs together:
    when the search returns a solution with the energy of the agent, that
    energy is the one the energy oracle gives for that solution in the
    state of the call, under the same action chooser. *)
Theorem returned_energy_belongs_to_solution
    (E : Type) (E_ltb : E -> E -> bool) (exp_minus_diff_over : E -> E -> float -> float)
    (oracle : list Z -> StateView -> string -> result E)
    (swappable_edges : StateView -> list Z -> option (list Z))
    (protected_edges : StateView -> list bool) (tape : Tape)
    (fuel : nat) (self : AnnealerDQN) (s : CircuitStateDQN)
    (action_chooser : string) (search_limit : option Z)
    (view : StateView) (w w' : AWorld) (solution : list Z) (e : E) :
  length (circuit s) = n_nodes (device s) ->
  fst (observe s (store w)) = Ok view ->
  simulated_annealing E E_ltb exp_minus_diff_over oracle swappable_edges protected_edges
    tape fuel self s action_chooser search_limit w = (Ok (Some (solution, Tensor e)), w') ->
  oracle solution view action_chooser = Ok e.
Proof.
  intros Hlen Hv Hrun.
  exact (annealing_scores E E_ltb exp_minus_diff_over oracle swappable_edges protected_edges
           tape self s action_chooser search_limit view fuel w w' solution e Hlen Hv Hrun).
Qed.

Lemma returned_energy_belongs_to_solution_witness :
  swap_count_oracle [0; 0] path_view "model" = Ok 0.
Proof.
  apply (returned_energy_belongs_to_solution Z Z.ltb (fun _ _ _ => 0%float) swap_count_oracle
           swappable_edges_of protected_edges_of constant_tape
           200 path_annealer path_state "model" None path_view path_world
           (snd (example_search 200 None path_world)) [0; 0] 0).
  - reflexivity.
  - reflexivity.
  - vm_compute. reflexivity.
Defined.

(** ** The best solution only gets better *)

Section BestEnergy.

Variable E : Type.
Variable E_ltb : E -> E -> bool.
Variable exp_minus_diff_over : E -> E -> float -> float.
Variable oracle : list Z -> StateView -> string -> result E.
Variable swappable_edges : StateView -> list Z -> option (list Z).
Variable protected_edges : StateView -> list bool.
Variable tape : Tape.
Variable self : AnnealerDQN.
Variable s : CircuitStateDQN.
Variable action_chooser : string.
Variable search_limit : option Z.

Hypothesis E_ltb_trans : forall x y z, E_ltb x y = true -> E_ltb y z = true -> E_ltb x z = true.

Local Abbreviation best_body :=
  (anneal_body E E_ltb exp_minus_diff_over oracle swappable_edges protected_edges tape
     self s action_chooser).
Local Abbreviation best_loop :=
  (fun fuel => anneal_loop E E_ltb exp_minus_diff_over oracle swappable_edges protected_edges
     tape fuel self s action_chooser search_limit).

(** One pass keeps the best solution or replaces it by a strictly better
    one. *)
Lemma body_best (v : locals E) (w : AWorld) (v' : locals E) (w' : AWorld) :
  best_body v w = (Ok v', w') ->
  (best_solution E v' = best_solution E v /\ best_energy E v' = best_energy E v) \/
  E_ltb (best_energy E v') (best_energy E v) = true.
Proof using Type.
  intros Hrun. unfold anneal_body, bind in Hrun.
  destruct (log (Iteration (temp E v)) w) as [[[]|] w0]; [|done].
  destruct (get_neighbour_solution swappable_edges protected_edges tape self
              (current_solution E v) s w0) as [[new_solution|] w1]; [|done].
  destruct (get_energy E oracle new_solution s action_chooser w1)
    as [[new_energy|] w2]; [|done].
  destruct (random_random tape w2) as [[u|] w3]; [|done].
  unfold ret in Hrun. injection Hrun as <- _.
  destruct (ltb _ _); [destruct (E_ltb new_energy (best_energy E v)) eqn:Eb|];
    cbn [best_solution best_energy]; auto.
Qed.

Lemma loop_best :
  forall (fuel : nat) (v : locals E) (w : AWorld) (vf : locals E) (w' : AWorld),
  best_loop fuel v w = (Ok (Some vf), w') ->
  (best_solution E vf = best_solution E v /\ best_energy E vf = best_energy E v) \/
  E_ltb (best_energy E vf) (best_energy E v) = true.
Proof.
  induction fuel as [|fuel IH]; intros v w vf w' Hrun;
    rewrite (anneal_loop_eq E E_ltb exp_minus_diff_over oracle swappable_edges
               protected_edges tape self s action_chooser search_limit) in Hrun.
  - destruct (ltb (min_temperature self) (temp E v)); [|injection Hrun as <- _; by left].
    destruct (match search_limit with Some limit => limit <? iterations E v | None => false end);
      [injection Hrun as <- _; by left|done].
  - destruct (ltb (min_temperature self) (temp E v)); [|injection Hrun as <- _; by left].
    destruct (match search_limit with Some limit => limit <? iterations E v | None => false end);
      [injection Hrun as <- _; by left|].
    unfold bind in Hrun. destruct (best_body v w) as [[v1|e] wb] eqn:Hb; [|done].
    destruct (body_best v w v1 wb Hb) as [[Hs1 He1]|Hlt1];
      destruct (IH v1 wb vf w' Hrun) as [[Hs Ho]|Hlt].
    + left. by rewrite Hs, Ho.
    + right. by rewrite <- He1.
    + right. by rewrite Ho.
    + right. by eapply E_ltb_trans.
Qed.

(** The initial candidate depends on the state and on the random source
    alone. *)
Lemma initial_same (w1 w2 : AWorld) (view : StateView) :
  fst (observe s (store w1)) = Ok view ->
  fst (observe s (store w2)) = Ok view ->
  draws w1 = draws w2 ->
  fst (generate_initial_solution swappable_edges tape self s w1) =
  fst (generate_initial_solution swappable_edges tape self s w2).
Proof using Type.
  intros H1 H2 Hd. unfold generate_initial_solution, bind.
  rewrite (on_store_observe s w1 view H1), (on_store_observe s w2 view H2).
  destruct (no_edges _); [done|].
  destruct (swappable_edges view _) as [[|i l]|]; simpl; [done| |done].
  unfold bind, next_draw, ret, lift_result. simpl. by rewrite Hd.
Qed.

Lemma annealing_best (view : StateView) (fuel : nat) (w w' : AWorld)
    (solution : list Z) (e : E) :
  length (circuit s) = n_nodes (device s) ->
  fst (observe s (store w)) = Ok view ->
  simulated_annealing E E_ltb exp_minus_diff_over oracle swappable_edges protected_edges
    tape fuel self s action_chooser search_limit w = (Ok (Some (solution, Tensor e)), w') ->
  exists solution0 e0,
    fst (generate_initial_solution swappable_edges tape self s w) = Ok solution0 /\
    oracle solution0 view action_chooser = Ok e0 /\
    ((solution = solution0 /\ e = e0) \/ E_ltb e e0 = true).
Proof.
  intros Hlen Hv Hrun. unfold simulated_annealing, bind in Hrun.
  destruct (on_store_copy s w view Hlen Hv) as (c1 & h1 & Hc1 & Hsub1 & Hv1).
  rewrite Hc1 in Hrun.
  assert (Hview1 : fst (observe s h1) = Ok view) by (by eapply observe_weaken).
  match type of Hrun with context [generate_initial_solution _ _ _ _ ?w1] =>
    pose proof (initial_same w w1 view Hv Hview1 eq_refl) as Hsame;
    destruct (generate_initial_solution swappable_edges tape self s w1) as [r0 w2] eqn:Hi;
    destruct (initial_run swappable_edges tape self s w1 view r0 w2 Hview1 Hi)
      as (Hs2 & Ht2 & _)
  end.
  cbn [store trace fst] in Hs2, Ht2, Hsame.
  destruct r0 as [solution0|]; [|done].
  assert (Hview2 : fst (observe s (store w2)) = Ok view) by (by rewrite Hs2).
  destruct (on_store_copy s w2 view Hlen Hview2) as (c2 & h3 & Hc2 & Hsub3 & Hv3).
  rewrite Hc2 in Hrun. rewrite Hs2 in Hsub3.
  unfold on_store at 1 in Hrun. cbn [store draws trace] in Hrun.
  rewrite (eq_same_view c1 c2 h3 view) in Hrun; [|by eapply observe_weaken|done].
  cbn [negb] in Hrun.
  assert (Hview3 : fst (observe s h3) = Ok view)
    by exact (observe_weaken s h1 h3 view Hview1 Hsub3).
  unfold search_from in Hrun.
  destruct (forallb (fun x => x =? 0) solution0).
  { by destruct (String.eqb action_chooser "model"). }
  unfold bind in Hrun.
  match type of Hrun with context [get_energy _ _ _ _ _ ?w3] =>
    rewrite (energy_run E oracle s action_chooser solution0 w3 view Hview3) in Hrun
  end.
  destruct (oracle solution0 view action_chooser) as [energy0|] eqn:E0; [|done].
  match type of Hrun with context [anneal_loop _ _ _ _ _ _ _ _ _ _ _ _ ?v0 ?w0] =>
    destruct (best_loop fuel v0 w0) as [[[vf|]|] wl] eqn:Hl; try done;
    pose proof (loop_best fuel v0 w0 vf wl Hl) as Hbest
  end.
  simpl in Hrun. injection Hrun as <- <- _. cbn [best_solution best_energy] in Hbest.
  exists solution0, energy0. split; [done|]. split; [done|]. exact Hbest.
Qed.

End BestEnergy.

(** X15.  The search never returns worse than it started: when the order
    on energies is transitive and [simulated_annealing] returns a solution
    with the energy of the agent, the pair is the initial candidate with its
    energy, or the energy is strictly below that of the initial candidate. *)
Theorem search_never_returns_worse
    (E : Type) (E_ltb : E -> E -> bool) (exp_minus_diff_over : E -> E -> float -> float)
    (oracle : list Z -> StateView -> string -> result E)
    (swappable_edges : StateView -> list Z -> option (list Z))
    (protected_edges : StateView -> list bool) (tape : Tape)
    (fuel : nat) (self : AnnealerDQN) (s : CircuitStateDQN)
    (action_chooser : string) (search_limit : option Z)
    (view : StateView) (w w' : AWorld) (solution : list Z) (e : E) :
  (forall x y z, E_ltb x y = true -> E_ltb y z = true -> E_ltb x z = true) ->
  length (circuit s) = n_nodes (device s) ->
  fst (observe s (store w)) = Ok view ->
  simulated_annealing E E_ltb exp_minus_diff_over oracle swappable_edges protected_edges
    tape fuel self s action_chooser search_limit w = (Ok (Some (solution, Tensor e)), w') ->
  exists solution0 e0,
    fst (generate_initial_solution swappable_edges tape self s w) = Ok solution0 /\
    oracle solution0 view action_chooser = Ok e0 /\
    ((solution = solution0 /\ e = e0) \/ E_ltb e e0 = true).
Proof.
  intros Htrans Hlen Hv Hrun.
  exact (annealing_best E E_ltb exp_minus_diff_over oracle swappable_edges protected_edges
           tape self s action_chooser search_limit Htrans view fuel w w' solution e
           Hlen Hv Hrun).
Qed.

Lemma search_never_returns_worse_witness :
  exists solution0 e0,
    fst (generate_initial_solution swappable_edges_of constant_tape path_annealer path_state
           path_world) = Ok solution0 /\
    swap_count_oracle solution0 path_view "model" = Ok e0 /\
    (([0; 0] = solution0 /\ 0 = e0) \/ (0 <? e0) = true).
Proof.
  apply (search_never_returns_worse Z Z.ltb (fun _ _ _ => 0%float) swap_count_oracle
           swappable_edges_of protected_edges_of constant_tape
           200 path_annealer path_state "model" None path_view path_world
           (snd (example_search 200 None path_world)) [0; 0] 0).
  - intros x y z Hxy Hyz. apply Z.ltb_lt in Hxy, Hyz. apply Z.ltb_lt. lia.
  - reflexivity.
  - reflexivity.
  - vm_compute. reflexivity.
Defined.
